(** * Batch transcription worker (src/main.py): model and properties

    The development embeds the worker of the transcription application:
    the per-file procedure [transcribe_file], the orchestration in
    [TranscriptionWorker.run] with its thread pool, the slots of the main
    window that share the [FileItem] objects with the worker,
    [start_transcription], the handlers that fill and clear the worklist,
    and [save_transcriptions].  External collaborators (the speech engine,
    the video decoder, the file system calls that can fail) are the fields
    of an environment record or arguments of the handlers. *)

From Stdlib Require Import ZArith String Ascii List Lia.
From Stdlib Require Import Floats.SpecFloat.
From stdpp Require Import base option list gmap strings pretty relations.

Open Scope string_scope.
Open Scope list_scope.

(** ** Python strings and paths *)

Module Str.

(** [s.rsplit(sep, 1)] when [sep] occurs in [s]: the text before the last
    occurrence and the text after it. *)
Fixpoint rsplit1 (sep : ascii) (s : string) : option (string * string) :=
  match s with
  | EmptyString => None
  | String c r =>
      match rsplit1 sep r with
      | Some (h, t) => Some (String c h, t)
      | None => if Ascii.eqb c sep then Some (EmptyString, r) else None
      end
  end.

(** [s.rsplit(sep, 1)]: one part when [sep] does not occur, two otherwise. *)
Definition rsplit (sep : ascii) (s : string) : list string :=
  match rsplit1 sep s with
  | Some (h, t) => [h; t]
  | None => [s]
  end.

(** [sep in s] *)
Fixpoint contains (sep : ascii) (s : string) : bool :=
  match s with
  | EmptyString => false
  | String c r => Ascii.eqb c sep || contains sep r
  end.

(** [str.lower] on one byte: the ASCII letters. *)
Definition lower_ascii (c : ascii) : ascii :=
  let n := nat_of_ascii c in
  if (65 <=? n)%nat && (n <=? 90)%nat then ascii_of_nat (n + 32) else c.

(** [str.lower] on a string in UTF-8.  The ASCII capitals become small
    letters, and so does the Kelvin sign U+212A (the bytes 226, 132, 170),
    whose lower case is "k": it is the one character outside ASCII whose
    lower case lies within ASCII.  The other characters outside ASCII are
    kept; their lower case, like themselves, has a byte outside ASCII, so
    that the result is in a list of ASCII strings exactly when the result
    of [str.lower] is. *)
Fixpoint lower (s : string) : string :=
  match s with
  | EmptyString => EmptyString
  | String c r =>
      match r with
      | String c1 (String c2 r') =>
          if Ascii.eqb c "226" && Ascii.eqb c1 "132" && Ascii.eqb c2 "170"
          then String "k" (lower r')
          else String (lower_ascii c) (lower r)
      | _ => String (lower_ascii c) (lower r)
      end
  end.

(** [Path(p).name] for a path as pathlib writes it (no trailing separator,
    no empty and no "." component): the text after the last ['/']. *)
Definition path_name (p : string) : string :=
  match rsplit1 "/" p with
  | Some (_, t) => t
  | None => p
  end.

(** [Path(p).suffix]: the last dot of the name and what follows, when the
    dot is neither the first nor the last character of the name. *)
Definition path_suffix (p : string) : string :=
  match rsplit1 "." (path_name p) with
  | Some (h, t) =>
      if bool_decide (h = "") || bool_decide (t = "") then "" else "." +:+ t
  | None => ""
  end.


(** Truth value of a Python string. *)
Definition truthy (s : string) : bool := negb (bool_decide (s = "")).

End Str.

(** Outcome of a call that can raise; an exception is represented by its
    [str()]. *)
Inductive result (A : Type) :=
| Ok (a : A)
| Raise (msg : string).
Arguments Ok {A} a.
Arguments Raise {A} msg.

(** ** Python numbers: [int / int], [float * int], [int(float)]

    Floats are IEEE 754 binary64 values, as specified by the standard
    library's [spec_float] with 53 bits of precision. *)

Module PyFloat.

Definition prec : Z := 53.
Definition emax : Z := 1024.

(** [float(z)] *)
Definition float_of_int (z : Z) : spec_float :=
  binary_normalize prec emax z 0 false.

(** [a / b] on integers: the quotient rounded once to the nearest double
    (ties to even), or [ZeroDivisionError].  The division works on the two
    integers as mantissas with exponent 0, which rounds the exact quotient
    whatever the size of the operands. *)
Definition truediv (a b : Z) : result spec_float :=
  match a, b with
  | _, Z0 => Raise "division by zero"
  | Z0, Zpos _ => Ok (S754_zero false)
  | Z0, Zneg _ => Ok (S754_zero true)
  | Zpos p, Zpos q => Ok (SFdiv prec emax (S754_finite false p 0) (S754_finite false q 0))
  | Zpos p, Zneg q => Ok (SFdiv prec emax (S754_finite false p 0) (S754_finite true q 0))
  | Zneg p, Zpos q => Ok (SFdiv prec emax (S754_finite true p 0) (S754_finite false q 0))
  | Zneg p, Zneg q => Ok (SFdiv prec emax (S754_finite true p 0) (S754_finite true q 0))
  end.

(** [x * n] for a float [x] and an integer [n] *)
Definition mul_int (x : spec_float) (n : Z) : spec_float :=
  SFmul prec emax x (float_of_int n).

(** [int(x)]: truncation toward zero; infinities and NaN raise. *)
Definition to_int (x : spec_float) : result Z :=
  match x with
  | S754_zero _ => Ok 0%Z
  | S754_finite s m e =>
      let a := match e with
               | Z0 => Zpos m
               | Zpos p => (Zpos m * 2 ^ Zpos p)%Z
               | Zneg p => (Zpos m / 2 ^ Zpos p)%Z
               end in
      Ok (if s then (- a)%Z else a)
  | S754_infinity _ => Raise "cannot convert float infinity to integer"
  | S754_nan => Raise "cannot convert float NaN to integer"
  end.

End PyFloat.

(** Line 113: [int((completed / total_files) * 100)] *)
Definition progress_percent (completed total_files : Z) : result Z :=
  match PyFloat.truediv completed total_files with
  | Ok q => PyFloat.to_int (PyFloat.mul_int q 100)
  | Raise e => Raise e
  end.

(** ** Data model *)

(** [class FileItem] *)
Record FileItem := mkFileItem {
  file_path : string;
  status : string;
  transcription : string;
  error_message : string
}.

(** [FileItem.__init__] *)
Definition new_FileItem (p : string) : FileItem :=
  mkFileItem p "Ожидание" "" "".

(** The status values as the program tells them apart: equality for the
    first three, [startswith("Ошибка")] for failures (lines 273-277 and
    329-330). *)
Definition is_pending (it : FileItem) : Prop := status it = "Ожидание".
Definition is_running (it : FileItem) : Prop := status it = "В процессе".
Definition is_done (it : FileItem) : Prop := status it = "Готово".
Definition is_failed (it : FileItem) : Prop := String.prefix "Ошибка" (status it) = true.

(** The three signals of [TranscriptionWorker]. *)
Inductive Signal :=
| progress_update (index : Z) (path : string) (st : string)
| file_progress (percent : Z)
| finished.

(** Outcome of [video.audio.write_audiofile]: the file is written, or the
    call raises, having created the target file or not. *)
Inductive write_outcome :=
| Written
| WriteFailed (left_on_disk : bool) (msg : string).

(** What the worker shares with the rest of the process: the [FileItem]
    objects (the list [self.files], which is also the window's list), the
    files on disk, and the signals emitted so far. *)
Record World := mkWorld {
  files : list FileItem;
  disk : gset string;
  emitted : list Signal
}.

(** The external collaborators.  Each answer may depend on the state of the
    disk. *)
Record Env := mkEnv {
  load_model : string -> result unit;
  VideoFileClip : gset string -> string -> result unit;
  write_audiofile : gset string -> string -> string -> write_outcome;
  clip_close : string -> result unit;
  model_transcribe : gset string -> string -> string -> option string -> result string;
  os_remove : gset string -> string -> result unit
}.

(** The fields of [TranscriptionWorker] other than the shared list and the
    loaded model. *)
Record TranscriptionWorker := mkWorker {
  model_name : string;
  language : option string;
  task : string;
  max_workers : nat
}.

Definition emit (sg : Signal) (w : World) : World :=
  mkWorld (files w) (disk w) (emitted w ++ [sg]).

Definition set_disk (d : gset string) (w : World) : World :=
  mkWorld (files w) d (emitted w).

Definition update_item (i : nat) (f : FileItem -> FileItem) (w : World) : World :=
  mkWorld (alter f i (files w)) (disk w) (emitted w).

Definition set_status (s : string) (it : FileItem) : FileItem :=
  mkFileItem (file_path it) s (transcription it) (error_message it).

Definition set_transcription (t : string) (it : FileItem) : FileItem :=
  mkFileItem (file_path it) (status it) t (error_message it).

Definition set_error_message (e : string) (it : FileItem) : FileItem :=
  mkFileItem (file_path it) (status it) (transcription it) e.

Definition item_path (w : World) (i : nat) : string :=
  from_option file_path "" (files w !! i).

(** [os.path.exists] *)
Definition path_exists (w : World) (p : string) : bool := bool_decide (p ∈ disk w).

(** ** The worker *)

Definition video_extensions : list string :=
  [".mp4"; ".avi"; ".mov"; ".mkv"; ".flv"; ".wmv"; ".webm"; ".m4v"].

Definition is_video (p : string) : bool :=
  bool_decide (Str.lower (Str.path_suffix p) ∈ video_extensions).

(** Line 41: [video_path.rsplit('.', 1)[0] + '_temp_audio.wav'] *)
Definition temp_audio_path_of (video_path : string) : string :=
  hd "" (Str.rsplit "." video_path) +:+ "_temp_audio.wav".

Definition extraction_error (e : string) : string :=
  "Ошибка извлечения аудио: " +:+ e.

(** [extract_audio_from_video]: the three calls of the [try] block; any
    exception is raised again with the prefix. *)
Definition extract_audio_from_video (env : Env) (d : gset string) (video_path : string)
  : gset string * result string :=
  let temp_audio_path := temp_audio_path_of video_path in
  match VideoFileClip env d video_path with
  | Raise e => (d, Raise (extraction_error e))
  | Ok _ =>
      match write_audiofile env d video_path temp_audio_path with
      | WriteFailed partial e =>
          (if partial then {[temp_audio_path]} ∪ d else d, Raise (extraction_error e))
      | Written =>
          match clip_close env video_path with
          | Raise e => ({[temp_audio_path]} ∪ d, Raise (extraction_error e))
          | Ok _ => ({[temp_audio_path]} ∪ d, Ok temp_audio_path)
          end
      end
  end.

(** Line 66: the language is passed when it is set and is not "auto". *)
Definition language_argument (self : TranscriptionWorker) : option string :=
  match language self with
  | Some l => if Str.truthy l && negb (bool_decide (l = "auto")) then Some l else None
  | None => None
  end.

(** [temp_audio_path and os.path.exists(temp_audio_path)] *)
Definition temp_present (temp : option string) (w : World) : option string :=
  match temp with
  | Some t => if Str.truthy t && path_exists w t then Some t else None
  | None => None
  end.

(** Lines 90-94: removal inside [try ... except: pass]. *)
Definition remove_quietly (env : Env) (temp : option string) (w : World) : World :=
  match temp_present temp w with
  | Some t =>
      match os_remove env (disk w) t with
      | Ok _ => set_disk (disk w ∖ {[t]}) w
      | Raise _ => w
      end
  | None => w
  end.

(** Lines 86-88: the first three statements of the handler. *)
Definition record_failure (i : nat) (path msg : string) (w : World) : World :=
  emit (progress_update (Z.of_nat i) path ("Ошибка: " +:+ msg))
    (update_item i (fun it => set_error_message msg (set_status "Ошибка" it)) w).

(** Lines 85-94: the [except Exception] handler. *)
Definition handle_exception (env : Env) (i : nat) (path msg : string)
    (temp : option string) (w : World) : World :=
  remove_quietly env temp (record_failure i path msg w).

(** Lines 78-80. *)
Definition record_success (i : nat) (path text : string) (w : World) : World :=
  emit (progress_update (Z.of_nat i) path "Готово")
    (update_item i (fun it => set_status "Готово" (set_transcription text it)) w).

(** [transcribe_file(file_item, index)], where [file_item] is the object at
    position [i] of the shared list. *)
Definition transcribe_file (env : Env) (self : TranscriptionWorker) (i : nat) (w : World)
  : World :=
  let path := item_path w i in
  let w := emit (progress_update (Z.of_nat i) path "В процессе") w in
  let '(w, source) :=
    if is_video path then
      let '(d, r) := extract_audio_from_video env (disk w) path in
      (set_disk d w, match r with Ok t => Ok (t, Some t) | Raise e => Raise e end)
    else (w, Ok (path, None)) in
  match source with
  | Raise e => handle_exception env i path e None w
  | Ok (audio_path, temp) =>
      match model_transcribe env (disk w) audio_path (task self) (language_argument self) with
      | Raise e => handle_exception env i path e temp w
      | Ok text =>
          let w := record_success i path text w in
          match temp_present temp w with
          | Some t =>
              match os_remove env (disk w) t with
              | Ok _ => set_disk (disk w ∖ {[t]}) w
              | Raise e => handle_exception env i path e temp w
              end
          | None => w
          end
      end
  end.

(** ** The worker's task, statement by statement

    For the thread pool the body of [transcribe_file] is cut at its calls
    to the outside: a task is at one of the points below, and a step runs it
    to the next one.  [PInEngine] is a task inside [self.model.transcribe]. *)
Inductive pc :=
| PQueued
| PExtract
| PInEngine (audio_path : string) (temp : option string)
| PCleanup (temp : option string)
| PExcept (msg : string) (temp : option string)
| PSettled.

Definition task_step (env : Env) (self : TranscriptionWorker) (i : nat)
    (w : World) (p : pc) : option (World * pc) :=
  let path := item_path w i in
  match p with
  | PQueued =>
      Some (emit (progress_update (Z.of_nat i) path "В процессе") w,
            if is_video path then PExtract else PInEngine path None)
  | PExtract =>
      let '(d, r) := extract_audio_from_video env (disk w) path in
      Some (set_disk d w,
            match r with Ok t => PInEngine t (Some t) | Raise e => PExcept e None end)
  | PInEngine audio_path temp =>
      match model_transcribe env (disk w) audio_path (task self) (language_argument self) with
      | Ok text => Some (record_success i path text w, PCleanup temp)
      | Raise e => Some (w, PExcept e temp)
      end
  | PCleanup temp =>
      match temp_present temp w with
      | Some t =>
          match os_remove env (disk w) t with
          | Ok _ => Some (set_disk (disk w ∖ {[t]}) w, PSettled)
          | Raise e => Some (w, PExcept e temp)
          end
      | None => Some (w, PSettled)
      end
  | PExcept e temp => Some (handle_exception env i path e temp w, PSettled)
  | PSettled => None
  end.

(** A task run alone until it settles. *)
Fixpoint run_task (env : Env) (self : TranscriptionWorker) (i : nat)
    (fuel : nat) (w : World) (p : pc) : World * pc :=
  match fuel with
  | O => (w, p)
  | S fuel' =>
      match task_step env self i w p with
      | Some (w', p') => run_task env self i fuel' w' p'
      | None => (w, p)
      end
  end.

(** ** The main window *)

Inductive Dialog :=
| warning (title text : string)
| information (title text : string).

Record Gui := mkGui {
  worker : option TranscriptionWorker;
  status_label : string;
  overall_progress : Z;
  start_btn_enabled : bool;
  save_btn_enabled : bool;
  model_combo : string;
  language_combo : string;
  translate_checkbox : bool;
  dialogs : list Dialog
}.

(** ** [TranscriptionWorker.run] and the whole process *)

(** Where the worker thread is in [run]; [RIdle] is before [start()], and
    [RFinished] after [run] has returned. *)
Inductive run_pc :=
| RIdle
| RStart
| RLoading
| RDraining (total_files completed : nat)
| RRaised (msg : string)
| RFinished.

(** The process: the shared world, the number of signals the main thread has
    handled (signals from other threads are queued and handled in order),
    the window, the tasks of the pool (one per submitted item, in
    submission order) and the worker thread. *)
Record Sys := mkSys {
  world : World;
  delivered : nat;
  gui : Gui;
  pool : list pc;
  runner : run_pc
}.

Definition is_queued (p : pc) : bool :=
  match p with PQueued => true | _ => false end.

Definition is_settled (p : pc) : bool :=
  match p with PSettled => true | _ => false end.

Definition in_engine (p : pc) : bool :=
  match p with PInEngine _ _ => true | _ => false end.

(** A task that a pool thread is executing. *)
Definition is_active (p : pc) : bool := negb (is_queued p) && negb (is_settled p).

Fixpoint count (f : pc -> bool) (l : list pc) : nat :=
  match l with
  | [] => O
  | p :: r => ((if f p then 1 else 0) + count f r)%nat
  end.

(** [QThread.isRunning] *)
Definition isRunning (s : Sys) : bool :=
  match runner s with
  | RIdle | RFinished => false
  | _ => true
  end.

Definition with_world (w : World) (s : Sys) : Sys :=
  mkSys w (delivered s) (gui s) (pool s) (runner s).

Definition with_gui (g : Gui) (s : Sys) : Sys :=
  mkSys (world s) (delivered s) g (pool s) (runner s).

Definition with_runner (r : run_pc) (s : Sys) : Sys :=
  mkSys (world s) (delivered s) (gui s) (pool s) r.

Definition with_pool (l : list pc) (s : Sys) : Sys :=
  mkSys (world s) (delivered s) (gui s) l (runner s).

(** Lines 118-120: the handler of [run]. *)
Definition run_exception (e : string) (w : World) : World :=
  emit finished (emit (progress_update (-1) ("Ошибка: " +:+ e) "Ошибка") w).

(** One step of [run].  After the model is loaded the executor is built
    (which raises for [max_workers = 0]) and every item is submitted; the
    loop over [as_completed] then takes one settled task at a time; an
    exception inside the [with] block reaches the handler once the executor
    has waited for its tasks. *)
Definition run_step (env : Env) (self : TranscriptionWorker) (s : Sys) : option Sys :=
  let w := world s in
  match runner s with
  | RIdle | RFinished => None
  | RStart =>
      Some (with_runner RLoading
              (with_world (emit (progress_update (-1) "Загрузка Whisper..." "Загрузка") w) s))
  | RLoading =>
      match load_model env (model_name self) with
      | Raise e => Some (with_runner RFinished (with_world (run_exception e w) s))
      | Ok _ =>
          let w := emit (progress_update (-1) "Модель загружена" "Готово") w in
          let total_files := length (files w) in
          match max_workers self with
          | O =>
              Some (with_runner RFinished
                      (with_world (run_exception "max_workers must be greater than 0" w) s))
          | S _ =>
              Some (with_runner (RDraining total_files 0)
                      (with_pool (replicate total_files PQueued) (with_world w s)))
          end
      end
  | RDraining total_files completed =>
      if (completed <? count is_settled (pool s))%nat then
        match progress_percent (Z.of_nat (S completed)) (Z.of_nat total_files) with
        | Ok progress =>
            Some (with_runner (RDraining total_files (S completed))
                    (with_world (emit (file_progress progress) w) s))
        | Raise e => Some (with_runner (RRaised e) s)
        end
      else if (completed =? length (pool s))%nat then
        Some (with_runner RFinished (with_world (emit finished w) s))
      else None
  | RRaised e =>
      if (count is_settled (pool s) =? length (pool s))%nat then
        Some (with_runner RFinished (with_world (run_exception e w) s))
      else None
  end.

(** A queued task is taken by a pool thread when the tasks submitted before
    it have been taken and fewer than [max_workers] tasks are executing. *)
Definition can_start (i : nat) (l : list pc) (k : nat) : bool :=
  forallb (fun p => negb (is_queued p)) (take i l) && (count is_active l <? k)%nat.

Definition pool_step (env : Env) (self : TranscriptionWorker) (i : nat) (s : Sys)
  : option Sys :=
  match pool s !! i with
  | Some p =>
      if is_queued p && negb (can_start i (pool s) (max_workers self)) then None
      else
        match task_step env self i (world s) p with
        | Some (w', p') => Some (with_pool (<[i := p']> (pool s)) (with_world w' s))
        | None => None
        end
  | None => None
  end.

(** ** Slots of the main window *)

Definition set_status_label (t : string) (g : Gui) : Gui :=
  mkGui (worker g) t (overall_progress g) (start_btn_enabled g) (save_btn_enabled g)
        (model_combo g) (language_combo g) (translate_checkbox g) (dialogs g).

Definition set_overall_progress (v : Z) (g : Gui) : Gui :=
  mkGui (worker g) (status_label g) v (start_btn_enabled g) (save_btn_enabled g)
        (model_combo g) (language_combo g) (translate_checkbox g) (dialogs g).

Definition set_buttons (start save : bool) (g : Gui) : Gui :=
  mkGui (worker g) (status_label g) (overall_progress g) start save
        (model_combo g) (language_combo g) (translate_checkbox g) (dialogs g).

Definition set_worker (wk : TranscriptionWorker) (g : Gui) : Gui :=
  mkGui (Some wk) (status_label g) (overall_progress g) (start_btn_enabled g)
        (save_btn_enabled g) (model_combo g) (language_combo g) (translate_checkbox g)
        (dialogs g).

Definition show (d : Dialog) (g : Gui) : Gui :=
  mkGui (worker g) (status_label g) (overall_progress g) (start_btn_enabled g)
        (save_btn_enabled g) (model_combo g) (language_combo g) (translate_checkbox g)
        (dialogs g ++ [d]).

(** [on_progress_update]: the worker passes -1 or a position of the list
    (the index that [enumerate] gave on line 108), and the write goes to the
    shared [FileItem].  [alter] at [Z.to_nat index] is [self.files[index]]
    for these positions; for another index Python would count from the end
    or raise [IndexError], which no signal of a run calls for as long as the
    worklist is the one the run started with. *)
Definition on_progress_update (index : Z) (path st : string) (s : Sys) : Sys :=
  if (index =? -1)%Z then with_gui (set_status_label st (gui s)) s
  else with_world (update_item (Z.to_nat index) (set_status st) (world s)) s.

Definition on_file_progress (progress : Z) (s : Sys) : Sys :=
  with_gui (set_overall_progress progress (gui s)) s.

Definition status_done (it : FileItem) : bool := bool_decide (status it = "Готово").
Definition status_failed (it : FileItem) : bool := String.prefix "Ошибка" (status it).

Definition nl : string := String (ascii_of_nat 10) EmptyString.

Definition on_transcription_finished (s : Sys) : Sys :=
  let done_count := length (filter (fun f => status_done f = true) (files (world s))) in
  let error_count := length (filter (fun f => status_failed f = true) (files (world s))) in
  with_gui
    (show (information "Транскрипциязавершена"
             ("Транскрипция  завершена!" +:+ nl +:+ nl +:+ "Успешно: " +:+ pretty done_count
              +:+ nl +:+ "Ошибок: " +:+ pretty error_count))
       (set_status_label "Транскрипция завершена!" (set_buttons true true (gui s))))
    s.

Definition handle_signal (sg : Signal) (s : Sys) : Sys :=
  match sg with
  | progress_update index path st => on_progress_update index path st s
  | file_progress progress => on_file_progress progress s
  | finished => on_transcription_finished s
  end.

(** The main thread handles the oldest signal not handled yet. *)
Definition gui_step (s : Sys) : option Sys :=
  match emitted (world s) !! delivered s with
  | Some sg =>
      Some (handle_signal sg
              (mkSys (world s) (S (delivered s)) (gui s) (pool s) (runner s)))
  | None => None
  end.

(** Lines 291-294 *)
Definition reset_item (it : FileItem) : FileItem :=
  mkFileItem (file_path it) "Ожидание" "" "".

(** [start_transcription] *)
Definition start_transcription (s : Sys) : Sys :=
  match files (world s) with
  | [] =>
      with_gui (show (warning "Нет файлов" "Пожалуйста, добавьте файлы для транскрипции.")
                  (gui s)) s
  | _ :: _ =>
      if bool_decide (is_Some (worker (gui s))) && isRunning s then
        with_gui (show (warning "В процессе" "Транскрипция уже выполняется.") (gui s)) s
      else
        let g := gui s in
        let w := mkWorld (map reset_item (files (world s))) (disk (world s))
                         (emitted (world s)) in
        let model_name := model_combo g in
        let language :=
          if bool_decide (language_combo g = "auto") then None else Some (language_combo g) in
        let task := if translate_checkbox g then "translate" else "transcribe" in
        let g := set_buttons false false (set_overall_progress 0 g) in
        mkSys w (delivered s) (set_worker (mkWorker model_name language task 2) g)
              [] RStart
  end.

(** ** Interleavings

    A step is one of the worker thread, of a task of the pool or of the
    main thread handling a signal.  The user's own actions on the window
    during a run ([add_files], [add_folder], [clear_list], which stay
    enabled) are not among the steps: a run is followed with the worklist it
    started with. *)

Inductive Choice :=
| CRun
| CTask (i : nat)
| CGui.

Definition step_fn (env : Env) (c : Choice) (s : Sys) : option Sys :=
  match c with
  | CGui => gui_step s
  | CRun =>
      match worker (gui s) with
      | Some self => run_step env self s
      | None => None
      end
  | CTask i =>
      match worker (gui s) with
      | Some self => pool_step env self i s
      | None => None
      end
  end.

Definition step (env : Env) (s s' : Sys) : Prop :=
  exists c, step_fn env c s = Some s'.

(** A schedule applied from a state; choices that are not enabled are
    skipped. *)
Fixpoint exec (env : Env) (cs : list Choice) (s : Sys) : Sys :=
  match cs with
  | [] => s
  | c :: cs' =>
      match step_fn env c s with
      | Some s' => exec env cs' s'
      | None => exec env cs' s
      end
  end.

(** Nothing is left to do: [run] has returned and every signal is handled. *)
Definition settled (s : Sys) : Prop :=
  runner s = RFinished /\ delivered s = length (emitted (world s)).

(** The window with a worklist and no worker, as after [__init__] and
    [add_files]. *)
Definition initial_gui : Gui :=
  mkGui None "Готово" 0 true false "base" "auto" false [].

Definition initial (paths : list string) (d : gset string) : Sys :=
  mkSys (mkWorld (map new_FileItem paths) d []) 0 initial_gui [] RIdle.

(** ** Concrete collaborators for the examples *)

Module Examples.

(** Every call succeeds except those replaced below; the engine answers
    with [text]. *)
Definition env_ok (text : string) : Env :=
  mkEnv (fun _ => Ok tt) (fun _ _ => Ok tt) (fun _ _ _ => Written) (fun _ => Ok tt)
        (fun _ _ _ _ => Ok text) (fun _ _ => Ok tt).

(** [os.remove] raises (a file held open, a read-only directory). *)
Definition env_remove_denied (text : string) : Env :=
  mkEnv (fun _ => Ok tt) (fun _ _ => Ok tt) (fun _ _ _ => Written) (fun _ => Ok tt)
        (fun _ _ _ _ => Ok text) (fun _ _ => Raise "Permission denied").

(** The engine raises and so does [os.remove]. *)
Definition env_engine_and_remove_fail : Env :=
  mkEnv (fun _ => Ok tt) (fun _ _ => Ok tt) (fun _ _ _ => Written) (fun _ => Ok tt)
        (fun _ _ _ _ => Raise "decode error") (fun _ _ => Raise "Permission denied").

(** The engine raises. *)
Definition env_engine_fails : Env :=
  mkEnv (fun _ => Ok tt) (fun _ _ => Ok tt) (fun _ _ _ => Written) (fun _ => Ok tt)
        (fun _ _ _ _ => Raise "decode error") (fun _ _ => Ok tt).

(** The audio track cannot be decoded: writing stops with an exception
    after the target file has been created. *)
Definition env_undecodable : Env :=
  mkEnv (fun _ => Ok tt) (fun _ _ => Ok tt)
        (fun _ _ _ => WriteFailed true "invalid data found") (fun _ => Ok tt)
        (fun _ _ _ _ => Ok "text") (fun _ _ => Ok tt).

(** The model cannot be loaded. *)
Definition env_no_model : Env :=
  mkEnv (fun _ => Raise "model not found") (fun _ _ => Ok tt) (fun _ _ _ => Written)
        (fun _ => Ok tt) (fun _ _ _ _ => Ok "text") (fun _ _ => Ok tt).

Definition default_worker : TranscriptionWorker := mkWorker "base" None "transcribe" 2.

Definition one_video : World := mkWorld [new_FileItem "talk.mp4"] ∅ [].
Definition one_audio : World := mkWorld [new_FileItem "interview.mp3"] ∅ [].

End Examples.

(** ** Exceptions that are not [Exception]s

    Line 85 catches [Exception].  An exception of another class
    ([SystemExit], [KeyboardInterrupt], ...) raised by a call that
    [transcribe_file] makes leaves the function: the executor stores it in
    the future, which is done from then on, and [run] never asks a future
    for its result.  The removal of lines 91-94 stands under a bare
    [except], which catches every exception.  The three calls of a task
    that can let such an exception out are the extraction, which may have
    left the temporary file behind, the engine, and the removal of line
    83. *)
Record Escapes := mkEscapes {
  extract_escapes : gset string -> string -> option bool;
  transcribe_escapes : gset string -> string -> string -> option string -> bool;
  remove_escapes : gset string -> string -> bool
}.

Definition task_step_esc (esc : Escapes) (env : Env) (self : TranscriptionWorker)
    (i : nat) (w : World) (p : pc) : option (World * pc) :=
  let path := item_path w i in
  match p with
  | PExtract =>
      match extract_escapes esc (disk w) path with
      | Some partial =>
          Some (set_disk (if partial then {[temp_audio_path_of path]} ∪ disk w else disk w) w,
                PSettled)
      | None => task_step env self i w p
      end
  | PInEngine audio_path temp =>
      if transcribe_escapes esc (disk w) audio_path (task self) (language_argument self)
      then Some (w, PSettled)
      else task_step env self i w p
  | PCleanup temp =>
      match temp_present temp w with
      | Some t =>
          if remove_escapes esc (disk w) t then Some (w, PSettled)
          else task_step env self i w p
      | None => task_step env self i w p
      end
  | _ => task_step env self i w p
  end.

Definition pool_step_esc (esc : Escapes) (env : Env) (self : TranscriptionWorker)
    (i : nat) (s : Sys) : option Sys :=
  match pool s !! i with
  | Some p =>
      if is_queued p && negb (can_start i (pool s) (max_workers self)) then None
      else
        match task_step_esc esc env self i (world s) p with
        | Some (w', p') => Some (with_pool (<[i := p']> (pool s)) (with_world w' s))
        | None => None
        end
  | None => None
  end.

Definition step_fn_esc (esc : Escapes) (env : Env) (c : Choice) (s : Sys) : option Sys :=
  match c with
  | CTask i =>
      match worker (gui s) with
      | Some self => pool_step_esc esc env self i s
      | None => None
      end
  | _ => step_fn env c s
  end.

Definition step_esc (esc : Escapes) (env : Env) (s s' : Sys) : Prop :=
  exists c, step_fn_esc esc env c s = Some s'.

Fixpoint exec_esc (esc : Escapes) (env : Env) (cs : list Choice) (s : Sys) : Sys :=
  match cs with
  | [] => s
  | c :: cs' =>
      match step_fn_esc esc env c s with
      | Some s' => exec_esc esc env cs' s'
      | None => exec_esc esc env cs' s
      end
  end.

(** What such an exception does to the process: the task of some item,
    which a pool thread is executing, is done from then on, and nothing has
    changed but, for the extraction, the disk. *)
Definition escape_step (s s' : Sys) : Prop :=
  exists i p d,
    pool s !! i = Some p /\ is_queued p = false /\ is_settled p = false /\
    s' = with_pool (<[i := PSettled]> (pool s)) (with_world (set_disk d (world s)) s).

(** No call of a task lets an exception out. *)
Definition never_escapes (esc : Escapes) : Prop :=
  (forall d p, extract_escapes esc d p = None) /\
  (forall d a tk lg, transcribe_escapes esc d a tk lg = false) /\
  (forall d t, remove_escapes esc d t = false).

(** The engine exits the interpreter's way, with [SystemExit], on every
    call. *)
Definition engine_exits : Escapes :=
  mkEscapes (fun _ _ => None) (fun _ _ _ _ => true) (fun _ _ => false).

Definition one_audio_engine_exits : Sys :=
  exec_esc engine_exits (Examples.env_ok "hello")
    [CRun; CRun; CTask 0; CTask 0; CRun; CRun; CGui; CGui; CGui; CGui; CGui]
    (start_transcription (initial ["interview.mp3"] ∅)).

(** ** Notions used by the statements *)

(** The status an item shows once the signals in [sgs] are handled, from
    the status [st] it shows now. *)
Fixpoint replay (i : nat) (st : string) (sgs : list Signal) : string :=
  match sgs with
  | [] => st
  | progress_update index _ st' :: r =>
      if negb (index =? -1)%Z && (Z.to_nat index =? i)%nat then replay i st' r
      else replay i st r
  | _ :: r => replay i st r
  end.

(** The signals emitted and not handled yet. *)
Definition pending (s : Sys) : list Signal := drop (delivered s) (emitted (world s)).

Definition eventual_status (i : nat) (s : Sys) : string :=
  replay i (from_option status "" (files (world s) !! i)) (pending s).

(** ** The calls that the task of an item makes in a run

    [audio_of] is the audio that [transcribe_file] gives to the engine for
    the item with [path] (lines 60-64): the temporary audio file of a video,
    the file itself otherwise; [temp_of] is the temporary path that the task
    then holds. *)
Definition audio_of (path : string) : string :=
  if is_video path then temp_audio_path_of path else path.

Definition temp_of (path : string) : option string :=
  if is_video path then Some (temp_audio_path_of path) else None.

(** In the run from [start], the task of item [i], whose path is [path],
    calls the engine (line 66) on the audio of the item, with the task and
    the language of the worker and with the disk as it is then, and the call
    ends with [r]: it returns, or it raises an [Exception]. *)
Definition engine_call (esc : Escapes) (env : Env) (start : Sys) (i : nat) (path : string)
    (r : result string) : Prop :=
  exists s1 self,
    rtc (step_esc esc env) start s1 /\ worker (gui s1) = Some self /\
    item_path (world s1) i = path /\
    pool s1 !! i = Some (PInEngine (audio_of path) (temp_of path)) /\
    transcribe_escapes esc (disk (world s1)) (audio_of path) (task self)
      (language_argument self) = false /\
    model_transcribe env (disk (world s1)) (audio_of path) (task self)
      (language_argument self) = r.

(** In the run from [start], the task of item [i], a video with [path],
    calls [extract_audio_from_video] (line 61), and the call ends with
    [r]. *)
Definition extract_call (esc : Escapes) (env : Env) (start : Sys) (i : nat) (path : string)
    (r : result string) : Prop :=
  exists s1,
    rtc (step_esc esc env) start s1 /\ item_path (world s1) i = path /\
    pool s1 !! i = Some PExtract /\ is_video path = true /\
    extract_escapes esc (disk (world s1)) path = None /\
    snd (extract_audio_from_video env (disk (world s1)) path) = r.

(** In the run from [start], the task of item [i], a video with [path],
    calls [os.remove] (line 83) on its temporary audio file, which is on
    disk, and the call ends with [r]. *)
Definition remove_call (esc : Escapes) (env : Env) (start : Sys) (i : nat) (path : string)
    (r : result unit) : Prop :=
  exists s1,
    rtc (step_esc esc env) start s1 /\ item_path (world s1) i = path /\
    pool s1 !! i = Some (PCleanup (temp_of path)) /\ is_video path = true /\
    (temp_audio_path_of path ∈ disk (world s1)) /\
    remove_escapes esc (disk (world s1)) (temp_audio_path_of path) = false /\
    os_remove env (disk (world s1)) (temp_audio_path_of path) = r.

(** [text] is the answer of the engine to the call made for the item; [e]
    is the text of the exception that the extraction or the engine raised
    for the item; [os.remove] raised [e] for the temporary file of the
    item. *)
Definition engine_text (esc : Escapes) (env : Env) (start : Sys) (i : nat)
    (path text : string) : Prop :=
  engine_call esc env start i path (Ok text).

Definition raised (esc : Escapes) (env : Env) (start : Sys) (i : nat)
    (path e : string) : Prop :=
  engine_call esc env start i path (Raise e) \/ extract_call esc env start i path (Raise e).

Definition remove_raises (esc : Escapes) (env : Env) (start : Sys) (i : nat)
    (path e : string) : Prop :=
  remove_call esc env start i path (Raise e).

(** A worker thread about to enter [run], its executor not built yet. *)
Definition started (self : TranscriptionWorker) (s : Sys) : Prop :=
  worker (gui s) = Some self /\ runner s = RStart /\ pool s = [] /\
  (delivered s <= length (emitted (world s)))%nat.

(** A state in which [start_transcription] starts a run: a worklist, no
    worker thread running, every signal handled. *)
Definition ready (s : Sys) : Prop :=
  files (world s) <> [] /\ isRunning s = false /\
  delivered s = length (emitted (world s)).

(** The percentages among the signals. *)
Fixpoint percentages (sgs : list Signal) : list Z :=
  match sgs with
  | [] => []
  | file_progress p :: r => p :: percentages r
  | _ :: r => percentages r
  end.

(** The signals that report the status of an item. *)
Definition is_item_signal (sg : Signal) : bool :=
  match sg with
  | progress_update index _ _ => (0 <=? index)%Z
  | _ => false
  end.

Definition item_signals (sgs : list Signal) : list Signal :=
  List.filter is_item_signal sgs.

Fixpoint nondecreasing (l : list Z) : Prop :=
  match l with
  | x :: (y :: _) as r => (x <= y)%Z /\ nondecreasing r
  | _ => True
  end.

(** ** Invariants of a run *)

(** The worker thread, the pool and the signal queue fit together; [N] is
    the length of the worklist. *)
Definition shape_inv (env : Env) (self : TranscriptionWorker) (N : nat) (s : Sys) : Prop :=
  worker (gui s) = Some self /\
  length (files (world s)) = N /\
  (delivered s <= length (emitted (world s)))%nat /\
  (count is_active (pool s) <= max_workers self)%nat /\
  match runner s with
  | RIdle => False
  | RStart | RLoading => pool s = []
  | RDraining total c =>
      total = N /\ length (pool s) = N /\ (c <= count is_settled (pool s))%nat
  | RRaised _ => length (pool s) = N
  | RFinished =>
      count is_settled (pool s) = length (pool s) /\
      (length (pool s) = N \/
       pool s = [] /\
       ((exists e, load_model env (model_name self) = Raise e) \/ max_workers self = O))
  end.

Definition b2n (b : bool) : nat := if b then 1 else 0.

Module Scenarios.

(** Two audio files submitted, both tasks taken by the pool. *)
Definition two_audio : Sys := start_transcription (initial ["a.mp3"; "b.mp3"] ∅).

Definition both_in_engine : Sys :=
  exec (Examples.env_ok "text") [CRun; CRun; CTask 0; CTask 1] two_audio.

(** One audio file, the worker thread loading the model. *)
Definition loading : Sys :=
  exec (Examples.env_ok "text") [CRun] (start_transcription (initial ["interview.mp3"] ∅)).

(** One audio file, run to the end: the worker thread loads the model and
    submits the item, the task runs, the loop reports it, and the main
    thread handles the six signals. *)
Definition one_audio_schedule : list Choice :=
  [CRun; CRun; CTask 0; CTask 0; CTask 0; CRun; CRun; CGui; CGui; CGui; CGui; CGui; CGui].

Definition one_audio_start : Sys := start_transcription (initial ["interview.mp3"] ∅).

Definition one_audio_run (text : string) : Sys :=
  exec (Examples.env_ok text) one_audio_schedule one_audio_start.

End Scenarios.

(** The status item [i] shows once the signals after the first [d] are
    handled. *)
Definition ev_of (i d : nat) (w : World) : string :=
  replay i (from_option status "" (files w !! i)) (drop d (emitted w)).

Definition fields_empty (it : FileItem) : Prop :=
  transcription it = "" /\ error_message it = "".

(** What holds of item [i] of the run from [start] when its task is at [p];
    [ev] is the status the item shows once the pending signals are handled.
    A task that is done has recorded a success or a failure, unless an
    exception that is not caught has cut it short before. *)
Definition task_inv (esc : Escapes) (env : Env) (start : Sys) (i : nat) (p : pc)
    (it : FileItem) (ev : string) : Prop :=
  match p with
  | PQueued => fields_empty it
  | PExtract => fields_empty it /\ ev = "В процессе" /\ is_video (file_path it) = true
  | PInEngine a temp =>
      fields_empty it /\ ev = "В процессе" /\
      a = audio_of (file_path it) /\ temp = temp_of (file_path it)
  | PCleanup temp =>
      error_message it = "" /\ ev = "Готово" /\
      engine_text esc env start i (file_path it) (transcription it) /\
      temp = temp_of (file_path it)
  | PExcept e temp =>
      error_message it = "" /\
      ((transcription it = "" /\ raised esc env start i (file_path it) e) \/
       (engine_text esc env start i (file_path it) (transcription it) /\
        remove_raises esc env start i (file_path it) e))
  | PSettled =>
      (ev = "Готово" /\ error_message it = "" /\
       engine_text esc env start i (file_path it) (transcription it)) \/
      (String.prefix "Ошибка" ev = true /\
       ((transcription it = "" /\ raised esc env start i (file_path it) (error_message it)) \/
        (engine_text esc env start i (file_path it) (transcription it) /\
         remove_raises esc env start i (file_path it) (error_message it)))) \/
      (ev = "В процессе" /\ fields_empty it /\ ~ never_escapes esc)
  end.

Definition items_inv (esc : Escapes) (env : Env) (start s : Sys) : Prop :=
  (pool s = [] ->
   forall i it, files (world s) !! i = Some it ->
     fields_empty it /\ ev_of i (delivered s) (world s) = "Ожидание") /\
  forall i p it,
    pool s !! i = Some p -> files (world s) !! i = Some it ->
    task_inv esc env start i p it (ev_of i (delivered s) (world s)).

(** The signal with [index] reports on item [i]. *)
Definition for_item (i : nat) (index : Z) : bool :=
  negb (index =? -1)%Z && (Z.to_nat index =? i)%nat.

(** ** A measure of what is left to do *)

Definition pc_fuel (p : pc) : nat :=
  match p with
  | PQueued => 5
  | PExtract => 4
  | PInEngine _ _ => 3
  | PCleanup _ => 2
  | PExcept _ _ => 1
  | PSettled => 0
  end.

Fixpoint pool_fuel (l : list pc) : nat :=
  match l with
  | [] => O
  | p :: r => (pc_fuel p + pool_fuel r)%nat
  end.

Definition runner_fuel (N : nat) (r : run_pc) : nat :=
  match r with
  | RIdle => 0
  | RStart => 4 + 6 * N
  | RLoading => 3 + 6 * N
  | RDraining total completed => 2 + (total - completed)
  | RRaised _ => 1
  | RFinished => 0
  end.

Definition measure (s : Sys) : nat :=
  3 * (runner_fuel (length (files (world s))) (runner s) + pool_fuel (pool s))
  + (length (emitted (world s)) - delivered s).

(** ** A model that does not load *)

(** What [run] emits when the model does not load: line 98 and the
    handler, lines 119-120. *)
Definition load_failure_signals (e : string) : list Signal :=
  [progress_update (-1) "Загрузка Whisper..." "Загрузка";
   progress_update (-1) ("Ошибка: " +:+ e) "Ошибка";
   finished].

(** The states of a run whose model does not load. *)
Definition load_failure_inv (e : string) (s0 s : Sys) : Prop :=
  (exists self, worker (gui s) = Some self /\ model_name self = model_combo (gui s0)) /\
  pool s = [] /\
  files (world s) = map reset_item (files (world s0)) /\
  disk (world s) = disk (world s0) /\
  (length (emitted (world s0)) <= delivered s)%nat /\
  exists k, emitted (world s) = emitted (world s0) ++ take k (load_failure_signals e) /\
    match runner s with
    | RStart => k = 0%nat
    | RLoading => k = 1%nat
    | RFinished => k = 3%nat
    | _ => False
    end.


(** ** Rounding, in integers

    The exact positive quotient [A / B] as a shift record: the integer
    part, the round bit (the remainder is at least half of [B]) and the
    sticky bit (the remainder is neither zero nor the half). *)
Definition rec_of (A B : Z) : shr_record :=
  Build_shr_record (A / B) (B <=? 2 * (A mod B))%Z
    (negb (A mod B =? 0)%Z && negb (2 * (A mod B) =? B)%Z).

(** The location of [A / B] between [A / B] rounded down and its successor. *)
Definition loc_of (A B : Z) : location :=
  if (A mod B =? 0)%Z then loc_Exact else loc_Inexact (2 * (A mod B) ?= B)%Z.

(** The integer nearest to [A / B], the even one at a tie. *)
Definition rne (A B : Z) : Z :=
  let q := (A / B)%Z in
  let r := (A mod B)%Z in
  if (2 * r <? B)%Z then q
  else if (2 * r =? B)%Z then (if Z.even q then q else q + 1)%Z
  else (q + 1)%Z.

(** A mantissa that rounding carried to [2^53] is halved. *)
Definition renorm (m e : Z) : Z * Z :=
  if (m =? 2 ^ 53)%Z then (2 ^ 52, e + 1)%Z else (m, e).

(** [A / B * 2^ex] rounded to 53 bits, for a quotient of at least 53 bits:
    mantissa and exponent. *)
Definition round53 (A B ex : Z) : Z * Z :=
  let n := (Z.log2 (A / B) - 52)%Z in
  renorm (rne A (B * 2 ^ n)) (ex + n).

(** A positive float from a mantissa and an exponent. *)
Definition finite_of (me : Z * Z) : spec_float :=
  match fst me with
  | Zpos m => S754_finite false m (snd me)
  | _ => S754_nan
  end.

(** The value of a mantissa and an exponent times [2^K]. *)
Definition val (K : Z) (me : Z * Z) : Z := (fst me * 2 ^ (snd me + K))%Z.

(** [j / N] for [0 < j <= N]: the dividend is shifted so that the integer
    quotient has 53 or 54 bits. *)
Definition div53 (j N : Z) : Z * Z :=
  let s := (Z.log2 N - Z.log2 j + 53)%Z in
  round53 (j * 2 ^ s) N (- s).

(** [q * 100]; the float [100.0] has mantissa [100 * 2^46] and exponent
    [-46]. *)
Definition mul53_100 (q : Z * Z) : Z * Z :=
  round53 (fst q * (100 * 2 ^ 46)) 1 (snd q - 46).

(** ** The percentages of a run *)

(** The percentages of a run over [N] items whose signals follow [E0]:
    the [j]-th is that of line 113 for [completed = j], and [run] has
    emitted as many as it has taken tasks from [as_completed]. *)
Definition percent_inv (N : nat) (E0 : list Signal) (s : Sys) : Prop :=
  exists new, emitted (world s) = E0 ++ new /\
    (forall i v, percentages new !! i = Some v ->
       progress_percent (Z.of_nat (S i)) (Z.of_nat N) = Ok v) /\
    match runner s with
    | RStart | RLoading => percentages new = []
    | RDraining _ c => length (percentages new) = c
    | RFinished => length (percentages new) = length (pool s)
    | RRaised _ | RIdle => False
    end.

(** The signals emitted since the state [s0]. *)
Definition since (s0 s : Sys) : list Signal :=
  drop (length (emitted (world s0))) (emitted (world s)).

(** [sys.maxsize], the bound on the length of a list. *)
Definition maxsize : Z := 2 ^ 63 - 1.


(** Fifty audio files, of which twenty-nine have settled and have been
    taken from [as_completed]; the engine works on one at a time here. *)
Module Fifty.

Definition paths : list string :=
  map (fun n => "track" +:+ pretty n +:+ ".mp3") (seq 0 50).

Definition start : Sys := initial paths ∅.

Definition schedule : list Choice :=
  [CRun; CRun] ++ flat_map (fun i => [CTask i; CTask i; CTask i]) (seq 0 29)
  ++ repeat CRun 29.

Definition after_29 : Sys :=
  exec (Examples.env_ok "text") schedule (start_transcription start).

End Fifty.


(** ** The worklist handlers of the main window *)

Definition with_files (l : list FileItem) (s : Sys) : Sys :=
  with_world (mkWorld l (disk (world s)) (emitted (world s))) s.

(** [any(f.file_path == file_path for f in self.files)] *)
Definition listed (p : string) (l : list FileItem) : bool :=
  existsb (fun f => bool_decide (file_path f = p)) l.

(** Lines 224-226 and 256-258: a path that no item has is appended as a
    new item. *)
Definition append_new (l : list FileItem) (p : string) : list FileItem :=
  if listed p l then l else l ++ [new_FileItem p].

(** [add_files], for the paths that the file dialog returned (none when it
    is cancelled).  The list widget is refreshed from [self.files] by
    [update_file_list] below. *)
Definition add_files (chosen : list string) (s : Sys) : Sys :=
  with_files (fold_left append_new chosen (files (world s))) s.

Definition media_extensions : list string :=
  [".mp3"; ".wav"; ".m4a"; ".flac"; ".ogg";
   ".mp4"; ".avi"; ".mov"; ".mkv"; ".flv"; ".wmv"; ".webm"; ".m4v"].

Definition is_media (p : string) : bool :=
  bool_decide (Str.lower (Str.path_suffix p) ∈ media_extensions).

(** What [glob] or [rglob] yields: a path and its [is_file()]. *)
Record DirEntry := mkDirEntry {
  entry_path : string;
  entry_is_file : bool
}.

(** Lines 253-258, for the entries that [path.glob('*')] or
    [path.rglob('*')] yields. *)
Definition scan_entry (l : list FileItem) (e : DirEntry) : list FileItem :=
  if entry_is_file e && is_media (entry_path e) then append_new l (entry_path e) else l.

Definition scan_folder (entries : list DirEntry) (l : list FileItem) : list FileItem :=
  fold_left scan_entry entries l.

(** [add_folder]: [glob recursive folder] lists the folder, recursively
    when the box is checked; an empty [folder_path] is a cancelled dialog. *)
Definition add_folder (glob : bool -> string -> list DirEntry) (recursive : bool)
    (folder_path : string) (s : Sys) : Sys :=
  if Str.truthy folder_path
  then with_files (scan_folder (glob recursive folder_path) (files (world s))) s
  else s.

(** [clear_list] *)
Definition clear_list (s : Sys) : Sys :=
  with_gui
    (set_buttons (start_btn_enabled (gui s)) false
       (set_status_label "Готово" (set_overall_progress 0 (gui s))))
    (with_files [] s).

(** [update_file_list]: the rows of the list widget, each with its text and
    the colour set by [setForeground], if any. *)
Definition row_color (st : string) : option (Z * Z * Z) :=
  if bool_decide (st = "Готово") then Some (0, 150, 0)%Z
  else if bool_decide (st = "В процессе") then Some (0, 100, 200)%Z
  else if String.prefix "Ошибка" st then Some (200, 0, 0)%Z
  else None.

Definition row_of (it : FileItem) : string * option (Z * Z * Z) :=
  (Str.path_name (file_path it) +:+ " - " +:+ status it, row_color (status it)).

Definition update_file_list (l : list FileItem) : list (string * option (Z * Z * Z)) :=
  map row_of l.

(** ** Saving *)

(** [Path(p).stem]: the name without its suffix. *)
Definition path_stem (p : string) : string :=
  match Str.rsplit1 "." (Str.path_name p) with
  | Some (h, t) =>
      if bool_decide (h = "") || bool_decide (t = "") then Str.path_name p else h
  | None => Str.path_name p
  end.

(** Outcome of [open(output_path, 'w')] and [f.write]: on failure the file
    may have been left with some content. *)
Inductive save_outcome :=
| Saved
| SaveFailed (left_content : option string) (msg : string).

(** The files of the directory [Path(save_dir)] with their contents, by
    file name, and the three locals of [save_transcriptions]. *)
Record SaveState := mkSaveState {
  contents : gmap string string;
  saved_count : nat;
  save_error_count : nat;
  error_messages : list string
}.

(** Line 353: [file_item.status == "Готово" and file_item.transcription] *)
Definition to_save (it : FileItem) : bool :=
  bool_decide (status it = "Готово") && Str.truthy (transcription it).

(** Lines 355-356: the name of the output file.  It holds no separator and
    is not empty, so that [Path(save_dir) / name] is the file of this name
    in the directory, however [save_dir] is spelled. *)
Definition output_name (it : FileItem) : string :=
  path_stem (file_path it) +:+ "_transcription.txt".

(** Lines 353-364: one round of the loop; [write_text] stands for opening
    and writing the file of a name in the directory. *)
Definition save_item (write_text : gmap string string -> string -> string -> save_outcome)
    (st : SaveState) (it : FileItem) : SaveState :=
  if to_save it then
    let out := output_name it in
    match write_text (contents st) out (transcription it) with
    | Saved =>
        mkSaveState (<[out := transcription it]> (contents st)) (S (saved_count st))
                    (save_error_count st) (error_messages st)
    | SaveFailed left_content e =>
        mkSaveState
          (match left_content with
           | Some c => <[out := c]> (contents st)
           | None => contents st
           end)
          (saved_count st) (S (save_error_count st))
          (error_messages st ++ ["Ошибка сохранения " +:+ file_path it +:+ ": " +:+ e])
    end
  else st.

(** [save_transcriptions]: nothing at all when the directory dialog is
    cancelled; otherwise the files of the directory after the loop and the
    message box. *)
Definition save_transcriptions
    (write_text : gmap string string -> string -> string -> save_outcome)
    (save_dir : string) (l : list FileItem) (fs : gmap string string)
  : option (SaveState * Dialog) :=
  if Str.truthy save_dir then
    let st := fold_left (save_item write_text) l (mkSaveState fs 0 0 []) in
    Some (st, information "Сохранение завершено"
                ("Сохранено транскрипций: " +:+ pretty (saved_count st) +:+ nl
                 +:+ "Ошибок: " +:+ pretty (save_error_count st)))
  else None.

(** ** The window during a run *)

(** [settled], as a test. *)
Definition settledb (s : Sys) : bool :=
  match runner s with
  | RFinished => (delivered s =? length (emitted (world s)))%nat
  | _ => false
  end.

(** Lines 329-330 *)
Definition done_count (l : list FileItem) : nat :=
  length (filter (fun f => status_done f = true) l).

Definition error_count (l : list FileItem) : nat :=
  length (filter (fun f => status_failed f = true) l).

(** Lines 332-336: the message box of [on_transcription_finished]. *)
Definition completion_dialog (l : list FileItem) : Dialog :=
  information "Транскрипциязавершена"
    ("Транскрипция  завершена!" +:+ nl +:+ nl +:+ "Успешно: " +:+ pretty (done_count l)
     +:+ nl +:+ "Ошибок: " +:+ pretty (error_count l)).

(** The window in a run started from [s0]: the completion signal is the
    last one of the run; the progress bar shows the last percentage
    handled; the buttons stay disabled and no message box appears until the
    completion signal is handled. *)
Definition gui_inv (s0 s : Sys) : Prop :=
  exists new, emitted (world s) = emitted (world s0) ++ new /\
  (length (emitted (world s0)) <= delivered s)%nat /\
  match runner s with
  | RFinished => exists pre, new = pre ++ [finished] /\ finished ∉ pre
  | _ => finished ∉ new
  end /\
  overall_progress (gui s) =
    default 0%Z
      (last (percentages (take (delivered s - length (emitted (world s0))) new))) /\
  if settledb s then
    start_btn_enabled (gui s) = true /\ save_btn_enabled (gui s) = true /\
    status_label (gui s) = "Транскрипция завершена!" /\
    dialogs (gui s) = dialogs (gui s0) ++ [completion_dialog (files (world s))]
  else
    start_btn_enabled (gui s) = false /\ save_btn_enabled (gui s) = false /\
    dialogs (gui s) = dialogs (gui s0).


(** ** The signals of [run] *)

(** The signals that [run] itself emits, among all. *)
Definition run_signals (sgs : list Signal) : list Signal :=
  List.filter (fun sg => negb (is_item_signal sg)) sgs.

(** What [run] emits when the model loads: lines 98 and 100, a percentage
    for each task taken from [as_completed], and the completion signal. *)
Definition loaded_signals (ps : list Z) : list Signal :=
  [progress_update (-1) "Загрузка Whisper..." "Загрузка";
   progress_update (-1) "Модель загружена" "Готово"]
  ++ map file_progress ps.

Definition proto_inv (env : Env) (self : TranscriptionWorker) (E0 : list Signal) (s : Sys)
  : Prop :=
  exists new, emitted (world s) = E0 ++ new /\
    match runner s with
    | RStart => run_signals new = []
    | RLoading => run_signals new = [progress_update (-1) "Загрузка Whisper..." "Загрузка"]
    | RDraining _ _ => run_signals new = loaded_signals (percentages new)
    | RFinished =>
        run_signals new = loaded_signals (percentages new) ++ [finished] \/
        (exists e, load_model env (model_name self) = Raise e) \/
        max_workers self = 0%nat
    | RRaised _ | RIdle => False
    end.


(** * Properties *)

(** ** Strings *)

Module StrFacts.
Import Str.

Lemma rsplit1_None sep s : rsplit1 sep s = None <-> contains sep s = false.
Proof.
  induction s as [|c r IH]; simpl; [tauto|].
  destruct (rsplit1 sep r) as [[h t]|].
  - split; [discriminate|]. intros H. apply orb_false_iff in H as [_ H].
    apply IH in H. discriminate.
  - destruct (Ascii.eqb c sep); simpl; [split; discriminate|].
    split; intros _; [|reflexivity]. apply IH. reflexivity.
Qed.

Lemma rsplit1_app sep h t :
  contains sep t = false -> rsplit1 sep (h +:+ String sep t) = Some (h, t).
Proof.
  intros Ht. induction h as [|c h IH]; simpl.
  - apply rsplit1_None in Ht. rewrite Ht, Ascii.eqb_refl. reflexivity.
  - rewrite IH. reflexivity.
Qed.

Lemma rsplit1_Some sep s h t :
  rsplit1 sep s = Some (h, t) -> s = h +:+ String sep t /\ contains sep t = false.
Proof.
  revert h. induction s as [|c r IH]; simpl; intros h; [discriminate|].
  destruct (rsplit1 sep r) as [[h' t']|] eqn:E.
  - intros [= <- <-]. destruct (IH h' eq_refl) as [-> Hc]. auto.
  - destruct (Ascii.eqb_spec c sep) as [->|]; [|discriminate].
    intros [= <- <-]. split; [reflexivity|]. apply rsplit1_None, E.
Qed.


Lemma contains_append sep s x :
  contains sep (s +:+ x) = contains sep s || contains sep x.
Proof.
  induction s as [|c r IH]; simpl; [reflexivity|].
  rewrite IH, orb_assoc. reflexivity.
Qed.


End StrFacts.


Lemma length_append (a b : string) :
  String.length (a +:+ b) = (String.length a + String.length b)%nat.
Proof. induction a as [|x a IH]; simpl; [reflexivity|]. rewrite IH. reflexivity. Qed.









(** ** The per-item procedure *)

Lemma item_path_emit sg w i : item_path (emit sg w) i = item_path w i.
Proof. reflexivity. Qed.

Lemma item_path_set_disk d w i : item_path (set_disk d w) i = item_path w i.
Proof. reflexivity. Qed.

Lemma item_path_update_item j f w i :
  (forall it, file_path (f it) = file_path it) ->
  item_path (update_item j f w) i = item_path w i.
Proof.
  intros Hf. unfold item_path, update_item. simpl.
  destruct (decide (j = i)) as [->|Hne].
  - rewrite list_lookup_alter_eq. destruct (files w !! i); simpl; auto.
  - rewrite list_lookup_alter_ne by assumption. reflexivity.
Qed.

Lemma item_path_record_success i path text w j :
  item_path (record_success i path text w) j = item_path w j.
Proof.
  unfold record_success. rewrite item_path_emit.
  apply item_path_update_item. reflexivity.
Qed.

Ltac path_simpl :=
  repeat (rewrite item_path_record_success || rewrite item_path_set_disk
          || rewrite item_path_emit).

(** The task cut into steps for the thread pool, run alone from the
    queue, is [transcribe_file]: it settles within five steps, whatever the
    collaborators do, with the world that the function returns. *)
Lemma run_task_transcribe_file env self i w :
  run_task env self i 5 w PQueued = (transcribe_file env self i w, PSettled).
Proof.
  unfold transcribe_file. cbn [run_task task_step].
  destruct (is_video (item_path w i)).
  - cbn [task_step]. path_simpl.
    destruct (extract_audio_from_video env _ (item_path w i)) as [d [t|e]].
    + cbn [task_step]. path_simpl.
      destruct (model_transcribe env _ t (task self) (language_argument self)) as [text|e].
      * cbn [task_step].
        destruct (temp_present (Some t) _) as [t'|]; [|reflexivity].
        destruct (os_remove env _ t'); [reflexivity|].
        cbn [task_step]. path_simpl. reflexivity.
      * cbn [task_step]. path_simpl. reflexivity.
    + cbn [task_step]. path_simpl. reflexivity.
  - cbn [task_step]. path_simpl.
    destruct (model_transcribe env _ _ (task self) (language_argument self)) as [text|e].
    + cbn [task_step temp_present]. reflexivity.
    + cbn [task_step]. path_simpl. reflexivity.
Qed.

(** C1.  A video whose audio is extracted and transcribed ("hello"), and
    whose temporary file cannot be deleted: the exception of [os.remove] on
    line 83 reaches the handler of line 85, so the item ends with the
    failure status and the message of the deletion, next to its transcript,
    and the last status signal is the failure. *)
Theorem C1_delete_failure_replaces_success :
  let w := transcribe_file (Examples.env_remove_denied "hello") Examples.default_worker 0
             Examples.one_video in
  files w = [mkFileItem "talk.mp4" "Ошибка" "hello" "Permission denied"] /\
  emitted w = [progress_update 0 "talk.mp4" "В процессе";
               progress_update 0 "talk.mp4" "Готово";
               progress_update 0 "talk.mp4" "Ошибка: Permission denied"].
Proof. vm_compute. split; reflexivity. Qed.

Lemma item_path_lookup w i it : files w !! i = Some it -> item_path w i = file_path it.
Proof. unfold item_path. intros ->. reflexivity. Qed.

Lemma extract_audio_from_video_Ok env d p d' t :
  extract_audio_from_video env d p = (d', Ok t) ->
  t = temp_audio_path_of p /\ d' = {[t]} ∪ d.
Proof.
  unfold extract_audio_from_video.
  destruct (VideoFileClip env d p); [|discriminate].
  destruct (write_audiofile env d p _); [|discriminate].
  destruct (clip_close env p); [|discriminate].
  intros [= <- <-]. auto.
Qed.

Lemma temp_audio_path_truthy p : Str.truthy (temp_audio_path_of p) = true.
Proof.
  unfold temp_audio_path_of, Str.truthy.
  destruct (hd "" (Str.rsplit "." p)); reflexivity.
Qed.

Lemma files_remove_quietly env temp w : files (remove_quietly env temp w) = files w.
Proof.
  unfold remove_quietly. destruct (temp_present temp w) as [t|]; [|reflexivity].
  destruct (os_remove env (disk w) t); reflexivity.
Qed.

Lemma emitted_remove_quietly env temp w : emitted (remove_quietly env temp w) = emitted w.
Proof.
  unfold remove_quietly. destruct (temp_present temp w) as [t|]; [|reflexivity].
  destruct (os_remove env (disk w) t); reflexivity.
Qed.

Lemma handle_exception_item env i path msg temp w it :
  files w !! i = Some it ->
  files (handle_exception env i path msg temp w) !! i =
    Some (mkFileItem (file_path it) "Ошибка" (transcription it) msg).
Proof.
  intros H. unfold handle_exception, record_failure.
  rewrite files_remove_quietly. cbn [files emit update_item].
  rewrite list_lookup_alter_eq, H. reflexivity.
Qed.

Lemma record_success_item i path text w it :
  files w !! i = Some it ->
  files (record_success i path text w) !! i =
    Some (mkFileItem (file_path it) "Готово" text (error_message it)).
Proof.
  intros H. unfold record_success. cbn [files emit update_item].
  rewrite list_lookup_alter_eq, H. reflexivity.
Qed.

Lemma temp_present_Some t w :
  Str.truthy t = true -> (t ∈ disk w) -> temp_present (Some t) w = Some t.
Proof.
  intros Ht Hin. unfold temp_present, path_exists. rewrite Ht.
  case_bool_decide; [reflexivity|contradiction].
Qed.

(** C3 as stated fails: a video whose audio is extracted, whose
    transcription raises and whose temporary file cannot be deleted settles
    as failed with the temporary file still on disk (the handler swallows
    the exception of [os.remove]). *)
Lemma C3_counterexample :
  let w := transcribe_file Examples.env_engine_and_remove_fail Examples.default_worker 0
             Examples.one_video in
  is_video "talk.mp4" = true /\
  files w = [mkFileItem "talk.mp4" "Ошибка" "" "decode error"] /\
  (temp_audio_path_of "talk.mp4" ∈ disk w).
Proof.
  split; [reflexivity|]. split; [vm_compute; reflexivity|].
  refine (bool_decide_unpack _ _). vm_compute. exact I.
Qed.

(** C3, amended.  For a video item: when the extraction raises, the item
    settles as failed with the message of the extraction; when the
    extraction succeeds and deleting the temporary file does not raise, the
    temporary file is not on disk once the item has settled, whether the
    transcription succeeded or failed. *)
Theorem C3_temp_audio_removed env self i w it :
  files w !! i = Some it ->
  is_video (file_path it) = true ->
  let t := temp_audio_path_of (file_path it) in
  let w' := transcribe_file env self i w in
  (forall e, snd (extract_audio_from_video env (disk w) (file_path it)) = Raise e ->
     exists it', files w' !! i = Some it' /\ is_failed it' /\ error_message it' = e) /\
  (snd (extract_audio_from_video env (disk w) (file_path it)) = Ok t ->
   os_remove env ({[t]} ∪ disk w) t = Ok tt ->
   (t ∉ disk w') /\ exists it', files w' !! i = Some it' /\ (is_done it' \/ is_failed it')).
Proof.
  intros Hi Hv t w'. subst w'. unfold transcribe_file.
  rewrite (item_path_lookup _ _ _ Hi), Hv. cbn [disk emit].
  destruct (extract_audio_from_video env (disk w) (file_path it)) as [d r] eqn:E.
  cbn [snd]. split.
  - intros e ->. eexists. split.
    + apply handle_exception_item. exact Hi.
    + split; reflexivity.
  - intros -> Hrm. apply extract_audio_from_video_Ok in E as [_ ->]. fold t.
    assert (Htr : Str.truthy t = true) by apply temp_audio_path_truthy.
    assert (Hin : t ∈ {[t]} ∪ disk w) by (apply elem_of_union_l, elem_of_singleton; reflexivity).
    assert (Hout : t ∉ ({[t]} ∪ disk w) ∖ {[t]}).
    { intros [_ Hn]%elem_of_difference. apply Hn, elem_of_singleton. reflexivity. }
    destruct (model_transcribe env _ t (task self) (language_argument self)) as [text|e].
    + rewrite temp_present_Some; [|exact Htr|exact Hin].
      cbn [disk record_success emit update_item set_disk]. rewrite Hrm.
      cbn [disk set_disk files]. split; [exact Hout|].
      eexists. split; [apply record_success_item; exact Hi|].
      left. reflexivity.
    + split.
      * unfold handle_exception, remove_quietly.
        rewrite temp_present_Some; [|exact Htr|exact Hin].
        cbn [disk record_failure emit update_item set_disk]. rewrite Hrm.
        cbn [disk set_disk]. exact Hout.
      * eexists. split; [apply handle_exception_item; exact Hi|].
        right. reflexivity.
Qed.

Lemma C3_temp_audio_removed_witness :
  let w' := transcribe_file Examples.env_engine_fails Examples.default_worker 0
              Examples.one_video in
  (temp_audio_path_of "talk.mp4" ∉ disk w') /\
  exists it', files w' !! 0%nat = Some it' /\ (is_done it' \/ is_failed it').
Proof.
  exact (proj2 (C3_temp_audio_removed Examples.env_engine_fails Examples.default_worker 0
                  Examples.one_video (new_FileItem "talk.mp4") eq_refl eq_refl)
               eq_refl eq_refl).
Defined.

(** What the source does not do: a failed extraction that has left a
    partial file never has it deleted, since [temp_audio_path] is only bound
    when the extraction returns. *)
Lemma failed_extraction_leaves_partial_file :
  let w := transcribe_file Examples.env_undecodable Examples.default_worker 0
             Examples.one_video in
  files w = [mkFileItem "talk.mp4" "Ошибка" ""
               "Ошибка извлечения аудио: invalid data found"] /\
  (temp_audio_path_of "talk.mp4" ∈ disk w).
Proof.
  split; [vm_compute; reflexivity|].
  refine (bool_decide_unpack _ _). vm_compute. exact I.
Qed.

(** ** The pool and the worker thread *)

Lemma count_insert f l i x y :
  l !! i = Some x ->
  (count f (<[i:=y]> l) + b2n (f x) = count f l + b2n (f y))%nat.
Proof.
  revert i. induction l as [|a l IH]; intros [|i] H; try discriminate.
  - injection H as ->. cbn. unfold b2n. destruct (f x), (f y); cbn; lia.
  - cbn in H. specialize (IH i H).
    assert (E : count f (<[S i:=y]> (a :: l)) = (b2n (f a) + count f (<[i:=y]> l))%nat)
      by reflexivity.
    rewrite E. cbn [count]. fold (b2n (f a)). lia.
Qed.

Lemma count_le_length f l : (count f l <= length l)%nat.
Proof. induction l as [|a l IH]; cbn; [lia|]. destruct (f a); cbn; lia. Qed.

Lemma count_replicate f n x : count f (replicate n x) = (n * b2n (f x))%nat.
Proof. induction n as [|n IH]; cbn; [reflexivity|]. rewrite IH. unfold b2n. destruct (f x); cbn; lia. Qed.

Lemma task_step_length env self i w p w' p' :
  task_step env self i w p = Some (w', p') ->
  length (files w') = length (files w) /\
  (length (emitted w) <= length (emitted w'))%nat.
Proof.
  destruct p; cbn [task_step]; intros H.
  - injection H as <- <-. cbn. rewrite length_app. split; [reflexivity|lia].
  - destruct (extract_audio_from_video env (disk w) (item_path w i)) as [d r].
    injection H as <- <-. cbn. split; reflexivity || lia.
  - destruct (model_transcribe env _ _ _ _); injection H as <- <-; cbn.
    + rewrite length_alter, length_app. split; [reflexivity|lia].
    + split; reflexivity || lia.
  - destruct (temp_present temp w) as [t|].
    + destruct (os_remove env (disk w) t); injection H as <- <-; cbn; split; reflexivity || lia.
    + injection H as <- <-. split; reflexivity || lia.
  - injection H as <- <-. unfold handle_exception.
    rewrite files_remove_quietly, emitted_remove_quietly. cbn.
    rewrite length_alter, length_app. split; [reflexivity|lia].
  - discriminate.
Qed.

Lemma task_step_pc env self i w p w' p' :
  task_step env self i w p = Some (w', p') ->
  is_settled p = false /\ is_queued p' = false /\
  (is_queued p = false -> is_active p' = false -> is_settled p' = true).
Proof.
  destruct p; cbn [task_step]; intros H.
  - injection H as <- <-. destruct (is_video _); cbn; auto.
  - destruct (extract_audio_from_video env (disk w) (item_path w i)) as [d [t|e]];
      injection H as <- <-; cbn; auto.
  - destruct (model_transcribe env _ _ _ _); injection H as <- <-; cbn; auto.
  - destruct (temp_present temp w) as [t|].
    + destruct (os_remove env (disk w) t); injection H as <- <-; cbn; auto.
    + injection H as <- <-. cbn; auto.
  - injection H as <- <-. cbn; auto.
  - discriminate.
Qed.

Lemma gui_step_shape s s' :
  gui_step s = Some s' ->
  length (files (world s')) = length (files (world s)) /\
  emitted (world s') = emitted (world s) /\
  delivered s' = S (delivered s) /\ (delivered s < length (emitted (world s)))%nat /\
  pool s' = pool s /\ runner s' = runner s /\ worker (gui s') = worker (gui s).
Proof.
  unfold gui_step. destruct (emitted (world s) !! delivered s) as [sg|] eqn:E; [|discriminate].
  intros [= <-]. apply lookup_lt_Some in E.
  destruct sg as [index path st| |]; cbn.
  - unfold on_progress_update. destruct (index =? -1)%Z; cbn; rewrite ?length_alter; auto 10.
  - auto 10.
  - auto 10.
Qed.

Lemma step_shape env self N s s' :
  step env s s' -> shape_inv env self N s -> shape_inv env self N s'.
Proof.
  intros [c Hc] (Hw & Hn & Hd & Ha & Hr). destruct c as [|i|]; cbn [step_fn] in Hc.
  - rewrite Hw in Hc. unfold run_step in Hc.
    destruct (runner s) as [| | |total c|e|] eqn:Er; try discriminate.
    + injection Hc as <-. unfold shape_inv. cbn. rewrite length_app. repeat split; auto; lia.
    + destruct (load_model env (model_name self)) eqn:El.
      * destruct (max_workers self) as [|k] eqn:Ek; injection Hc as <-; unfold shape_inv; cbn;
          rewrite ?length_app; cbn.
        -- rewrite Hr. cbn. repeat split; auto; lia.
        -- rewrite !count_replicate, length_replicate. cbn. repeat split; auto; lia.
      * injection Hc as <-. unfold shape_inv; cbn. rewrite ?length_app; cbn.
        rewrite Hr. cbn. repeat split; eauto; lia.
    + destruct Hr as (-> & Hl & Hc').
      destruct (c <? count is_settled (pool s))%nat eqn:Elt.
      * apply Nat.ltb_lt in Elt.
        destruct (progress_percent _ _); injection Hc as <-; unfold shape_inv; cbn;
          rewrite ?length_app; repeat split; auto; lia.
      * destruct (c =? length (pool s))%nat eqn:Eeq; [|discriminate].
        apply Nat.eqb_eq in Eeq. injection Hc as <-. unfold shape_inv; cbn.
        rewrite ?length_app. pose proof (count_le_length is_settled (pool s)).
        repeat split; auto; lia.
    + destruct (count is_settled (pool s) =? length (pool s))%nat eqn:Eeq; [|discriminate].
      apply Nat.eqb_eq in Eeq. injection Hc as <-. unfold shape_inv; cbn.
      rewrite ?length_app. repeat split; auto; lia.
  - rewrite Hw in Hc. unfold pool_step in Hc.
    destruct (pool s !! i) as [p|] eqn:Ep; [|discriminate].
    destruct (is_queued p && negb (can_start i (pool s) (max_workers self))) eqn:Eq; [discriminate|].
    destruct (task_step env self i (world s) p) as [[w' p']|] eqn:Et; [|discriminate].
    injection Hc as <-.
    destruct (task_step_length _ _ _ _ _ _ _ Et) as [Hl He].
    destruct (task_step_pc _ _ _ _ _ _ _ Et) as (Hs & Hq' & Hact).
    pose proof (count_insert is_active _ _ _ p' Ep) as Hca.
    pose proof (count_insert is_settled _ _ _ p' Ep) as Hcs.
    rewrite Hs in Hcs. cbn [b2n] in Hcs.
    unfold shape_inv; cbn. rewrite length_insert.
    split; [assumption|]. split; [lia|]. split; [lia|]. split.
    + assert (Hap : is_active p = negb (is_queued p))
        by (unfold is_active; rewrite Hs; destruct (is_queued p); reflexivity).
      assert (Hap' : is_active p' = negb (is_settled p'))
        by (unfold is_active; rewrite Hq'; reflexivity).
      rewrite Hap, Hap' in Hca. unfold b2n in Hca.
      destruct (is_queued p) eqn:Eqp.
      * cbn in Eq. apply negb_false_iff in Eq. unfold can_start in Eq.
        apply andb_true_iff in Eq as [_ Eq]. apply Nat.ltb_lt in Eq.
        destruct (is_settled p'); cbn in Hca; lia.
      * destruct (is_settled p'); cbn in Hca; lia.
    + destruct (runner s); auto.
      * rewrite Hr in Ep. discriminate.
      * rewrite Hr in Ep. discriminate.
      * destruct Hr as (-> & Hl' & Hc'). repeat split; auto. lia.
      * pose proof (count_le_length is_settled (pool s)).
        pose proof (count_le_length is_settled (<[i:=p']> (pool s))) as H'.
        rewrite length_insert in H'. destruct Hr as [Hc' [Hl'|[He' _]]].
        -- split; [lia|left; exact Hl'].
        -- rewrite He' in Ep. discriminate.
  - destruct (gui_step_shape _ _ Hc) as (Hl & He & Hd' & Hlt & Hp & Hr' & Hw').
    unfold shape_inv. rewrite Hl, He, Hd', Hp, Hr', Hw'. repeat split; auto.
Qed.

Lemma exec_rtc env cs s : rtc (step env) s (exec env cs s).
Proof.
  revert s. induction cs as [|c cs IH]; intros s; cbn [exec]; [apply rtc_refl|].
  destruct (step_fn env c s) as [s'|] eqn:E; [|apply IH].
  eapply rtc_l; [exists c; exact E|apply IH].
Qed.

Lemma started_shape env self s :
  started self s -> shape_inv env self (length (files (world s))) s.
Proof.
  intros (Hw & Hr & Hp & Hd). unfold shape_inv. rewrite Hr, Hp. cbn.
  repeat split; auto; lia.
Qed.

Lemma rtc_shape env self N s s' :
  rtc (step env) s s' -> shape_inv env self N s -> shape_inv env self N s'.
Proof. induction 1; eauto using step_shape. Qed.

(** ** Exceptions that are not caught: the steps they add *)

Lemma set_disk_same w : set_disk (disk w) w = w.
Proof. destruct w. reflexivity. Qed.

(** A step of a task either is one of [transcribe_file] as line 85 sees it,
    or ends the task there and then. *)
Lemma task_step_esc_cases esc env self i w p w' p' :
  task_step_esc esc env self i w p = Some (w', p') ->
  task_step env self i w p = Some (w', p') \/
  (p' = PSettled /\ is_queued p = false /\ is_settled p = false /\
   exists d, w' = set_disk d w).
Proof.
  destruct p; cbn [task_step_esc]; auto.
  - destruct (extract_escapes esc (disk w) (item_path w i)) as [partial|]; [|auto].
    intros [= <- <-]. right. repeat split. eauto.
  - destruct (transcribe_escapes esc _ _ _ _); [|auto].
    intros [= <- <-]. right. repeat split. exists (disk w). symmetry. apply set_disk_same.
  - destruct (temp_present temp w) as [t|]; [|auto].
    destruct (remove_escapes esc (disk w) t); [|auto].
    intros [= <- <-]. right. repeat split. exists (disk w). symmetry. apply set_disk_same.
Qed.

Lemma step_esc_cases esc env s s' :
  step_esc esc env s s' -> step env s s' \/ escape_step s s'.
Proof.
  intros [c Hc]. destruct c as [|i|]; cbn [step_fn_esc] in Hc.
  - left. exists CRun. exact Hc.
  - destruct (worker (gui s)) as [self|] eqn:Hw; [|discriminate].
    unfold pool_step_esc in Hc.
    destruct (pool s !! i) as [p|] eqn:Ep; [|discriminate].
    destruct (is_queued p && negb (can_start i (pool s) (max_workers self))) eqn:Eq;
      [discriminate|].
    destruct (task_step_esc esc env self i (world s) p) as [[w' p']|] eqn:Et; [|discriminate].
    injection Hc as <-.
    destruct (task_step_esc_cases _ _ _ _ _ _ _ _ Et) as [H|(-> & Hq & Hs & d & ->)].
    + left. exists (CTask i). cbn [step_fn]. rewrite Hw. unfold pool_step.
      rewrite Ep, Eq, H. reflexivity.
    + right. exists i, p, d. auto.
  - left. exists CGui. exact Hc.
Qed.

(** Whenever a choice is enabled for the code as line 85 sees it, it is
    enabled when exceptions may leave, and the other way round. *)
Lemma step_fn_esc_enabled esc env c s :
  is_Some (step_fn env c s) -> is_Some (step_fn_esc esc env c s).
Proof.
  destruct c as [|i|]; cbn [step_fn_esc step_fn]; auto.
  destruct (worker (gui s)) as [self|]; [|auto].
  unfold pool_step, pool_step_esc. destruct (pool s !! i) as [p|]; [|auto].
  destruct (is_queued p && negb (can_start i (pool s) (max_workers self))); [auto|].
  intros H.
  assert (Ht : is_Some (task_step env self i (world s) p)).
  { destruct (task_step env self i (world s) p) as [[w' p']|]; [eauto|].
    destruct H as [x H]. discriminate H. }
  assert (He : is_Some (task_step_esc esc env self i (world s) p)).
  { destruct p; cbn [task_step_esc]; auto.
    - destruct (extract_escapes esc _ _); eauto.
    - destruct (transcribe_escapes esc _ _ _ _); eauto.
    - destruct (temp_present temp (world s)); [|auto].
      destruct (remove_escapes esc _ _); eauto. }
  destruct He as [[w' p'] He]. rewrite He. eauto.
Qed.

Lemma escape_shape env self N s s' :
  escape_step s s' -> shape_inv env self N s -> shape_inv env self N s'.
Proof.
  intros (i & p & d & Ep & Hq & Hs & ->) (Hw & Hn & Hd & Ha & Hr).
  pose proof (count_insert is_active _ _ _ PSettled Ep) as Hca.
  pose proof (count_insert is_settled _ _ _ PSettled Ep) as Hcs.
  assert (Hap : is_active p = true) by (unfold is_active; rewrite Hq, Hs; reflexivity).
  rewrite Hs in Hcs. rewrite Hap in Hca.
  change (is_active PSettled) with false in Hca. cbn [b2n is_settled] in Hca, Hcs.
  unfold shape_inv. cbn. rewrite length_insert.
  split; [assumption|]. split; [assumption|]. split; [assumption|]. split; [lia|].
  destruct (runner s); auto.
  - rewrite Hr in Ep. discriminate.
  - rewrite Hr in Ep. discriminate.
  - destruct Hr as (-> & Hl & Hc). repeat split; auto. lia.
  - pose proof (count_le_length is_settled (<[i:=PSettled]> (pool s))) as H'.
    rewrite length_insert in H'. destruct Hr as [Hc [Hl|[He _]]].
    + split; [lia|left; exact Hl].
    + rewrite He in Ep. discriminate.
Qed.

Lemma step_esc_shape esc env self N s s' :
  step_esc esc env s s' -> shape_inv env self N s -> shape_inv env self N s'.
Proof.
  intros H. destruct (step_esc_cases _ _ _ _ H); [apply step_shape|apply escape_shape];
    assumption.
Qed.

Lemma rtc_esc_shape esc env self N s s' :
  rtc (step_esc esc env) s s' -> shape_inv env self N s -> shape_inv env self N s'.
Proof. induction 1; eauto using step_esc_shape. Qed.

Lemma exec_esc_rtc esc env cs s : rtc (step_esc esc env) s (exec_esc esc env cs s).
Proof.
  revert s. induction cs as [|c cs IH]; intros s; cbn [exec_esc]; [apply rtc_refl|].
  destruct (step_fn_esc esc env c s) as [s'|] eqn:E; [|apply IH].
  eapply rtc_l; [exists c; exact E|apply IH].
Qed.




Lemma start_transcription_started s :
  ready s ->
  started (mkWorker (model_combo (gui s))
             (if bool_decide (language_combo (gui s) = "auto") then None
              else Some (language_combo (gui s)))
             (if translate_checkbox (gui s) then "translate" else "transcribe") 2)
          (start_transcription s).
Proof.
  intros (Hf & Hr & Hd). unfold start_transcription.
  destruct (files (world s)) as [|it l]; [congruence|].
  rewrite Hr, andb_false_r. unfold started. cbn. repeat split. lia.
Qed.

Lemma count_mono (f g : pc -> bool) l :
  (forall p, f p = true -> g p = true) -> (count f l <= count g l)%nat.
Proof.
  intros H. induction l as [|a l IH]; cbn; [lia|].
  specialize (H a). destruct (f a), (g a); cbn; try lia.
  all: try (discriminate H; reflexivity).
Qed.

(** C4 as stated fails: with two audio files the two tasks of the pool are
    inside [self.model.transcribe] at the same time. *)
Lemma C4_counterexample :
  rtc (step (Examples.env_ok "text")) Scenarios.two_audio Scenarios.both_in_engine /\
  pool Scenarios.both_in_engine = [PInEngine "a.mp3" None; PInEngine "b.mp3" None] /\
  count in_engine (pool Scenarios.both_in_engine) = 2%nat.
Proof. split; [apply exec_rtc|split; vm_compute; reflexivity]. Qed.

(** C4, amended.  In every state of a run the number of tasks inside the
    engine is at most the number of tasks the pool executes, which is at
    most [max_workers]: the calls are serialized when the pool has one
    thread, and up to [max_workers] of them overlap otherwise. *)
Theorem C4_engine_calls_bounded env self s0 s :
  started self s0 ->
  rtc (step env) s0 s ->
  (count in_engine (pool s) <= count is_active (pool s))%nat /\
  (count is_active (pool s) <= max_workers self)%nat.
Proof.
  intros H0 Hs. split.
  - apply count_mono. intros [] ?; try discriminate; reflexivity.
  - eapply rtc_shape in Hs; [|apply started_shape, H0].
    destruct Hs as (_ & _ & _ & Ha & _). exact Ha.
Qed.

Lemma C4_engine_calls_bounded_witness :
  (count in_engine [PInEngine "a.mp3" None; PInEngine "b.mp3" None]
   <= count is_active [PInEngine "a.mp3" None; PInEngine "b.mp3" None])%nat /\
  (count is_active [PInEngine "a.mp3" None; PInEngine "b.mp3" None] <= 2)%nat.
Proof.
  apply (C4_engine_calls_bounded (Examples.env_ok "text") Examples.default_worker
           Scenarios.two_audio Scenarios.both_in_engine).
  - apply (start_transcription_started (initial ["a.mp3"; "b.mp3"] ∅)).
    repeat split. discriminate.
  - apply exec_rtc.
Defined.

(** C8.  While the worker thread of a previous run is running,
    [start_transcription] only shows a warning: the items, the disk, the
    signals, the pool, the worker thread and the worker object are the same
    after the call, and the warning names the run in progress when the
    worklist is not empty. *)
Theorem C8_start_rejected_while_running s :
  is_Some (worker (gui s)) ->
  isRunning s = true ->
  let s' := start_transcription s in
  world s' = world s /\ delivered s' = delivered s /\ pool s' = pool s /\
  runner s' = runner s /\ worker (gui s') = worker (gui s) /\
  (exists title text, gui s' = show (warning title text) (gui s)) /\
  (files (world s) <> [] ->
   gui s' = show (warning "В процессе" "Транскрипция уже выполняется.") (gui s)).
Proof.
  intros Hw Hr. unfold start_transcription.
  destruct (files (world s)) as [|it l] eqn:Ef.
  - cbn. repeat split; eauto. congruence.
  - rewrite Hr. rewrite bool_decide_eq_true_2 by assumption. cbn.
    repeat split; eauto.
Qed.

Lemma C8_start_rejected_while_running_witness :
  let s := Scenarios.loading in
  let s' := start_transcription s in
  world s' = world s /\ delivered s' = delivered s /\ pool s' = pool s /\
  runner s' = runner s /\ worker (gui s') = worker (gui s) /\
  (exists title text, gui s' = show (warning title text) (gui s)) /\
  (files (world s) <> [] ->
   gui s' = show (warning "В процессе" "Транскрипция уже выполняется.") (gui s)).
Proof.
  apply (C8_start_rejected_while_running Scenarios.loading);
    [eexists; reflexivity|reflexivity].
Defined.

(** ** What the items hold and will show *)

Lemma eventual_status_ev_of i s : eventual_status i s = ev_of i (delivered s) (world s).
Proof. reflexivity. Qed.

Lemma for_item_self i : for_item i (Z.of_nat i) = true.
Proof.
  unfold for_item. rewrite Nat2Z.id, Nat.eqb_refl.
  destruct (Z.eqb_spec (Z.of_nat i) (-1)); [lia|reflexivity].
Qed.

Lemma for_item_other i j : i <> j -> for_item j (Z.of_nat i) = false.
Proof.
  intros H. unfold for_item. rewrite Nat2Z.id.
  destruct (Nat.eqb_spec i j); [contradiction|]. apply andb_false_r.
Qed.

Lemma replay_app i st l sg :
  replay i st (l ++ [sg]) =
  match sg with
  | progress_update index _ st' =>
      if for_item i index then st' else replay i st l
  | _ => replay i st l
  end.
Proof.
  revert st. induction l as [|a l IH]; intros st; cbn.
  - destruct sg as [index path st'| |]; reflexivity.
  - destruct a as [index path st'| |]; try apply IH.
    destruct (negb (index =? -1)%Z && (Z.to_nat index =? i)%nat); apply IH.
Qed.

Lemma ev_of_emit i d w sg :
  (d <= length (emitted w))%nat ->
  ev_of i d (emit sg w) =
  match sg with
  | progress_update index _ st' => if for_item i index then st' else ev_of i d w
  | _ => ev_of i d w
  end.
Proof.
  intros Hd. unfold ev_of. cbn [emit files emitted].
  rewrite drop_app_le by assumption. apply replay_app.
Qed.

Lemma ev_of_update_other i j f d w :
  i <> j -> ev_of j d (update_item i f w) = ev_of j d w.
Proof.
  intros H. unfold ev_of, update_item. cbn.
  rewrite list_lookup_alter_ne by assumption. reflexivity.
Qed.

Lemma ev_of_ext i d w w' :
  files w' !! i = files w !! i -> emitted w' = emitted w -> ev_of i d w' = ev_of i d w.
Proof. unfold ev_of. intros -> ->. reflexivity. Qed.

Lemma ev_of_record_success_self i d path text w :
  (d <= length (emitted w))%nat ->
  ev_of i d (record_success i path text w) = "Готово".
Proof.
  intros Hd. unfold record_success. rewrite ev_of_emit by exact Hd.
  rewrite for_item_self. reflexivity.
Qed.

Lemma ev_of_record_success_other i j d path text w :
  i <> j -> (d <= length (emitted w))%nat ->
  ev_of j d (record_success i path text w) = ev_of j d w.
Proof.
  intros H Hd. unfold record_success. rewrite ev_of_emit by exact Hd.
  rewrite for_item_other by assumption. apply ev_of_update_other, H.
Qed.

Lemma ev_of_handle_exception_self env i d path msg temp w :
  (d <= length (emitted w))%nat ->
  ev_of i d (handle_exception env i path msg temp w) = "Ошибка: " +:+ msg.
Proof.
  intros Hd. unfold handle_exception.
  rewrite (ev_of_ext _ _ (record_failure i path msg w));
    [|rewrite files_remove_quietly; reflexivity|apply emitted_remove_quietly].
  unfold record_failure. rewrite ev_of_emit by exact Hd.
  rewrite for_item_self. reflexivity.
Qed.

Lemma ev_of_handle_exception_other env i j d path msg temp w :
  i <> j -> (d <= length (emitted w))%nat ->
  ev_of j d (handle_exception env i path msg temp w) = ev_of j d w.
Proof.
  intros H Hd. unfold handle_exception.
  rewrite (ev_of_ext _ _ (record_failure i path msg w));
    [|rewrite files_remove_quietly; reflexivity|apply emitted_remove_quietly].
  unfold record_failure. rewrite ev_of_emit by exact Hd.
  rewrite for_item_other by assumption. apply ev_of_update_other, H.
Qed.

Lemma files_handle_exception_other env i j path msg temp w :
  i <> j -> files (handle_exception env i path msg temp w) !! j = files w !! j.
Proof.
  intros H. unfold handle_exception, record_failure. rewrite files_remove_quietly.
  cbn. apply list_lookup_alter_ne, H.
Qed.

Lemma files_record_success_other i j path text w :
  i <> j -> files (record_success i path text w) !! j = files w !! j.
Proof. intros H. cbn. apply list_lookup_alter_ne, H. Qed.

(** A step of task [i] leaves the other items and what they will show. *)
Lemma task_step_other env self i w p w' p' j d :
  task_step env self i w p = Some (w', p') ->
  i <> j -> (d <= length (emitted w))%nat ->
  files w' !! j = files w !! j /\ ev_of j d w' = ev_of j d w.
Proof.
  intros H Hne Hd. destruct p; cbn [task_step] in H.
  - injection H as <- <-. split; [reflexivity|].
    rewrite ev_of_emit by exact Hd. rewrite for_item_other by assumption. reflexivity.
  - destruct (extract_audio_from_video env (disk w) (item_path w i)) as [d' r].
    injection H as <- <-. split; reflexivity.
  - destruct (model_transcribe env _ _ _ _); injection H as <- <-.
    + split; [apply files_record_success_other, Hne|].
      apply ev_of_record_success_other; assumption.
    + split; reflexivity.
  - destruct (temp_present temp w) as [t|].
    + destruct (os_remove env (disk w) t); injection H as <- <-; split; reflexivity.
    + injection H as <- <-. split; reflexivity.
  - injection H as <- <-. split; [apply files_handle_exception_other, Hne|].
    apply ev_of_handle_exception_other; assumption.
  - discriminate.
Qed.

Lemma temp_present_temp_of path w t :
  temp_present (temp_of path) w = Some t ->
  is_video path = true /\ t = temp_audio_path_of path /\ t ∈ disk w.
Proof.
  unfold temp_of, temp_present. destruct (is_video path); [|discriminate].
  destruct (Str.truthy _ && path_exists w _) eqn:E; [|discriminate].
  intros [= <-]. apply andb_true_iff in E as [_ E].
  unfold path_exists in E. apply bool_decide_eq_true in E. auto.
Qed.

Lemma task_step_esc_other esc env self i w p w' p' j d :
  task_step_esc esc env self i w p = Some (w', p') ->
  i <> j -> (d <= length (emitted w))%nat ->
  files w' !! j = files w !! j /\ ev_of j d w' = ev_of j d w.
Proof.
  intros H Hne Hd.
  destruct (task_step_esc_cases _ _ _ _ _ _ _ _ H) as [Ht|(_ & _ & _ & d' & ->)].
  - eapply task_step_other; eassumption.
  - split; reflexivity.
Qed.

Lemma task_step_esc_length esc env self i w p w' p' :
  task_step_esc esc env self i w p = Some (w', p') ->
  length (files w') = length (files w) /\
  (length (emitted w) <= length (emitted w'))%nat.
Proof.
  intros H.
  destruct (task_step_esc_cases _ _ _ _ _ _ _ _ H) as [Ht|(_ & _ & _ & d' & ->)].
  - eapply task_step_length; eassumption.
  - split; [reflexivity|cbn; lia].
Qed.

(** A step of task [i] keeps the invariant of item [i]; the state in which
    the step is taken is the one in which the call is made. *)
Lemma task_step_self esc env start self i s p w' p' it :
  rtc (step_esc esc env) start s -> worker (gui s) = Some self ->
  pool s !! i = Some p ->
  task_step_esc esc env self i (world s) p = Some (w', p') ->
  files (world s) !! i = Some it -> (delivered s <= length (emitted (world s)))%nat ->
  task_inv esc env start i p it (ev_of i (delivered s) (world s)) ->
  exists it', files w' !! i = Some it' /\
    task_inv esc env start i p' it' (ev_of i (delivered s) w').
Proof.
  intros Hreach Hself Hp H Hi Hd Hinv.
  pose proof (item_path_lookup _ _ _ Hi) as Hpath.
  destruct p; cbn [task_step_esc task_step] in H; cbn [task_inv] in Hinv;
    rewrite ?Hpath in H.
  - injection H as <- <-. exists it. split; [exact Hi|].
    assert (Hev : ev_of i (delivered s)
                    (emit (progress_update (Z.of_nat i) (file_path it) "В процессе") (world s))
                  = "В процессе").
    { rewrite ev_of_emit by exact Hd. rewrite for_item_self. reflexivity. }
    destruct (is_video (file_path it)) eqn:Ev; cbn [task_inv];
      unfold audio_of, temp_of; rewrite ?Ev; auto.
  - destruct Hinv as (Hfe & Hev & Hv).
    assert (Hev' : forall d'', ev_of i (delivered s) (set_disk d'' (world s)) = "В процессе")
      by (intros; exact Hev).
    destruct (extract_escapes esc (disk (world s)) (file_path it)) as [partial|] eqn:Ee.
    { injection H as <- <-. exists it. split; [exact Hi|]. cbn [task_inv].
      right. right. split; [apply Hev'|]. split; [exact Hfe|].
      intros (H1 & _). rewrite H1 in Ee. discriminate. }
    destruct (extract_audio_from_video env (disk (world s)) (file_path it))
      as [d' [t|e]] eqn:E;
      injection H as <- <-; exists it; (split; [exact Hi|]); cbn [task_inv].
    + apply extract_audio_from_video_Ok in E as [-> _].
      unfold audio_of, temp_of. rewrite Hv. auto.
    + split; [apply Hfe|]. left. split; [apply Hfe|]. right. exists s.
      rewrite E. auto 10.
  - destruct Hinv as (Hfe & Hev & -> & ->).
    destruct (transcribe_escapes esc _ _ _ _) eqn:Ee.
    { injection H as <- <-. exists it. split; [exact Hi|]. cbn [task_inv].
      right. right. split; [exact Hev|]. split; [exact Hfe|].
      intros (_ & H2 & _). rewrite H2 in Ee. discriminate. }
    destruct (model_transcribe env _ _ _ _) as [text|e] eqn:E; injection H as <- <-.
    + eexists. split; [apply record_success_item; exact Hi|].
      cbn [task_inv file_path transcription error_message].
      rewrite ev_of_record_success_self by exact Hd.
      split; [apply Hfe|]. split; [reflexivity|]. split; [|reflexivity].
      exists s, self. auto 10.
    + exists it. split; [exact Hi|]. cbn [task_inv].
      split; [apply Hfe|]. left. split; [apply Hfe|]. left. exists s, self. auto 10.
  - destruct Hinv as (He & Hev & Htx & ->).
    assert (Hev' : forall d'', ev_of i (delivered s) (set_disk d'' (world s)) = "Готово")
      by (intros; exact Hev).
    destruct (temp_present _ (world s)) as [t|] eqn:Et.
    + apply temp_present_temp_of in Et as (Hv & -> & Hin).
      destruct (remove_escapes esc _ _) eqn:Ee.
      { injection H as <- <-. exists it. split; [exact Hi|]. cbn [task_inv]. left. auto. }
      destruct (os_remove env (disk (world s)) _) as [u|e] eqn:E; injection H as <- <-;
        exists it; (split; [exact Hi|]); cbn [task_inv].
      * left. auto.
      * split; [exact He|]. right. split; [exact Htx|]. exists s. auto 10.
    + injection H as <- <-. exists it. split; [exact Hi|]. cbn [task_inv]. left. auto.
  - injection H as <- <-. destruct Hinv as (He & Hc).
    eexists. split; [apply handle_exception_item; exact Hi|].
    cbn [task_inv file_path transcription error_message].
    rewrite ev_of_handle_exception_self by exact Hd. right. left.
    split; [reflexivity|exact Hc].
  - discriminate.
Qed.

Lemma task_inv_fields esc env start i p it it' ev :
  file_path it' = file_path it ->
  transcription it' = transcription it -> error_message it' = error_message it ->
  task_inv esc env start i p it ev -> task_inv esc env start i p it' ev.
Proof.
  intros Hp Ht He. unfold task_inv, fields_empty. rewrite Hp, Ht, He. auto.
Qed.

(** Handling a signal changes the status of one item at most, and never what
    an item will show. *)
Lemma gui_step_item s s' i it' :
  gui_step s = Some s' ->
  files (world s') !! i = Some it' ->
  exists it, files (world s) !! i = Some it /\
    file_path it' = file_path it /\
    transcription it' = transcription it /\ error_message it' = error_message it /\
    ev_of i (delivered s') (world s') = ev_of i (delivered s) (world s).
Proof.
  unfold gui_step. destruct (emitted (world s) !! delivered s) as [sg|] eqn:E; [|discriminate].
  intros [= <-] Hi.
  assert (Hdrop : drop (delivered s) (emitted (world s)) =
                  sg :: drop (S (delivered s)) (emitted (world s))).
  { apply drop_S. exact E. }
  destruct sg as [index path st| |];
    cbn [handle_signal on_file_progress on_transcription_finished with_gui world delivered]
      in Hi |- *.
  - unfold on_progress_update in *. unfold ev_of. rewrite Hdrop. cbn [replay].
    fold (for_item i index). unfold for_item.
    destruct (index =? -1)%Z eqn:Ei;
      cbn [with_gui with_world world delivered update_item files emitted negb andb] in Hi |- *.
    + exists it'. auto.
    + destruct (Nat.eqb_spec (Z.to_nat index) i) as [Heq|Hne].
      * rewrite Heq in Hi |- *. rewrite list_lookup_alter_eq in Hi |- *.
        destruct (files (world s) !! i) as [it|]; [|discriminate].
        injection Hi as <-. exists it. cbn. auto.
      * rewrite list_lookup_alter_ne in Hi |- * by assumption. exists it'. auto.
  - exists it'. unfold ev_of. rewrite Hdrop. cbn. auto.
  - exists it'. unfold ev_of. rewrite Hdrop. cbn. auto.
Qed.

Ltac sys_simpl :=
  cbn [with_runner with_world with_pool with_gui world delivered pool runner gui] in *.

Lemma ev_of_run_exception i d e w :
  (d <= length (emitted w))%nat -> ev_of i d (run_exception e w) = ev_of i d w.
Proof.
  intros Hd. unfold run_exception.
  rewrite ev_of_emit by (cbn; rewrite length_app; lia).
  rewrite ev_of_emit by exact Hd. reflexivity.
Qed.

(** A step of [run] touches no item and emits no signal about an item. *)
Lemma run_step_items env self s s' :
  run_step env self s = Some s' ->
  (delivered s <= length (emitted (world s)))%nat ->
  files (world s') = files (world s) /\ delivered s' = delivered s /\
  (forall i, ev_of i (delivered s') (world s') = ev_of i (delivered s) (world s)) /\
  (pool s' = pool s \/
   runner s = RLoading /\ pool s' = replicate (length (files (world s))) PQueued).
Proof.
  intros H Hd. unfold run_step in H.
  destruct (runner s) as [| | |total c|e|] eqn:Er; try discriminate.
  - injection H as <-. sys_simpl. repeat split; auto.
    intros i. rewrite ev_of_emit by exact Hd. reflexivity.
  - destruct (load_model env (model_name self)).
    + destruct (max_workers self); injection H as <-; sys_simpl; repeat split; auto.
      * intros i. rewrite ev_of_run_exception by (cbn; rewrite length_app; lia).
        rewrite ev_of_emit by exact Hd. reflexivity.
      * intros i. rewrite ev_of_emit by exact Hd. reflexivity.
    + injection H as <-. sys_simpl. repeat split; auto.
      intros i. apply ev_of_run_exception, Hd.
  - destruct (c <? count is_settled (pool s))%nat.
    + destruct (progress_percent _ _); injection H as <-; sys_simpl; repeat split; auto.
      intros i. rewrite ev_of_emit by exact Hd. reflexivity.
    + destruct (c =? length (pool s))%nat; [|discriminate].
      injection H as <-. sys_simpl. repeat split; auto.
      intros i. rewrite ev_of_emit by exact Hd. reflexivity.
  - destruct (count is_settled (pool s) =? length (pool s))%nat; [|discriminate].
    injection H as <-. sys_simpl. repeat split; auto.
    intros i. apply ev_of_run_exception, Hd.
Qed.

Lemma step_items esc env start self N s s' :
  rtc (step_esc esc env) start s ->
  step_esc esc env s s' -> shape_inv env self N s -> items_inv esc env start s ->
  items_inv esc env start s'.
Proof.
  intros Hreach [c Hc] (Hw & Hn & Hd & Ha & Hr) [Hf Hinv].
  destruct c as [|i|]; cbn [step_fn_esc step_fn] in Hc.
  - rewrite Hw in Hc.
    destruct (run_step_items _ _ _ _ Hc Hd) as (Hfl & Hdl & Hev & Hp).
    destruct Hp as [Hp|[Hload Hp]].
    + split.
      * rewrite Hp, Hfl. intros He i it Hi. rewrite Hev. apply Hf; assumption.
      * rewrite Hp, Hfl. intros i p it Hpi Hi. rewrite Hev. apply Hinv; assumption.
    + rewrite Hload in Hr. split.
      * rewrite Hfl. intros _ i it Hi. rewrite Hev. apply Hf; assumption.
      * rewrite Hp, Hfl. intros i p it Hpi Hi.
        apply lookup_replicate in Hpi as [-> _]. cbn [task_inv].
        apply (Hf Hr i it Hi).
  - rewrite Hw in Hc. unfold pool_step_esc in Hc.
    destruct (pool s !! i) as [p|] eqn:Ep; [|discriminate].
    destruct (is_queued p && negb (can_start i (pool s) (max_workers self))); [discriminate|].
    destruct (task_step_esc esc env self i (world s) p) as [[w' p']|] eqn:Et; [|discriminate].
    injection Hc as <-.
    assert (Hlt : (i < length (pool s))%nat) by (eapply lookup_lt_Some; exact Ep).
    split.
    { sys_simpl. intros He. apply (f_equal length) in He.
      rewrite length_insert in He. cbn in He. lia. }
    sys_simpl. intros j pj itj Hpj Hj.
    destruct (decide (i = j)) as [<-|Hne].
    + rewrite list_lookup_insert_eq in Hpj by exact Hlt. injection Hpj as <-.
      assert (is_Some (files (world s) !! i)) as [it Hi].
      { apply lookup_lt_is_Some. destruct (task_step_esc_length _ _ _ _ _ _ _ _ Et) as [<- _].
        eapply lookup_lt_Some. exact Hj. }
      destruct (task_step_self esc env start self i s p w' p' it Hreach Hw Ep Et Hi Hd
                  (Hinv _ _ _ Ep Hi)) as (it' & Hi' & Hinv').
      rewrite Hi' in Hj. injection Hj as <-. exact Hinv'.
    + rewrite list_lookup_insert_ne in Hpj by assumption.
      destruct (task_step_esc_other _ _ _ _ _ _ _ _ j (delivered s) Et Hne Hd) as [Hfj Hev].
      rewrite Hfj in Hj. rewrite Hev. apply Hinv; assumption.
  - pose proof (gui_step_shape _ _ Hc) as (Hl & He & Hd' & Hlt & Hp & Hr' & Hw').
    split.
    + rewrite Hp. intros Hnil i it' Hi.
      destruct (gui_step_item _ _ _ _ Hc Hi) as (it & Hit & _ & Ht & Hem & Hev).
      rewrite Hev. destruct (Hf Hnil i it Hit) as [[Hft Hfe] Hfv].
      unfold fields_empty. rewrite Ht, Hem. auto.
    + intros i p it' Hpi Hi. rewrite Hp in Hpi.
      destruct (gui_step_item _ _ _ _ Hc Hi) as (it & Hit & Hpth & Ht & Hem & Hev).
      rewrite Hev. eapply task_inv_fields; [exact Hpth|exact Ht|exact Hem|].
      apply Hinv; assumption.
Qed.

Lemma rtc_items esc env start self N s s' :
  rtc (step_esc esc env) start s -> rtc (step_esc esc env) s s' ->
  shape_inv env self N s -> items_inv esc env start s -> items_inv esc env start s'.
Proof.
  intros Hreach H. revert Hreach. induction H as [|s1 s2 s3 H12 H23 IH]; [auto|].
  intros Hreach Hs Hi.
  apply IH; [eapply rtc_r; eassumption|eapply step_esc_shape; eauto|eapply step_items; eauto].
Qed.

Lemma ev_of_no_pending i w it :
  files w !! i = Some it -> ev_of i (length (emitted w)) w = status it.
Proof. intros H. unfold ev_of. rewrite H, drop_all. reflexivity. Qed.

Lemma start_transcription_items esc env start s :
  ready s -> items_inv esc env start (start_transcription s).
Proof.
  intros (Hf & Hr & Hd). unfold start_transcription.
  destruct (files (world s)) as [|it0 l] eqn:Ef; [congruence|].
  rewrite Hr, andb_false_r. split; sys_simpl.
  - intros _ i it Hi. rewrite Hd.
    change (length (emitted (world s))) with
      (length (emitted (mkWorld (map reset_item (it0 :: l)) (disk (world s)) (emitted (world s))))).
    rewrite (ev_of_no_pending _ _ _ Hi). cbn [files] in Hi.
    rewrite list_lookup_fmap in Hi.
    destruct ((it0 :: l) !! i) as [x|]; [|discriminate]. injection Hi as <-.
    repeat split.
  - intros i p it Hp. discriminate.
Qed.

(** ** Transcript and error message *)

Lemma count_all f l i p :
  count f l = length l -> l !! i = Some p -> f p = true.
Proof.
  revert i. induction l as [|a l IH]; intros i Hc Hi; [discriminate|].
  cbn in Hc. pose proof (count_le_length f l).
  destruct (f a) eqn:Ea; cbn in Hc; [|lia].
  destruct i as [|i]; cbn in Hi.
  - injection Hi as <-. exact Ea.
  - apply (IH i); [lia|exact Hi].
Qed.

Lemma shape_pool env self N s :
  shape_inv env self N s -> pool s = [] \/ length (pool s) = N.
Proof.
  intros (_ & _ & _ & _ & Hr). destruct (runner s); tauto.
Qed.

(** The invariants from a run started by [start_transcription]. *)
Lemma run_invariants env s0 s :
  ready s0 -> rtc (step env) (start_transcription s0) s ->
  exists self,
    max_workers self = 2%nat /\ model_name self = model_combo (gui s0) /\
    shape_inv env self (length (files (world s0))) s.
Proof.
  intros Hr Hs. eexists. split; [|split].
  3:{ eapply rtc_shape; [exact Hs|].
      replace (length (files (world s0))) with
        (length (files (world (start_transcription s0)))).
      - apply started_shape, start_transcription_started, Hr.
      - destruct Hr as (Hf & Hrun & Hd). unfold start_transcription.
        destruct (files (world s0)) as [|it0 l]; [congruence|].
        rewrite Hrun, andb_false_r. cbn. rewrite length_map. reflexivity. }
  all: reflexivity.
Qed.

(** The same, and what the items hold, when exceptions may leave the
    tasks. *)
Lemma run_invariants_esc esc env s0 s :
  ready s0 -> rtc (step_esc esc env) (start_transcription s0) s ->
  exists self,
    max_workers self = 2%nat /\ model_name self = model_combo (gui s0) /\
    shape_inv env self (length (files (world s0))) s /\
    items_inv esc env (start_transcription s0) s.
Proof.
  intros Hr Hs.
  destruct (run_invariants env s0 _ Hr (rtc_refl _ _)) as (self & Hk & Hm & Hsh).
  exists self. split; [exact Hk|]. split; [exact Hm|]. split.
  - eapply rtc_esc_shape; eassumption.
  - eapply rtc_items; [apply rtc_refl|exact Hs|exact Hsh|apply start_transcription_items, Hr].
Qed.

Lemma settled_item esc env start self N s i it :
  shape_inv env self N s -> items_inv esc env start s -> settled s ->
  files (world s) !! i = Some it ->
  (pool s = [] /\ fields_empty it /\ status it = "Ожидание") \/
  (length (pool s) = N /\ task_inv esc env start i PSettled it (status it)).
Proof.
  intros Hsh [Hf Hinv] [Hrun Hd] Hi.
  pose proof (ev_of_no_pending _ _ _ Hi) as Hev. rewrite <- Hd in Hev.
  destruct (shape_pool _ _ _ _ Hsh) as [Hnil|Hlen].
  - left. destruct (Hf Hnil i it Hi) as [Hfe Hst]. rewrite Hev in Hst. auto.
  - right. split; [exact Hlen|].
    destruct Hsh as (_ & Hn & _ & _ & Hr). rewrite Hrun in Hr. destruct Hr as [Hall _].
    assert (is_Some (pool s !! i)) as [p Hp].
    { apply lookup_lt_is_Some. rewrite Hlen, <- Hn. eapply lookup_lt_Some. exact Hi. }
    pose proof (count_all _ _ _ _ Hall Hp) as Hps. destruct p; try discriminate.
    rewrite <- Hev. apply Hinv; assumption.
Qed.

Lemma one_audio_run_reachable text :
  rtc (step (Examples.env_ok text)) Scenarios.one_audio_start (Scenarios.one_audio_run text).
Proof. unfold Scenarios.one_audio_run. apply exec_rtc. Qed.



Lemma initial_ready paths d : paths <> [] -> ready (initial paths d).
Proof.
  intros H. repeat split. cbn. destruct paths; [congruence|discriminate].
Qed.

Lemma never_escapes_none :
  never_escapes (mkEscapes (fun _ _ => None) (fun _ _ _ _ => false) (fun _ _ => false)).
Proof. repeat split. Qed.


(** ** Termination *)

Lemma pool_fuel_insert l i p p' :
  l !! i = Some p ->
  (pool_fuel (<[i:=p']> l) + pc_fuel p = pool_fuel l + pc_fuel p')%nat.
Proof.
  revert i. induction l as [|a l IH]; intros [|i] H; try discriminate.
  - injection H as ->. cbn. lia.
  - cbn in H. specialize (IH i H).
    assert (E : pool_fuel (<[S i:=p']> (a :: l)) = (pc_fuel a + pool_fuel (<[i:=p']> l))%nat)
      by reflexivity.
    rewrite E. cbn [pool_fuel]. lia.
Qed.

Lemma pool_fuel_replicate n : pool_fuel (replicate n PQueued) = (5 * n)%nat.
Proof. induction n as [|n IH]; cbn [replicate pool_fuel pc_fuel]; lia. Qed.

Lemma task_step_fuel env self i w p w' p' :
  task_step env self i w p = Some (w', p') ->
  (pc_fuel p' < pc_fuel p)%nat /\ (length (emitted w') <= S (length (emitted w)))%nat.
Proof.
  destruct p; cbn [task_step]; intros H.
  - injection H as <- <-. cbn [emit emitted]. rewrite length_app. cbn.
    destruct (is_video _); cbn; lia.
  - destruct (extract_audio_from_video env (disk w) (item_path w i)) as [d [t|e]];
      injection H as <- <-; cbn; lia.
  - destruct (model_transcribe env _ _ _ _); injection H as <- <-; cbn.
    + rewrite length_app. cbn. lia.
    + lia.
  - destruct (temp_present temp w) as [t|].
    + destruct (os_remove env (disk w) t); injection H as <- <-; cbn; lia.
    + injection H as <- <-. cbn. lia.
  - injection H as <- <-. unfold handle_exception. rewrite emitted_remove_quietly.
    cbn. rewrite length_app. cbn. lia.
  - discriminate.
Qed.

(** Every step uses up some of the measure. *)
Lemma step_measure env self N s s' :
  step env s s' -> shape_inv env self N s -> (measure s' < measure s)%nat.
Proof.
  intros [c Hc] (Hw & Hn & Hd & Ha & Hr). unfold measure.
  destruct c as [|i|]; cbn [step_fn] in Hc.
  - rewrite Hw in Hc. unfold run_step in Hc.
    destruct (runner s) as [| | |total c|e|] eqn:Er; try discriminate.
    + injection Hc as <-. sys_simpl. cbn [emit files emitted runner_fuel].
      rewrite length_app. cbn [length]. lia.
    + destruct (load_model env (model_name self)).
      * destruct (max_workers self); injection Hc as <-; sys_simpl;
          unfold run_exception; cbn [emit files emitted runner_fuel];
          rewrite ?length_app; cbn [length]; rewrite ?pool_fuel_replicate, Hr;
          cbn [pool_fuel]; lia.
      * injection Hc as <-. sys_simpl. unfold run_exception.
        cbn [emit files emitted runner_fuel]. rewrite ?length_app. cbn [length]. lia.
    + destruct Hr as (-> & Hl & Hc').
      pose proof (count_le_length is_settled (pool s)).
      destruct (c <? count is_settled (pool s))%nat eqn:Elt.
      * apply Nat.ltb_lt in Elt.
        destruct (progress_percent _ _); injection Hc as <-; sys_simpl;
          cbn [emit files emitted runner_fuel]; rewrite ?length_app; cbn [length]; lia.
      * destruct (c =? length (pool s))%nat; [|discriminate].
        injection Hc as <-. sys_simpl. cbn [emit files emitted runner_fuel].
        rewrite ?length_app. cbn [length]. lia.
    + destruct (count is_settled (pool s) =? length (pool s))%nat; [|discriminate].
      injection Hc as <-. sys_simpl. unfold run_exception.
      cbn [emit files emitted runner_fuel]. rewrite ?length_app. cbn [length]. lia.
  - rewrite Hw in Hc. unfold pool_step in Hc.
    destruct (pool s !! i) as [p|] eqn:Ep; [|discriminate].
    destruct (is_queued p && negb (can_start i (pool s) (max_workers self))); [discriminate|].
    destruct (task_step env self i (world s) p) as [[w' p']|] eqn:Et; [|discriminate].
    injection Hc as <-. sys_simpl.
    destruct (task_step_length _ _ _ _ _ _ _ Et) as [Hl He].
    destruct (task_step_fuel _ _ _ _ _ _ _ Et) as [Hf He'].
    pose proof (pool_fuel_insert _ _ _ p' Ep). rewrite Hl. lia.
  - destruct (gui_step_shape _ _ Hc) as (Hl & He & Hd' & Hlt & Hp & Hr' & Hw').
    rewrite Hl, He, Hd', Hp, Hr'. lia.
Qed.

(** No run goes on for ever. *)
Lemma run_sn env self N s : shape_inv env self N s -> sn (step env) s.
Proof.
  assert (H : forall n s, (measure s < n)%nat -> shape_inv env self N s -> sn (step env) s).
  { induction n as [|n IH]; intros s0 Hm Hs; [lia|].
    constructor. intros s' Hstep. unfold flip in Hstep. apply IH.
    - pose proof (step_measure _ _ _ _ _ Hstep Hs). lia.
    - eapply step_shape; eauto. }
  intros Hs. apply (H (S (measure s))); [lia|exact Hs].
Qed.

Lemma escape_measure s s' : escape_step s s' -> (measure s' < measure s)%nat.
Proof.
  intros (i & p & d & Ep & Hq & Hs & ->). unfold measure. sys_simpl.
  cbn [set_disk files emitted].
  pose proof (pool_fuel_insert _ _ _ PSettled Ep) as Hf. cbn [pc_fuel] in Hf.
  assert (0 < pc_fuel p)%nat by (destruct p; cbn; try lia; discriminate).
  lia.
Qed.

(** No run goes on for ever, whether or not exceptions leave its tasks. *)
Lemma run_esc_sn esc env self N s : shape_inv env self N s -> sn (step_esc esc env) s.
Proof.
  assert (H : forall n s, (measure s < n)%nat -> shape_inv env self N s ->
                sn (step_esc esc env) s).
  { induction n as [|n IH]; intros s0 Hm Hs; [lia|].
    constructor. intros s' Hstep. unfold flip in Hstep. apply IH.
    - destruct (step_esc_cases _ _ _ _ Hstep) as [H|H].
      + pose proof (step_measure _ _ _ _ _ H Hs). lia.
      + pose proof (escape_measure _ _ H). lia.
    - eapply step_esc_shape; eauto. }
  intros Hs. apply (H (S (measure s))); [lia|exact Hs].
Qed.

(** ** Progress and completion *)

Lemma task_step_enabled env self i w p :
  is_settled p = false -> is_Some (task_step env self i w p).
Proof.
  destruct p; cbn [task_step is_settled]; intros H; try discriminate; eauto.
  - destruct (extract_audio_from_video env (disk w) (item_path w i)); eauto.
  - destruct (model_transcribe env _ _ _ _); eauto.
  - destruct (temp_present temp w) as [t|]; eauto.
    destruct (os_remove env (disk w) t); eauto.
Qed.

(** The first task that satisfies [f]. *)
Lemma count_first f l :
  (0 < count f l)%nat ->
  exists i p, l !! i = Some p /\ f p = true /\
    forallb (fun q => negb (f q)) (take i l) = true.
Proof.
  induction l as [|a l IH]; cbn [count]; intros H; [lia|].
  destruct (f a) eqn:Ea.
  - exists 0%nat, a. repeat split. exact Ea.
  - destruct IH as (i & p & Hi & Hp & Hall); [cbn in H; lia|].
    exists (S i), p. cbn. rewrite Ea. auto.
Qed.

Lemma count_partition l :
  (count is_queued l + count is_active l + count is_settled l = length l)%nat.
Proof.
  induction l as [|a l IH]; cbn [count length]; [reflexivity|].
  destruct a; cbn; lia.
Qed.

(** While a task is unsettled, some task of the pool may take a step. *)
Lemma pool_progress env self s :
  worker (gui s) = Some self ->
  (count is_settled (pool s) < length (pool s))%nat ->
  (0 < max_workers self)%nat ->
  exists s', step env s s'.
Proof.
  intros Hw Hlt Hk. pose proof (count_partition (pool s)) as Hp.
  assert (Hen : forall i p, pool s !! i = Some p -> is_settled p = false ->
                  (is_queued p = true -> can_start i (pool s) (max_workers self) = true) ->
                  exists s', step env s s').
  { intros i p Hi Hs Hq.
    destruct (task_step_enabled env self i (world s) p Hs) as [[w' p'] Ht].
    eexists. exists (CTask i). cbn [step_fn]. rewrite Hw. unfold pool_step. rewrite Hi.
    destruct (is_queued p) eqn:Eq.
    - rewrite Hq by reflexivity. cbn. rewrite Ht. reflexivity.
    - cbn. rewrite Ht. reflexivity. }
  destruct (Nat.eq_dec (count is_active (pool s)) 0) as [H0|H0].
  - destruct (count_first is_queued (pool s)) as (i & p & Hi & Hq & Hall); [lia|].
    apply (Hen i p Hi); [destruct p; try discriminate; reflexivity|].
    intros _. unfold can_start. rewrite Hall, H0. cbn.
    destruct (max_workers self); [lia|reflexivity].
  - destruct (count_first is_active (pool s)) as (i & p & Hi & Ha & _); [lia|].
    unfold is_active in Ha. apply andb_true_iff in Ha as [Hq Hs].
    apply negb_true_iff in Hq, Hs. apply (Hen i p Hi Hs). rewrite Hq. discriminate.
Qed.

(** A run that has not settled can take a step. *)
Lemma run_progress env self N s :
  shape_inv env self N s -> (0 < max_workers self)%nat ->
  ~ settled s -> exists s', step env s s'.
Proof.
  intros (Hw & Hn & Hd & Ha & Hr) Hk Hns.
  destruct (emitted (world s) !! delivered s) as [sg|] eqn:Eg.
  { eexists. exists CGui. cbn [step_fn]. unfold gui_step. rewrite Eg. reflexivity. }
  apply lookup_ge_None in Eg.
  assert (Hrun : forall s', run_step env self s = Some s' -> exists s', step env s s').
  { intros s' H. exists s', CRun. cbn [step_fn]. rewrite Hw. exact H. }
  pose proof (count_le_length is_settled (pool s)) as Hle.
  destruct (runner s) as [| | |total c|e|] eqn:Er.
  - contradiction.
  - eapply Hrun. unfold run_step. rewrite Er. reflexivity.
  - unfold run_step in Hrun. rewrite Er in Hrun.
    destruct (load_model env (model_name self)); [destruct (max_workers self)|];
      eapply Hrun; reflexivity.
  - destruct Hr as (-> & Hl & Hc).
    unfold run_step in Hrun. rewrite Er in Hrun.
    destruct (c <? count is_settled (pool s))%nat eqn:Elt.
    + destruct (progress_percent _ _); eapply Hrun; reflexivity.
    + apply Nat.ltb_ge in Elt.
      destruct (c =? length (pool s))%nat eqn:Eeq; [eapply Hrun; reflexivity|].
      apply Nat.eqb_neq in Eeq. apply (pool_progress env self s Hw); [lia|exact Hk].
  - unfold run_step in Hrun. rewrite Er in Hrun.
    destruct (count is_settled (pool s) =? length (pool s))%nat eqn:Eeq;
      [eapply Hrun; reflexivity|].
    apply Nat.eqb_neq in Eeq. apply (pool_progress env self s Hw); [lia|exact Hk].
  - exfalso. apply Hns. split; [exact Er|lia].
Qed.

(** A run that has not settled can take a step, whether or not exceptions
    leave its tasks. *)
Lemma run_esc_progress esc env self N s :
  shape_inv env self N s -> (0 < max_workers self)%nat ->
  ~ settled s -> exists s', step_esc esc env s s'.
Proof.
  intros Hsh Hk Hns. destruct (run_progress env self N s Hsh Hk Hns) as [s1 [c Hc]].
  destruct (step_fn_esc_enabled esc env c s) as [s' Hs']; [rewrite Hc; eauto|].
  exists s', c. exact Hs'.
Qed.

Lemma settled_dec s : {settled s} + {~ settled s}.
Proof.
  unfold settled.
  destruct (Nat.eq_dec (delivered s) (length (emitted (world s)))) as [Hd|Hd];
    [|right; tauto].
  destruct (runner s); (left; split; [reflexivity|exact Hd]) || (right; intros [H _]; discriminate H).
Qed.

Lemma String_prefix_done_failed st :
  st = "Готово" -> String.prefix "Ошибка" st = true -> False.
Proof. intros ->. discriminate. Qed.

(** ** Progress and completion, with exceptions that are not caught *)

(** C6 as stated fails: an engine that raises [SystemExit] leaves the
    task without a word to the item; the future is done all the same, the
    loop of [run] reports it and the completion signal is handled, while the
    item still shows that it is running. *)
Lemma C6_counterexample :
  load_model (Examples.env_ok "hello") "base" = Ok tt /\
  rtc (step_esc engine_exits (Examples.env_ok "hello"))
      (start_transcription (initial ["interview.mp3"] ∅)) one_audio_engine_exits /\
  settled one_audio_engine_exits /\
  files (world one_audio_engine_exits) = [mkFileItem "interview.mp3" "В процессе" "" ""] /\
  percentages (since (initial ["interview.mp3"] ∅) one_audio_engine_exits) = [100%Z].
Proof.
  split; [reflexivity|]. split; [unfold one_audio_engine_exits; apply exec_esc_rtc|].
  split; [split; vm_compute; reflexivity|]. split; vm_compute; reflexivity.
Qed.

(** C6, amended.  From any state in which [start_transcription] starts a
    run, with a model that loads, when no call made for an item raises an
    exception that is not an [Exception], and with the worklist left as it
    was when the run started: every execution is finite; an execution that
    cannot go on has settled ([run] has returned and the completion signal,
    the last one, is handled); and in a settled state every item is done or
    failed, never both, and neither pending nor running. *)
Theorem C6_every_item_terminal esc env s0 :
  ready s0 ->
  load_model env (model_combo (gui s0)) = Ok tt ->
  never_escapes esc ->
  sn (step_esc esc env) (start_transcription s0) /\
  forall s, rtc (step_esc esc env) (start_transcription s0) s ->
    (nf (step_esc esc env) s -> settled s) /\
    (settled s ->
     length (files (world s)) = length (files (world s0)) /\
     forall it, it ∈ files (world s) ->
       (is_done it \/ is_failed it) /\ ~ (is_done it /\ is_failed it) /\
       ~ is_pending it /\ ~ is_running it).
Proof.
  intros Hready Hload Hesc.
  destruct (run_invariants env _ _ Hready (rtc_refl _ _)) as (self0 & _ & _ & Hsh0).
  split; [eapply run_esc_sn; exact Hsh0|].
  intros s Hs.
  destruct (run_invariants_esc esc env s0 s Hready Hs) as (self & Hk & Hm & Hsh & Hit).
  split.
  - intros Hnf. destruct (settled_dec s) as [H|H]; [exact H|].
    exfalso. apply Hnf. eapply run_esc_progress; [exact Hsh|lia|exact H].
  - intros Hset. split; [apply Hsh|].
    intros it Hin. apply list_elem_of_lookup in Hin as [i Hi].
    destruct (settled_item _ _ _ _ _ _ _ _ Hsh Hit Hset Hi) as [(Hnil & _)|[_ Hinv]].
    + exfalso. destruct Hset as [Hrun _].
      destruct Hsh as (_ & Hn & _ & _ & Hr). rewrite Hrun in Hr.
      destruct Hr as [_ [Hl|[_ [[e He]|H0]]]].
      * rewrite Hnil in Hl. cbn in Hl. destruct Hready as (Hf & _).
        destruct (files (world s0)); [congruence|discriminate].
      * rewrite Hm, Hload in He. discriminate.
      * lia.
    + unfold is_done, is_failed, is_pending, is_running.
      cbn [task_inv] in Hinv. destruct Hinv as [(Hst & _)|[(Hst & _)|(_ & _ & Hne)]].
      * rewrite Hst. repeat split; auto; try discriminate.
        intros [_ H]. discriminate H.
      * repeat split; auto.
        -- intros [Hd _]. eapply String_prefix_done_failed; eauto.
        -- intros Hp. rewrite Hp in Hst. discriminate Hst.
        -- intros Hp. rewrite Hp in Hst. discriminate Hst.
      * contradiction.
Qed.

Lemma C6_every_item_terminal_witness :
  let esc := mkEscapes (fun _ _ => None) (fun _ _ _ _ => false) (fun _ _ => false) in
  let env := Examples.env_ok "hello" in
  let s0 := initial ["interview.mp3"] ∅ in
  let s := exec_esc esc env Scenarios.one_audio_schedule (start_transcription s0) in
  sn (step_esc esc env) (start_transcription s0) /\
  settled s /\
  files (world s) = [mkFileItem "interview.mp3" "Готово" "hello" ""] /\
  forall it, it ∈ files (world s) ->
    (is_done it \/ is_failed it) /\ ~ (is_done it /\ is_failed it) /\
    ~ is_pending it /\ ~ is_running it.
Proof.
  destruct (C6_every_item_terminal
              (mkEscapes (fun _ _ => None) (fun _ _ _ _ => false) (fun _ _ => false))
              (Examples.env_ok "hello") (initial ["interview.mp3"] ∅)
              (initial_ready ["interview.mp3"] ∅ ltac:(discriminate)) eq_refl
              never_escapes_none) as [Hsn Hall].
  assert (Hset : settled (exec_esc
            (mkEscapes (fun _ _ => None) (fun _ _ _ _ => false) (fun _ _ => false))
            (Examples.env_ok "hello") Scenarios.one_audio_schedule
            (start_transcription (initial ["interview.mp3"] ∅))))
    by (split; vm_compute; reflexivity).
  destruct (Hall _ (exec_esc_rtc _ _ Scenarios.one_audio_schedule _)) as [_ Hfin].
  destruct (Hfin Hset) as [_ Hitems].
  split; [exact Hsn|]. split; [exact Hset|]. split; [vm_compute; reflexivity|exact Hitems].
Defined.

(** ** A model that does not load *)

Lemma start_transcription_load_failure e s0 :
  ready s0 -> load_failure_inv e s0 (start_transcription s0).
Proof.
  intros (Hf & Hrun & Hd). unfold start_transcription, load_failure_inv.
  destruct (files (world s0)) as [|it0 l] eqn:Ef; [congruence|].
  rewrite Hrun, andb_false_r. cbn -[take load_failure_signals].
  split; [eexists; split; reflexivity|].
  repeat split; [lia|]. exists 0%nat. rewrite app_nil_r. split; reflexivity.
Qed.

Lemma step_load_failure env e s0 s s' :
  load_model env (model_combo (gui s0)) = Raise e ->
  load_failure_inv e s0 s -> step env s s' -> load_failure_inv e s0 s'.
Proof.
  intros Hload ((self & Hw & Hm) & Hp & Hf & Hdk & Hd & k & He & Hr) [c Hc].
  destruct c as [|i|]; cbn [step_fn] in Hc.
  - rewrite Hw in Hc. unfold run_step in Hc.
    destruct (runner s) eqn:Er; try contradiction; subst k.
    + injection Hc as <-. repeat split; eauto.
      exists 1%nat. split; [|reflexivity]. cbn. rewrite He. cbn. rewrite app_nil_r. reflexivity.
    + rewrite Hm, Hload in Hc. injection Hc as <-. repeat split; eauto.
      exists 3%nat. split; [|reflexivity]. cbn. rewrite He. cbn.
      rewrite <- !app_assoc. reflexivity.
    + discriminate.
  - rewrite Hw in Hc. unfold pool_step in Hc. rewrite Hp in Hc. discriminate.
  - unfold gui_step in Hc. destruct (emitted (world s) !! delivered s) as [sg|] eqn:Eg;
      [|discriminate]. injection Hc as <-.
    assert (Hsg : sg ∈ load_failure_signals e).
    { rewrite He in Eg. rewrite lookup_app_r in Eg by exact Hd.
      apply list_elem_of_lookup_2 in Eg. eapply subseteq_take. exact Eg. }
    assert (Hrun : match runner s with RStart | RLoading | RFinished => True | _ => False end).
    { destruct (runner s); auto. }
    unfold load_failure_signals in Hsg.
    assert (Hcases : sg = progress_update (-1) "Загрузка Whisper..." "Загрузка" \/
                     sg = progress_update (-1) ("Ошибка: " +:+ e) "Ошибка" \/
                     sg = finished).
    { repeat (apply elem_of_cons in Hsg as [Hsg|Hsg]; [auto|]).
      apply elem_of_nil in Hsg. contradiction. }
    destruct Hcases as [ -> | [ -> | -> ] ]; cbn;
      (split; [eauto|]); (split; [exact Hp|]); (split; [exact Hf|]);
      (split; [exact Hdk|]); (split; [cbn in *; lia|]); exists k; (split; [exact He|exact Hr]).
Qed.

Lemma rtc_load_failure_from env e s0 s s' :
  load_model env (model_combo (gui s0)) = Raise e ->
  rtc (step env) s s' -> load_failure_inv e s0 s -> load_failure_inv e s0 s'.
Proof. induction 2; eauto using step_load_failure. Qed.

Lemma rtc_load_failure env e s0 s :
  load_model env (model_combo (gui s0)) = Raise e ->
  ready s0 -> rtc (step env) (start_transcription s0) s -> load_failure_inv e s0 s.
Proof.
  intros Hload Hready Hs.
  eapply rtc_load_failure_from; [exact Hload|exact Hs|].
  apply start_transcription_load_failure, Hready.
Qed.

Lemma item_signals_load_failure e k :
  item_signals (take k (load_failure_signals e)) = [].
Proof. destruct k as [|[|[|[|k]]]]; reflexivity. Qed.

(** C5.  When [whisper.load_model] raises, every execution of the run is
    finite and ends settled; all it ever emits is the loading message, one
    run-level failure with the text of the exception, and the completion
    signal, in this order and all three once settled; no signal carries the
    position of an item, no task is ever submitted, and every item stays
    pending with no transcript and no error message. *)
Theorem C5_load_failure_run_level env s0 e :
  ready s0 ->
  load_model env (model_combo (gui s0)) = Raise e ->
  sn (step env) (start_transcription s0) /\
  forall s, rtc (step env) (start_transcription s0) s ->
    (exists k, emitted (world s) =
               emitted (world s0) ++ take k (load_failure_signals e)) /\
    item_signals (drop (length (emitted (world s0))) (emitted (world s))) = [] /\
    pool s = [] /\
    length (files (world s)) = length (files (world s0)) /\
    (forall it, it ∈ files (world s) ->
       is_pending it /\ transcription it = "" /\ error_message it = "") /\
    (nf (step env) s -> settled s) /\
    (settled s -> emitted (world s) = emitted (world s0) ++ load_failure_signals e).
Proof.
  intros Hready Hload.
  destruct (run_invariants env _ _ Hready (rtc_refl _ _)) as (self0 & _ & _ & Hsh0).
  split; [eapply run_sn; exact Hsh0|].
  intros s Hs.
  destruct (run_invariants env s0 s Hready Hs) as (self & Hk & _ & Hsh).
  destruct (rtc_load_failure env e s0 s Hload Hready Hs)
    as (_ & Hp & Hf & _ & Hd & k & He & Hr).
  split; [eauto|]. split; [|split; [exact Hp|split; [|split; [|split]]]].
  - rewrite He, drop_app_length. apply item_signals_load_failure.
  - rewrite Hf. apply length_map.
  - intros it Hin. rewrite Hf in Hin. apply list_elem_of_fmap in Hin as (it0 & -> & _).
    repeat split.
  - intros Hnf. destruct (settled_dec s) as [H|H]; [exact H|].
    exfalso. apply Hnf. eapply run_progress; [exact Hsh|lia|exact H].
  - intros [Hrun _]. rewrite Hrun in Hr. subst k. exact He.
Qed.

Lemma C5_load_failure_run_level_witness :
  let env := Examples.env_no_model in
  let s0 := initial ["interview.mp3"] ∅ in
  sn (step env) (start_transcription s0) /\
  forall s, rtc (step env) (start_transcription s0) s ->
    (exists k, emitted (world s) =
               emitted (world s0) ++ take k (load_failure_signals "model not found")) /\
    item_signals (drop (length (emitted (world s0))) (emitted (world s))) = [] /\
    pool s = [] /\
    length (files (world s)) = length (files (world s0)) /\
    (forall it, it ∈ files (world s) ->
       is_pending it /\ transcription it = "" /\ error_message it = "") /\
    (nf (step env) s -> settled s) /\
    (settled s ->
     emitted (world s) = emitted (world s0) ++ load_failure_signals "model not found").
Proof.
  apply (C5_load_failure_run_level Examples.env_no_model (initial ["interview.mp3"] ∅)).
  - apply initial_ready. discriminate.
  - reflexivity.
Defined.

(** ** Binary64 rounding *)

Section Binary64.
Local Open Scope Z_scope.

Lemma digits2_pos_size p : digits2_pos p = Pos.size p.
Proof. induction p; cbn; congruence. Qed.

Lemma Zdigits2_log2 m : 0 < m -> Zdigits2 m = Z.log2 m + 1.
Proof.
  destruct m as [|p|p]; try lia. intros _. cbn [Zdigits2]. rewrite digits2_pos_size.
  destruct p; cbn; lia.
Qed.

Lemma Zdigits2_unique m d : 0 < d -> 2 ^ (d - 1) <= m < 2 ^ d -> Zdigits2 m = d.
Proof.
  intros Hd H. assert (0 < m) by (pose proof (Z.pow_pos_nonneg 2 (d - 1)); lia).
  rewrite Zdigits2_log2 by assumption.
  rewrite (Z.log2_unique m (d - 1)); [lia|lia|].
  replace (Z.succ (d - 1)) with d by lia. exact H.
Qed.

Lemma shr_record_of_loc_of A B :
  0 < B -> shr_record_of_loc (A / B) (loc_of A B) = rec_of A B.
Proof.
  intros HB. unfold loc_of, rec_of. pose proof (Z.mod_pos_bound A B HB) as Hr.
  destruct (Z.eqb_spec (A mod B) 0) as [E|E].
  - rewrite E. cbn. destruct (Z.leb_spec B (2 * 0)); [lia|reflexivity].
  - destruct (Z.compare_spec (2 * (A mod B)) B) as [H|H|H]; cbn.
    + rewrite H, Z.leb_refl, Z.eqb_refl. reflexivity.
    + destruct (Z.leb_spec B (2 * (A mod B))); [lia|].
      destruct (Z.eqb_spec (2 * (A mod B)) B); [lia|reflexivity].
    + destruct (Z.leb_spec B (2 * (A mod B))); [|lia].
      destruct (Z.eqb_spec (2 * (A mod B)) B); [lia|reflexivity].
Qed.

Lemma new_location_loc_of A B : 0 < B -> new_location B (A mod B) = loc_of A B.
Proof.
  intros HB. unfold new_location, new_location_even, new_location_odd, loc_of.
  pose proof (Z.mod_pos_bound A B HB) as Hr.
  destruct (Z.even B) eqn:Ev; [reflexivity|].
  destruct (A mod B =? 0); [reflexivity|]. f_equal.
  assert (Hodd : Z.odd B = true) by (rewrite <- Z.negb_even, Ev; reflexivity).
  apply Z.odd_spec in Hodd as [k Hk].
  destruct (Z.compare_spec (2 * (A mod B) + 1) B), (Z.compare_spec (2 * (A mod B)) B);
    try reflexivity; lia.
Qed.

Lemma shr_1_rec_of A B : 0 <= A -> 0 < B -> shr_1 (rec_of A B) = rec_of A (2 * B).
Proof.
  intros HA HB. unfold rec_of, shr_1.
  pose proof (Z.mod_pos_bound A B HB) as Hr.
  pose proof (Z.div_pos A B HA HB) as Hq.
  pose proof (Z.div_mod A B ltac:(lia)) as HE.
  assert (H2 : A / (2 * B) = A / B / 2).
  { rewrite (Z.mul_comm 2 B). symmetry. apply Z.div_div; lia. }
  assert (Hm : A mod (2 * B) = (A / B) mod 2 * B + A mod B).
  { pose proof (Z.div_mod A (2 * B) ltac:(lia)) as HE2. rewrite H2 in HE2.
    pose proof (Z.div_mod (A / B) 2 ltac:(lia)) as HE3. nia. }
  assert (Hs : ((B <=? 2 * (A mod B)) || negb (A mod B =? 0) && negb (2 * (A mod B) =? B))%bool
               = negb (A mod B =? 0)).
  { destruct (Z.leb_spec B (2 * (A mod B))), (Z.eqb_spec (A mod B) 0),
      (Z.eqb_spec (2 * (A mod B)) B); cbn; try reflexivity; lia. }
  rewrite Hs, H2, Hm.
  pose proof (Z.mod_pos_bound (A / B) 2 ltac:(lia)) as Hb.
  assert (Hcase : forall (b : bool) (h : Z), (A / B) mod 2 = (if b then 1 else 0) ->
            Build_shr_record h b (negb (A mod B =? 0)) =
            Build_shr_record h
              (2 * B <=? 2 * ((A / B) mod 2 * B + A mod B))
              (negb ((A / B) mod 2 * B + A mod B =? 0) &&
               negb (2 * ((A / B) mod 2 * B + A mod B) =? 2 * B))).
  { intros b h Hbm. rewrite Hbm. f_equal.
    - destruct b; [destruct (Z.leb_spec (2 * B) (2 * (1 * B + A mod B)))|
                   destruct (Z.leb_spec (2 * B) (2 * (0 * B + A mod B)))]; try reflexivity; lia.
    - destruct b, (Z.eqb_spec (A mod B) 0); cbn.
      + destruct (Z.eqb_spec (1 * B + A mod B) 0); lia.
      + destruct (Z.eqb_spec (1 * B + A mod B) 0); [lia|].
        destruct (Z.eqb_spec (2 * (1 * B + A mod B)) (2 * B)); [lia|reflexivity].
      + destruct (Z.eqb_spec (0 * B + A mod B) 0); [reflexivity|lia].
      + destruct (Z.eqb_spec (0 * B + A mod B) 0); [lia|].
        destruct (Z.eqb_spec (2 * (0 * B + A mod B)) (2 * B)); [lia|reflexivity]. }
  destruct (A / B) as [|p|p] eqn:Eq; [| |lia].
  - apply (Hcase false 0). reflexivity.
  - destruct p as [p|p|].
    + replace (Z.pos p~1 / 2) with (Z.pos p)
        by (apply (Z.div_unique _ 2 _ 1); lia).
      apply (Hcase true).
      rewrite Pos2Z.pos_xI, Z.add_comm, Z.mul_comm, Z.mod_add; [reflexivity|lia].
    + replace (Z.pos p~0 / 2) with (Z.pos p)
        by (apply (Z.div_unique _ 2 _ 0); lia).
      apply (Hcase false).
      rewrite Pos2Z.pos_xO, Z.mul_comm, Z.mod_mul; [reflexivity|lia].
    + apply (Hcase true 0). reflexivity.
Qed.

Lemma iter_pos_succ {T} (f : T -> T) p x : SpecFloat.iter_pos f (Pos.succ p) x = f (SpecFloat.iter_pos f p x).
Proof.
  assert (Hcomm : forall p x, SpecFloat.iter_pos f p (f x) = f (SpecFloat.iter_pos f p x)).
  { clear. induction p; intros x; cbn; [|rewrite ?IHp; reflexivity|reflexivity].
    rewrite !IHp. reflexivity. }
  revert x. induction p; intros x.
  - change (SpecFloat.iter_pos f (Pos.succ p) (SpecFloat.iter_pos f (Pos.succ p) x) =
            f (SpecFloat.iter_pos f p (SpecFloat.iter_pos f p (f x)))).
    rewrite !IHp, !Hcomm. reflexivity.
  - change (SpecFloat.iter_pos f p (SpecFloat.iter_pos f p (f x)) =
            f (SpecFloat.iter_pos f p (SpecFloat.iter_pos f p x))).
    rewrite !Hcomm. reflexivity.
  - reflexivity.
Qed.

Lemma iter_pos_shr_1 p A B :
  0 <= A -> 0 < B -> SpecFloat.iter_pos shr_1 p (rec_of A B) = rec_of A (B * 2 ^ Zpos p).
Proof.
  intros HA HB. induction p using Pos.peano_ind.
  - cbn [SpecFloat.iter_pos]. rewrite shr_1_rec_of by assumption. f_equal. lia.
  - rewrite iter_pos_succ, IHp, shr_1_rec_of; [|assumption|
      pose proof (Z.pow_pos_nonneg 2 (Zpos p)); lia].
    f_equal. rewrite Pos2Z.inj_succ, Z.pow_succ_r; lia.
Qed.

Lemma round_nearest_even_rec_of A B :
  0 < B ->
  round_nearest_even (shr_m (rec_of A B)) (loc_of_shr_record (rec_of A B)) = rne A B.
Proof.
  intros HB. unfold rec_of, rne, round_nearest_even, loc_of_shr_record. cbn [shr_m].
  pose proof (Z.mod_pos_bound A B HB) as Hr.
  destruct (Z.leb_spec B (2 * (A mod B))), (Z.eqb_spec (A mod B) 0),
    (Z.eqb_spec (2 * (A mod B)) B), (Z.ltb_spec (2 * (A mod B)) B); cbn; try reflexivity; lia.
Qed.

Lemma rne_cases A D : 0 < D ->
  (rne A D = A / D /\ 2 * (A mod D) <= D /\ (2 * (A mod D) = D -> Z.even (A / D) = true)) \/
  (rne A D = A / D + 1 /\ D <= 2 * (A mod D) /\ (2 * (A mod D) = D -> Z.even (A / D) = false)).
Proof.
  intros HD. unfold rne.
  destruct (Z.ltb_spec (2 * (A mod D)) D); [left; repeat split; lia|].
  destruct (Z.eqb_spec (2 * (A mod D)) D).
  - destruct (Z.even (A / D)) eqn:Ev; [left|right]; repeat split; auto; lia.
  - right. repeat split; lia.
Qed.

(** [rne A D] is an integer nearest to [A / D], and the even one of the
    two when [A / D] lies half way. *)
Lemma rne_nearest A D : 0 < D ->
  2 * Z.abs (rne A D * D - A) <= D /\
  (2 * Z.abs (rne A D * D - A) = D -> Z.even (rne A D) = true).
Proof.
  intros HD. pose proof (Z.div_mod A D ltac:(lia)) as HE.
  pose proof (Z.mod_pos_bound A D HD) as Hr.
  destruct (rne_cases A D HD) as [(-> & H1 & H2)|(-> & H1 & H2)].
  - replace (A / D * D - A) with (- (A mod D)) by lia.
    rewrite Z.abs_opp, Z.abs_eq by lia. split; [lia|exact H2].
  - replace ((A / D + 1) * D - A) with (D - A mod D) by lia.
    rewrite Z.abs_eq by lia. split; [lia|]. intros H.
    rewrite Z.add_1_r, Z.even_succ, <- Z.negb_even, H2 by lia. reflexivity.
Qed.

Lemma rne_bounds A D lo hi : 0 < D -> lo * D <= A -> A < hi * D -> lo <= rne A D <= hi.
Proof.
  intros HD Hlo Hhi.
  assert (lo <= A / D) by (apply Z.div_le_lower_bound; lia).
  assert (A / D < hi) by (apply Z.div_lt_upper_bound; lia).
  destruct (rne_cases A D HD) as [(-> & _)|(-> & _)]; lia.
Qed.

(** Rounding to nearest is monotone, whatever the denominators. *)
Lemma rne_mono A1 D1 A2 D2 :
  0 < D1 -> 0 < D2 -> A1 * D2 <= A2 * D1 -> rne A1 D1 <= rne A2 D2.
Proof.
  intros H1 H2 Hle.
  destruct (rne_nearest A1 D1 H1) as [N1 T1], (rne_nearest A2 D2 H2) as [N2 T2].
  set (M1 := rne A1 D1) in *. set (M2 := rne A2 D2) in *.
  destruct (Z_le_gt_dec M1 M2) as [|Hgt]; [assumption|exfalso].
  assert (B1 : (2 * M1 - 1) * D1 <= 2 * A1) by lia.
  assert (B2 : 2 * A2 <= (2 * M2 + 1) * D2) by lia.
  assert (C1 : (2 * M2 + 1) * D1 <= (2 * M1 - 1) * D1) by nia.
  assert (C2 : (2 * M2 + 1) * D1 * D2 <= 2 * A1 * D2) by nia.
  assert (C3 : 2 * A2 * D1 <= (2 * M2 + 1) * D2 * D1) by nia.
  assert (E1 : 2 * A1 * D2 = (2 * M2 + 1) * D1 * D2) by nia.
  assert (E2 : 2 * A2 * D1 = (2 * M2 + 1) * D2 * D1) by nia.
  assert (E3 : (2 * M1 - 1) * D1 = (2 * M2 + 1) * D1) by nia.
  assert (E4 : M1 = M2 + 1) by nia.
  assert (F1 : 2 * A1 = (2 * M1 - 1) * D1) by nia.
  assert (F2 : 2 * A2 = (2 * M2 + 1) * D2) by nia.
  assert (G1 : Z.even M1 = true) by (apply T1; lia).
  assert (G2 : Z.even M2 = true) by (apply T2; lia).
  rewrite E4, Z.add_1_r, Z.even_succ, <- Z.negb_even, G2 in G1. discriminate.
Qed.

Lemma shr_fexp_rec_of A B ex :
  0 <= A -> 0 < B ->
  53 <= Zdigits2 (A / B) -> -1074 <= Zdigits2 (A / B) + ex - 53 ->
  shr_fexp 53 1024 (A / B) ex (loc_of A B) =
  (rec_of A (B * 2 ^ (Zdigits2 (A / B) - 53)), ex + (Zdigits2 (A / B) - 53)).
Proof.
  intros HA HB Hd He. unfold shr_fexp, fexp, emin.
  rewrite shr_record_of_loc_of by assumption.
  replace (Z.max (Zdigits2 (A / B) + ex - 53) (3 - 1024 - 53) - ex)
    with (Zdigits2 (A / B) - 53) by lia.
  destruct (Zdigits2 (A / B) - 53) as [|p|p] eqn:En; [| |lia].
  - cbn [shr]. rewrite Z.mul_1_r, Z.add_0_r. reflexivity.
  - cbn [shr]. rewrite iter_pos_shr_1 by assumption. reflexivity.
Qed.

Lemma shr_fexp_exact m e :
  2 ^ 52 <= m < 2 ^ 53 -> -1074 <= e ->
  shr_fexp 53 1024 m e loc_Exact = (Build_shr_record m false false, e).
Proof.
  intros Hm He. unfold shr_fexp, fexp, emin.
  rewrite (Zdigits2_unique m 53) by (cbn; lia).
  replace (Z.max (53 + e - 53) (3 - 1024 - 53) - e) with 0 by lia. reflexivity.
Qed.

Lemma shr_fexp_carry e :
  -1074 <= e ->
  shr_fexp 53 1024 (2 ^ 53) e loc_Exact = (Build_shr_record (2 ^ 52) false false, e + 1).
Proof.
  intros He. unfold shr_fexp, fexp, emin.
  replace (Zdigits2 (2 ^ 53)) with 54 by reflexivity.
  replace (Z.max (54 + e - 53) (3 - 1024 - 53) - e) with 1 by lia. reflexivity.
Qed.

(** The quotient [A / B] of at least 53 bits lies in the binade that
    [round53] rounds it in. *)
Lemma binade A B :
  0 < B -> 2 ^ 52 * B <= A ->
  let n := Z.log2 (A / B) - 52 in
  0 <= n /\ 2 ^ 52 * (B * 2 ^ n) <= A < 2 ^ 53 * (B * 2 ^ n).
Proof.
  intros HB HA n.
  assert (Hq : 2 ^ 52 <= A / B) by (apply Z.div_le_lower_bound; lia).
  assert (Hq0 : 0 < A / B) by lia.
  pose proof (Z.log2_spec (A / B) Hq0) as [L1 L2].
  assert (Hl : 52 <= Z.log2 (A / B)) by (apply Z.log2_le_pow2; lia).
  split; [unfold n; lia|].
  replace (Z.log2 (A / B)) with (52 + n) in L1 by (unfold n; lia).
  replace (Z.succ (Z.log2 (A / B))) with (53 + n) in L2 by (unfold n; lia).
  rewrite Z.pow_add_r in L1, L2 by (unfold n; lia).
  pose proof (Z.mul_div_le A B HB).
  pose proof (Z.mod_pos_bound A B HB). pose proof (Z.div_mod A B ltac:(lia)).
  assert (0 < 2 ^ n) by (apply Z.pow_pos_nonneg; unfold n; lia).
  split; [nia|].
  assert (A / B + 1 <= 2 ^ 53 * 2 ^ n) by lia. nia.
Qed.

(** The rounding of the library, for a quotient of at least 53 bits in
    the range of normal numbers: round to nearest in the binade of the
    quotient. *)
Lemma binary_round_aux_round53 A B ex :
  0 < B -> 2 ^ 52 * B <= A ->
  -1074 <= ex + (Z.log2 (A / B) - 52) < 971 ->
  binary_round_aux 53 1024 false (A / B) ex (loc_of A B) = finite_of (round53 A B ex).
Proof.
  intros HB HA He. destruct (binade A B HB HA) as [Hn Hbr].
  assert (Hq : 2 ^ 52 <= A / B) by (apply Z.div_le_lower_bound; lia).
  assert (Hd : Zdigits2 (A / B) - 53 = Z.log2 (A / B) - 52)
    by (rewrite Zdigits2_log2 by lia; lia).
  unfold binary_round_aux, round53.
  rewrite shr_fexp_rec_of by lia. rewrite Hd.
  set (n := Z.log2 (A / B) - 52) in *.
  assert (HD : 0 < B * 2 ^ n) by (pose proof (Z.pow_pos_nonneg 2 n); nia).
  rewrite round_nearest_even_rec_of by exact HD.
  pose proof (rne_bounds A (B * 2 ^ n) (2 ^ 52) (2 ^ 53) HD ltac:(lia) ltac:(lia)) as HM.
  unfold renorm. destruct (Z.eqb_spec (rne A (B * 2 ^ n)) (2 ^ 53)) as [E|E].
  - rewrite E, shr_fexp_carry by lia. cbn [shr_m].
    destruct (Z.leb_spec (ex + n + 1) (1024 - 53)); [reflexivity|lia].
  - rewrite shr_fexp_exact by lia. cbn [shr_m]. unfold finite_of. cbn [fst snd].
    destruct (rne A (B * 2 ^ n)) as [|m|m] eqn:Em; [lia| |lia].
    destruct (Z.leb_spec (ex + n) (1024 - 53)); [reflexivity|lia].
Qed.

End Binary64.

(** ** The percentage of line 113 *)

Section Percent.
Local Open Scope Z_scope.

Lemma val_renorm K m e : 0 <= e + K -> val K (renorm m e) = m * 2 ^ (e + K).
Proof.
  intros H. unfold renorm, val. destruct (Z.eqb_spec m (2 ^ 53)) as [->|]; cbn [fst snd].
  - replace (e + 1 + K) with (Z.succ (e + K)) by lia. rewrite Z.pow_succ_r by lia.
    change (2 ^ 53) with (2 * 2 ^ 52). lia.
  - reflexivity.
Qed.

(** What [round53] returns: a mantissa of exactly 53 bits, and a value
    within half a unit in the last place of the exact one. *)
Lemma round53_spec A B ex K :
  0 < B -> 2 ^ 52 * B <= A -> 0 <= ex + K ->
  2 ^ 52 <= fst (round53 A B ex) < 2 ^ 53 /\
  ex <= snd (round53 A B ex) /\
  2 * Z.abs (val K (round53 A B ex) * B - A * 2 ^ (ex + K))
    <= B * 2 ^ (snd (round53 A B ex) + K).
Proof.
  intros HB HA HK. destruct (binade A B HB HA) as [Hn Hbr].
  unfold round53. set (n := Z.log2 (A / B) - 52) in *.
  assert (Hp : 0 < 2 ^ n) by (apply Z.pow_pos_nonneg; lia).
  assert (HD : 0 < B * 2 ^ n) by nia.
  pose proof (rne_bounds A (B * 2 ^ n) (2 ^ 52) (2 ^ 53) HD ltac:(lia) ltac:(lia)) as HM.
  destruct (rne_nearest A (B * 2 ^ n) HD) as [Hnear _].
  rewrite val_renorm by lia.
  set (M := rne A (B * 2 ^ n)) in *.
  assert (Hpk : 0 < 2 ^ (ex + K)) by (apply Z.pow_pos_nonneg; lia).
  assert (Hsplit : 2 ^ (ex + n + K) = 2 ^ n * 2 ^ (ex + K)).
  { rewrite <- Z.pow_add_r by lia. f_equal. lia. }
  assert (Herr : 2 * Z.abs (M * 2 ^ (ex + n + K) * B - A * 2 ^ (ex + K))
                 <= B * 2 ^ (ex + n + K)).
  { rewrite Hsplit.
    replace (M * (2 ^ n * 2 ^ (ex + K)) * B - A * 2 ^ (ex + K))
      with ((M * (B * 2 ^ n) - A) * 2 ^ (ex + K)) by ring.
    rewrite Z.abs_mul, (Z.abs_eq (2 ^ (ex + K))) by lia. nia. }
  unfold renorm. destruct (Z.eqb_spec M (2 ^ 53)) as [E|E]; cbn [fst snd].
  - split; [cbn; lia|]. split; [lia|].
    replace (ex + n + 1 + K) with (Z.succ (ex + n + K)) by lia.
    rewrite Z.pow_succ_r by lia. nia.
  - split; [lia|]. split; [lia|exact Herr].
Qed.

(** Rounding to 53 bits is monotone in the exact value. *)
Lemma round53_mono A1 B1 ex1 A2 B2 ex2 K :
  0 < B1 -> 2 ^ 52 * B1 <= A1 -> 0 <= ex1 + K ->
  0 < B2 -> 2 ^ 52 * B2 <= A2 -> 0 <= ex2 + K ->
  A1 * B2 * 2 ^ (ex1 + K) <= A2 * B1 * 2 ^ (ex2 + K) ->
  val K (round53 A1 B1 ex1) <= val K (round53 A2 B2 ex2).
Proof.
  intros HB1 HA1 HK1 HB2 HA2 HK2 Hle.
  destruct (binade A1 B1 HB1 HA1) as [Hn1 Hbr1], (binade A2 B2 HB2 HA2) as [Hn2 Hbr2].
  unfold round53. set (n1 := Z.log2 (A1 / B1) - 52) in *.
  set (n2 := Z.log2 (A2 / B2) - 52) in *.
  rewrite !val_renorm by lia.
  assert (Hp1 : 0 < 2 ^ n1) by (apply Z.pow_pos_nonneg; lia).
  assert (Hp2 : 0 < 2 ^ n2) by (apply Z.pow_pos_nonneg; lia).
  set (D1 := B1 * 2 ^ n1) in *. set (D2 := B2 * 2 ^ n2) in *.
  assert (HD1 : 0 < D1) by (unfold D1; nia).
  assert (HD2 : 0 < D2) by (unfold D2; nia).
  pose proof (rne_bounds A1 D1 (2 ^ 52) (2 ^ 53) HD1 ltac:(lia) ltac:(lia)) as HM1.
  pose proof (rne_bounds A2 D2 (2 ^ 52) (2 ^ 53) HD2 ltac:(lia) ltac:(lia)) as HM2.
  set (P1 := 2 ^ (ex1 + n1 + K)). set (P2 := 2 ^ (ex2 + n2 + K)).
  assert (HP1 : 0 < P1) by (apply Z.pow_pos_nonneg; lia).
  assert (HP2 : 0 < P2) by (apply Z.pow_pos_nonneg; lia).
  assert (Hs1 : P1 = 2 ^ n1 * 2 ^ (ex1 + K)).
  { unfold P1. rewrite <- Z.pow_add_r by lia. f_equal. lia. }
  assert (Hs2 : P2 = 2 ^ n2 * 2 ^ (ex2 + K)).
  { unfold P2. rewrite <- Z.pow_add_r by lia. f_equal. lia. }
  assert (Hle' : A1 * D2 * P1 <= A2 * D1 * P2).
  { unfold D1, D2. rewrite Hs1, Hs2.
    replace (A1 * (B2 * 2 ^ n2) * (2 ^ n1 * 2 ^ (ex1 + K)))
      with (A1 * B2 * 2 ^ (ex1 + K) * (2 ^ n1 * 2 ^ n2)) by ring.
    replace (A2 * (B1 * 2 ^ n1) * (2 ^ n2 * 2 ^ (ex2 + K)))
      with (A2 * B1 * 2 ^ (ex2 + K) * (2 ^ n1 * 2 ^ n2)) by ring.
    apply Z.mul_le_mono_nonneg_r; [nia|exact Hle]. }
  clearbody D1 D2. clear Hle Hs1 Hs2.
  destruct (Z.lt_trichotomy (ex1 + n1) (ex2 + n2)) as [Hlt|[Heq|Hgt]].
  - assert (2 * P1 <= P2).
    { unfold P1, P2. rewrite <- Z.pow_succ_r by lia. apply Z.pow_le_mono_r; lia. }
    change (2 ^ 53) with (2 * 2 ^ 52) in HM1. nia.
  - assert (HPe : P2 = P1) by (unfold P1, P2; f_equal; lia).
    rewrite HPe in *. clearbody P1.
    assert (rne A1 D1 <= rne A2 D2); [|nia].
    apply rne_mono; [assumption..|].
    apply (Z.mul_le_mono_pos_r _ _ P1 HP1). exact Hle'.
  - exfalso. assert (2 * P2 <= P1).
    { unfold P1, P2. rewrite <- Z.pow_succ_r by lia. apply Z.pow_le_mono_r; lia. }
    clearbody P1 P2. change (2 ^ 53) with (2 * 2 ^ 52) in Hbr2.
    assert (2 ^ 52 * D1 * D2 * P1 <= A1 * D2 * P1) by nia.
    assert (A2 * D1 * P2 < 2 * 2 ^ 52 * D2 * D1 * P2).
    { apply Z.mul_lt_mono_pos_r; [assumption|]. apply Z.mul_lt_mono_pos_r; [assumption|]. lia. }
    assert (2 ^ 52 * D1 * D2 * (2 * P2) <= 2 ^ 52 * D1 * D2 * P1).
    { apply Z.mul_le_mono_nonneg_l; [|assumption]. nia. }
    nia.
Qed.
End Percent.
Section Percent2.
Local Open Scope Z_scope.

Lemma round53_exp A B ex :
  let n := Z.log2 (A / B) - 52 in
  ex + n <= snd (round53 A B ex) <= ex + n + 1.
Proof.
  cbv zeta. unfold round53, renorm.
  destruct (rne A (B * 2 ^ (Z.log2 (A / B) - 52)) =? 2 ^ 53); cbn [snd]; lia.
Qed.

Lemma finite_of_pos me :
  0 < fst me -> exists m, fst me = Zpos m /\ finite_of me = S754_finite false m (snd me).
Proof.
  intros H. unfold finite_of. destruct (fst me) as [|m|m]; try lia. eauto.
Qed.

Lemma div_eucl_div_mod a b : Z.div_eucl a b = (a / b, a mod b).
Proof. unfold Z.div, Z.modulo. destruct (Z.div_eucl a b). reflexivity. Qed.

(** The quotient of the shifted dividend has 53 or 54 bits. *)
Lemma div53_quotient j N :
  0 < j <= N ->
  let s := Z.log2 N - Z.log2 j + 53 in
  53 <= s /\ 2 ^ 52 * N <= j * 2 ^ s /\ 52 <= Z.log2 (j * 2 ^ s / N) <= 53.
Proof.
  intros Hj s.
  assert (HN : 0 < N) by lia.
  destruct (Z.log2_spec j ltac:(lia)) as [J1 J2], (Z.log2_spec N HN) as [N1 N2].
  pose proof (Z.log2_nonneg j). pose proof (Z.log2_le_mono j N ltac:(lia)).
  assert (Hs : 53 <= s) by (unfold s; lia).
  assert (Hps : 0 < 2 ^ s) by (apply Z.pow_pos_nonneg; lia).
  assert (E1 : 2 ^ Z.log2 j * 2 ^ s = 2 ^ 53 * 2 ^ Z.log2 N).
  { rewrite <- !Z.pow_add_r by lia. f_equal. unfold s. lia. }
  rewrite Z.pow_succ_r in J2, N2 by lia.
  assert (Hlo : 2 ^ 52 * N <= j * 2 ^ s).
  { change (2 ^ 53) with (2 * 2 ^ 52) in E1. nia. }
  assert (Hhi : j * 2 ^ s < 2 ^ 54 * N).
  { change (2 ^ 54) with (2 * 2 ^ 53). nia. }
  split; [exact Hs|]. split; [exact Hlo|].
  assert (Hq1 : 2 ^ 52 <= j * 2 ^ s / N) by (apply Z.div_le_lower_bound; lia).
  assert (Hq2 : j * 2 ^ s / N < 2 ^ 54) by (apply Z.div_lt_upper_bound; lia).
  split; [apply Z.log2_le_pow2; lia|].
  assert (Z.log2 (j * 2 ^ s / N) < 54); [|lia].
  apply Z.log2_lt_pow2; lia.
Qed.

(** [completed / total_files] of line 113 is [div53]. *)
Lemma truediv_div53 j N :
  0 < j <= N -> Z.log2 N <= 1020 ->
  PyFloat.truediv j N = Ok (finite_of (div53 j N)).
Proof.
  intros Hj HN. destruct (div53_quotient j N Hj) as (Hs & Hlo & Hq).
  pose proof (Z.log2_nonneg j).
  unfold div53. set (s := Z.log2 N - Z.log2 j + 53) in *.
  rewrite <- binary_round_aux_round53 by lia.
  destruct j as [|pj|pj]; [lia| |lia]. destruct N as [|pN|pN]; [lia| |lia].
  unfold PyFloat.truediv, SFdiv, SFdiv_core_binary, PyFloat.prec, PyFloat.emax.
  cbv zeta.
  assert (He : Z.min (fexp 53 1024 (Zdigits2 (Z.pos pj) + 0 - (Zdigits2 (Z.pos pN) + 0)))
                 (0 - 0) = - s).
  { rewrite !Zdigits2_log2 by lia. unfold fexp, emin. unfold s. lia. }
  rewrite He. replace (0 - 0 - - s) with s by lia.
  destruct s as [|ps|ps] eqn:Es; [lia| |lia].
  rewrite Z.shiftl_mul_pow2 by lia. rewrite div_eucl_div_mod.
  rewrite new_location_loc_of by lia. reflexivity.
Qed.

(** [q * 100] of line 113 is [mul53_100]. *)
Lemma mul_int_mul53_100 m e :
  2 ^ 52 <= m < 2 ^ 53 -> -1080 <= e < 900 ->
  PyFloat.mul_int (finite_of (m, e)) 100 = finite_of (mul53_100 (m, e)).
Proof.
  intros Hm He. unfold mul53_100. cbn [fst snd].
  assert (Hc : 2 ^ 52 <= 100 * 2 ^ 46 < 2 ^ 53) by (cbn; lia).
  assert (Hl : 104 <= Z.log2 (m * (100 * 2 ^ 46) / 1) <= 105).
  { rewrite Z.div_1_r. split.
    - apply Z.log2_le_pow2; [nia|]. change (2 ^ 104) with (2 ^ 52 * 2 ^ 52). nia.
    - assert (Z.log2 (m * (100 * 2 ^ 46)) < 106); [|lia].
      apply Z.log2_lt_pow2; [nia|]. change (2 ^ 106) with (2 ^ 53 * 2 ^ 53). nia. }
  rewrite <- binary_round_aux_round53 by lia.
  unfold loc_of. rewrite Z.mod_1_r, Z.div_1_r. cbn [Z.eqb].
  unfold finite_of. cbn [fst snd]. destruct m as [|pm|pm]; [lia| |lia].
  unfold PyFloat.mul_int.
  replace (PyFloat.float_of_int 100) with (S754_finite false 7036874417766400 (-46))
    by (vm_compute; reflexivity).
  unfold SFmul, PyFloat.prec, PyFloat.emax. cbn [xorb].
  replace (e + -46) with (e - 46) by lia. reflexivity.
Qed.

(** [int(x)] of a positive float truncates its value. *)
Lemma to_int_val me K :
  0 < fst me -> 0 <= K -> 0 <= snd me + K ->
  PyFloat.to_int (finite_of me) = Ok (val K me / 2 ^ K).
Proof.
  intros Hm HK He. destruct me as [m e]. cbn [fst snd] in *. unfold finite_of, val.
  cbn [fst snd]. destruct m as [|m|m]; [lia| |lia]. unfold PyFloat.to_int. f_equal.
  assert (0 < 2 ^ K) by (apply Z.pow_pos_nonneg; lia).
  destruct e as [|p|p].
  - rewrite Z.add_0_l. rewrite Z.div_mul by lia. reflexivity.
  - rewrite Z.pow_add_r, Z.mul_assoc, Z.div_mul by lia. reflexivity.
  - replace (2 ^ K) with (2 ^ Z.pos p * 2 ^ (Z.neg p + K)).
    + rewrite Z.div_mul_cancel_r; [reflexivity| |].
      * pose proof (Z.pow_pos_nonneg 2 (Z.pos p)); lia.
      * pose proof (Z.pow_pos_nonneg 2 (Z.neg p + K)); lia.
    + rewrite <- Z.pow_add_r by lia. f_equal. lia.
Qed.

Lemma div53_spec j N :
  0 < j <= N -> Z.log2 N <= 1020 ->
  2 ^ 52 <= fst (div53 j N) < 2 ^ 53 /\ -1074 <= snd (div53 j N) <= -51.
Proof.
  intros Hj HN. destruct (div53_quotient j N Hj) as (Hs & Hlo & Hq).
  pose proof (Z.log2_nonneg j).
  unfold div53. set (s := Z.log2 N - Z.log2 j + 53) in *.
  destruct (round53_spec (j * 2 ^ s) N (- s) s ltac:(lia) Hlo ltac:(lia)) as (Hm & _ & _).
  pose proof (round53_exp (j * 2 ^ s) N (- s)) as He. cbv zeta in He.
  split; [exact Hm|]. unfold s in *. lia.
Qed.

Lemma mul53_100_spec m e :
  2 ^ 52 <= m < 2 ^ 53 ->
  2 ^ 52 <= fst (mul53_100 (m, e)) < 2 ^ 53 /\ e + 6 <= snd (mul53_100 (m, e)) <= e + 8.
Proof.
  intros Hm. unfold mul53_100. cbn [fst snd].
  assert (Hl : 104 <= Z.log2 (m * (100 * 2 ^ 46) / 1) <= 105).
  { rewrite Z.div_1_r. split.
    - apply Z.log2_le_pow2; [nia|]. change (2 ^ 104) with (2 ^ 52 * 2 ^ 52). nia.
    - assert (Z.log2 (m * (100 * 2 ^ 46)) < 106); [|lia].
      apply Z.log2_lt_pow2; [nia|]. change (2 ^ 106) with (2 ^ 53 * 2 ^ 53). nia. }
  destruct (round53_spec (m * (100 * 2 ^ 46)) 1 (e - 46) (46 - e)
              ltac:(lia) ltac:(nia) ltac:(lia)) as (H1 & _ & _).
  pose proof (round53_exp (m * (100 * 2 ^ 46)) 1 (e - 46)) as He. cbv zeta in He.
  split; [exact H1|lia].
Qed.

(** Line 113 in integers: for [0 < j <= N] the percentage is the value of
    the twice rounded float, truncated. *)
Lemma progress_percent_val j N K :
  0 < j <= N -> Z.log2 N <= 1020 -> 1100 <= K ->
  progress_percent j N = Ok (val K (mul53_100 (div53 j N)) / 2 ^ K).
Proof.
  intros Hj HN HK. unfold progress_percent. rewrite truediv_div53 by assumption.
  destruct (div53_spec j N Hj HN) as [Hm He].
  destruct (div53 j N) as [m e] eqn:Ed. cbn [fst snd] in *.
  rewrite mul_int_mul53_100 by lia.
  destruct (mul53_100_spec m e Hm) as [Hm' He'].
  apply to_int_val; lia.
Qed.

Lemma div53_mono j j' N K :
  0 < j <= j' -> j' <= N -> Z.log2 N <= 1020 -> 1100 <= K ->
  val K (div53 j N) <= val K (div53 j' N).
Proof.
  intros Hj Hj' HN HK.
  destruct (div53_quotient j N ltac:(lia)) as (Hs & Hlo & _).
  destruct (div53_quotient j' N ltac:(lia)) as (Hs' & Hlo' & _).
  pose proof (Z.log2_nonneg j). pose proof (Z.log2_nonneg j').
  unfold div53. apply round53_mono; try lia.
  set (s := Z.log2 N - Z.log2 j + 53) in *. set (s' := Z.log2 N - Z.log2 j' + 53) in *.
  assert (E : forall t, 0 <= t -> t <= K -> 2 ^ t * 2 ^ (- t + K) = 2 ^ K).
  { intros t H1 H2. rewrite <- Z.pow_add_r by lia. f_equal. lia. }
  replace (j * 2 ^ s * N * 2 ^ (- s + K)) with (j * N * (2 ^ s * 2 ^ (- s + K))) by ring.
  replace (j' * 2 ^ s' * N * 2 ^ (- s' + K)) with (j' * N * (2 ^ s' * 2 ^ (- s' + K))) by ring.
  rewrite !E by (unfold s, s'; lia).
  assert (0 < 2 ^ K) by (apply Z.pow_pos_nonneg; lia).
  apply Z.mul_le_mono_nonneg_r; [lia|]. apply Z.mul_le_mono_nonneg_r; lia.
Qed.

Lemma mul53_100_mono m e m' e' K :
  2 ^ 52 <= m < 2 ^ 53 -> 2 ^ 52 <= m' < 2 ^ 53 ->
  0 <= e - 46 + K -> 0 <= e' - 46 + K ->
  val (K - 46) (m, e) <= val (K - 46) (m', e') ->
  val K (mul53_100 (m, e)) <= val K (mul53_100 (m', e')).
Proof.
  intros Hm Hm' He He' Hle. unfold mul53_100. cbn [fst snd].
  apply round53_mono; try lia; try nia.
  unfold val in Hle. cbn [fst snd] in Hle.
  replace (e - 46 + K) with (e + (K - 46)) by lia.
  replace (e' - 46 + K) with (e' + (K - 46)) by lia.
  assert (0 < 100 * 2 ^ 46) by (cbn; lia). nia.
Qed.

(** The percentage never decreases with the number of completed items. *)
Lemma progress_percent_mono j j' N :
  0 < j <= j' -> j' <= N -> Z.log2 N <= 1020 ->
  exists v v', progress_percent j N = Ok v /\ progress_percent j' N = Ok v' /\ v <= v'.
Proof.
  intros Hj Hj' HN.
  rewrite (progress_percent_val j N 1200), (progress_percent_val j' N 1200) by lia.
  eexists _, _. split; [reflexivity|]. split; [reflexivity|].
  apply Z.div_le_mono; [cbn; lia|].
  destruct (div53_spec j N ltac:(lia) HN) as [Hm He].
  destruct (div53_spec j' N ltac:(lia) HN) as [Hm' He'].
  pose proof (div53_mono j j' N (1200 - 46) Hj Hj' HN ltac:(lia)) as Hq.
  destruct (div53 j N) as [m e], (div53 j' N) as [m' e']. cbn [fst snd] in *.
  apply mul53_100_mono; lia.
Qed.

(** The quotient of a number by itself is [1.0], and the percentage 100. *)
Lemma progress_percent_all N : 0 < N -> progress_percent N N = Ok 100.
Proof.
  intros HN. unfold progress_percent.
  assert (E : PyFloat.truediv N N = Ok (S754_finite false (2 ^ 52) (-52))).
  { destruct N as [|p|p]; [lia| |lia].
    unfold PyFloat.truediv, SFdiv, SFdiv_core_binary, PyFloat.prec, PyFloat.emax. cbv zeta.
    replace (Z.min (fexp 53 1024 (Zdigits2 (Z.pos p) + 0 - (Zdigits2 (Z.pos p) + 0))) (0 - 0))
      with (-53) by (unfold fexp, emin; lia).
    change (0 - 0 - -53) with 53.
    cbv iota. rewrite Z.shiftl_mul_pow2 by lia. rewrite div_eucl_div_mod.
    rewrite (Z.mul_comm (Z.pos p)), Z.div_mul, Z.mod_mul by lia.
    replace (new_location (Z.pos p) 0) with loc_Exact
      by (unfold new_location; destruct (Z.even (Z.pos p)); reflexivity).
    vm_compute. reflexivity. }
  rewrite E. vm_compute. reflexivity.
Qed.
End Percent2.

Section PercentError.
Local Open Scope Z_scope.

Lemma div53_self N : 0 < N -> div53 N N = (2 ^ 52, -52).
Proof.
  intros HN. unfold div53. replace (Z.log2 N - Z.log2 N + 53) with 53 by lia.
  unfold round53.
  replace (N * 2 ^ 53 / N) with (2 ^ 53) by (rewrite Z.mul_comm, Z.div_mul; lia).
  change (Z.log2 (2 ^ 53) - 52) with 1. change (2 ^ 1) with 2.
  assert (E : rne (N * 2 ^ 53) (N * 2) = 2 ^ 52).
  { unfold rne. change (2 ^ 53) with (2 ^ 52 * 2).
    rewrite Z.div_mul_cancel_l, Z.mul_mod_distr_l by lia.
    rewrite Z.mod_mul, Z.div_mul, Z.mul_0_r by lia.
    destruct (Z.ltb_spec (2 * 0) (N * 2)); [reflexivity|lia]. }
  rewrite E. reflexivity.
Qed.

(** The quotient is at most [1.0] and the product at most [100.0]: their
    exponents are at most those of [1.0] and of [100.0]. *)
Lemma percent_exponents j N :
  0 < j <= N -> Z.log2 N <= 1020 ->
  snd (div53 j N) <= -52 /\ snd (mul53_100 (div53 j N)) <= -46.
Proof.
  intros Hj HN.
  destruct (div53_spec j N Hj HN) as [Hm He].
  pose proof (div53_mono j N N (1200 - 46) ltac:(lia) ltac:(lia) HN ltac:(lia)) as Hq.
  rewrite div53_self in Hq by lia.
  destruct (div53 j N) as [m e] eqn:Ed. cbn [fst snd] in *.
  destruct (mul53_100_spec m e Hm) as [Hm' He'].
  pose proof (mul53_100_mono m e (2 ^ 52) (-52) 1200 Hm ltac:(cbn; lia)
                ltac:(lia) ltac:(lia) Hq) as Hp.
  replace (mul53_100 (2 ^ 52, -52)) with (100 * 2 ^ 46, -46) in Hp
    by (vm_compute; reflexivity).
  unfold val in Hq, Hp. cbn [fst snd] in Hq, Hp.
  destruct (mul53_100 (m, e)) as [m' e'] eqn:Em. cbn [fst snd] in *.
  split.
  - assert (H1 : 2 ^ (52 + (e + (1200 - 46))) <= 2 ^ (52 + (-52 + (1200 - 46)))).
    { rewrite !Z.pow_add_r by lia.
      assert (0 < 2 ^ (e + (1200 - 46))) by (apply Z.pow_pos_nonneg; lia). nia. }
    apply Z.pow_le_mono_r_iff in H1; lia.
  - assert (H1 : 2 ^ (52 + (e' + 1200)) < 2 ^ (7 + (-46 + 1200 + 46))).
    { rewrite !Z.pow_add_r by lia.
      assert (0 < 2 ^ (e' + 1200)) by (apply Z.pow_pos_nonneg; lia).
      assert (0 < 2 ^ (-46 + 1200)) by (apply Z.pow_pos_nonneg; lia).
      change (2 ^ 7) with 128. change (2 ^ 46) with 70368744177664 in *. nia. }
    apply Z.pow_lt_mono_r_iff in H1; lia.
Qed.

(** The twice rounded value is within [82 * 2^-52] of [100 * j / N]. *)
Lemma percent_error j N :
  0 < j <= N -> Z.log2 N <= 1020 ->
  Z.abs (val 1200 (mul53_100 (div53 j N)) * N - 100 * j * 2 ^ 1200)
    <= 82 * N * 2 ^ 1148.
Proof.
  intros Hj HN.
  destruct (percent_exponents j N Hj HN) as [Eq Ep].
  destruct (div53_spec j N Hj HN) as [Hm He].
  destruct (div53_quotient j N Hj) as (Hs & Hlo & _).
  pose proof (Z.log2_nonneg j).
  assert (Hq : 2 * Z.abs (val 1200 (div53 j N) * N - j * 2 ^ 1200)
               <= N * 2 ^ (snd (div53 j N) + 1200)).
  { unfold div53 in *. set (s := Z.log2 N - Z.log2 j + 53) in *.
    destruct (round53_spec (j * 2 ^ s) N (- s) 1200 ltac:(lia) Hlo ltac:(lia))
      as (_ & _ & Herr).
    replace (j * 2 ^ s * 2 ^ (- s + 1200)) with (j * 2 ^ 1200) in Herr; [exact Herr|].
    rewrite <- Z.mul_assoc, <- Z.pow_add_r by lia. do 2 f_equal. lia. }
  destruct (div53 j N) as [m e] eqn:Ed. cbn [fst snd] in *.
  assert (Hp : 2 * Z.abs (val 1200 (mul53_100 (m, e)) - 100 * val 1200 (m, e))
               <= 2 ^ (snd (mul53_100 (m, e)) + 1200)).
  { unfold mul53_100 in *. cbn [fst snd] in *.
    destruct (round53_spec (m * (100 * 2 ^ 46)) 1 (e - 46) 1200
                ltac:(lia) ltac:(nia) ltac:(lia)) as (_ & _ & Herr).
    rewrite Z.mul_1_r, Z.mul_1_l in Herr.
    replace (m * (100 * 2 ^ 46) * 2 ^ (e - 46 + 1200)) with (100 * val 1200 (m, e)) in Herr;
      [exact Herr|].
    unfold val. cbn [fst snd].
    replace (e + 1200) with (46 + (e - 46 + 1200)) by lia.
    rewrite Z.pow_add_r by lia. ring. }
  set (P := val 1200 (mul53_100 (m, e))) in *. set (V := val 1200 (m, e)) in *.
  assert (B1 : 2 ^ (e + 1200) <= 2 ^ 1148) by (apply Z.pow_le_mono_r; lia).
  assert (B2 : 2 ^ (snd (mul53_100 (m, e)) + 1200) <= 2 ^ 1154)
    by (apply Z.pow_le_mono_r; lia).
  change (2 ^ 1154) with (64 * 2 ^ 1148) in B2.
  set (W := 2 ^ 1148) in *. assert (HW : 0 < W) by (unfold W; apply Z.pow_pos_nonneg; lia).
  clearbody P V W.
  assert (C1 : 2 * Z.abs (V * N - j * 2 ^ 1200) <= N * W) by nia.
  assert (C2 : 2 * Z.abs (P - 100 * V) <= 64 * W) by lia.
  assert (C3 : 2 * Z.abs (P * N - 100 * V * N) <= 64 * W * N).
  { replace (P * N - 100 * V * N) with ((P - 100 * V) * N) by ring.
    rewrite Z.abs_mul, (Z.abs_eq N) by lia. nia. }
  lia.
Qed.

(** The percentage against the exact [100 * j / N]: never more than its
    integer part for a list of at most [2^45] items, at most one less, and
    equal to it unless [100 * j / N] is an integer. *)
Lemma progress_percent_floor j N :
  0 < j <= N -> Z.log2 N <= 1020 ->
  exists v, progress_percent j N = Ok v /\
    100 * j / N - 1 <= v /\
    (N <= 2 ^ 45 -> v <= 100 * j / N /\ ((100 * j) mod N <> 0 -> v = 100 * j / N)).
Proof.
  intros Hj HN. rewrite (progress_percent_val j N 1200) by lia.
  eexists. split; [reflexivity|].
  pose proof (percent_error j N Hj HN) as Herr.
  set (P := val 1200 (mul53_100 (div53 j N))) in *. clearbody P.
  assert (HN0 : 0 < N) by lia.
  pose proof (Z.div_mod (100 * j) N ltac:(lia)) as HE.
  pose proof (Z.mod_pos_bound (100 * j) N HN0) as Hr.
  set (T := 100 * j / N) in *. set (r := (100 * j) mod N) in *. clearbody T r.
  change (2 ^ 1200) with (2 ^ 52 * 2 ^ 1148) in *.
  set (W := 2 ^ 1148) in *. assert (HW : 0 < W) by (unfold W; apply Z.pow_pos_nonneg; lia).
  clearbody W.
  assert (HWp : 0 < 2 ^ 52 * W) by lia.
  change (2 ^ 52) with 4503599627370496 in *. change (2 ^ 45) with 35184372088832.
  assert (Hlow : forall X, X * N * (4503599627370496 * W) <= P * N -> X <= P / (4503599627370496 * W)).
  { intros X H. apply Z.div_le_lower_bound; [lia|].
    apply (Z.mul_le_mono_pos_r _ _ N HN0). lia. }
  assert (Hupp : forall X, P * N < (X + 1) * N * (4503599627370496 * W) ->
                   P / (4503599627370496 * W) <= X).
  { intros X H. assert (P / (4503599627370496 * W) < X + 1); [|lia].
    apply Z.div_lt_upper_bound; [lia|].
    apply (Z.mul_lt_mono_pos_r N _ _ HN0). lia. }
  assert (ENW : 0 < N * W) by nia.
  split; [|intros Hb; split; [|intros Hne]].
  - apply Hlow. nia.
  - apply Hupp. nia.
  - assert (T <= P / (4503599627370496 * W)); [apply Hlow; nia|].
    assert (P / (4503599627370496 * W) <= T); [apply Hupp; nia|]. lia.
Qed.
End PercentError.

(** ** The percentages of a run *)

Lemma percentages_app l l' : percentages (l ++ l') = percentages l ++ percentages l'.
Proof.
  induction l as [|sg l IH]; [reflexivity|]. destruct sg; cbn; rewrite IH; reflexivity.
Qed.

(** A task emits item signals only. *)
Lemma task_step_emitted env self i w p w' p' :
  task_step env self i w p = Some (w', p') ->
  exists l, emitted w' = emitted w ++ l /\ percentages l = [].
Proof.
  destruct p; cbn [task_step]; intros H.
  - injection H as <- <-. eexists. split; reflexivity.
  - destruct (extract_audio_from_video env (disk w) (item_path w i)).
    injection H as <- <-. exists []. rewrite app_nil_r. split; reflexivity.
  - destruct (model_transcribe env _ _ _ _); injection H as <- <-.
    + eexists. split; reflexivity.
    + exists []. rewrite app_nil_r. split; reflexivity.
  - exists []. rewrite app_nil_r. split; [|reflexivity].
    destruct (temp_present temp w) as [t|]; [destruct (os_remove env (disk w) t)|];
      injection H as <- <-; reflexivity.
  - injection H as <- <-. unfold handle_exception. rewrite emitted_remove_quietly.
    eexists. split; reflexivity.
  - discriminate.
Qed.

Lemma maxsize_log2 N : (0 < N <= maxsize)%Z -> (Z.log2 N <= 1020)%Z.
Proof.
  intros H. assert (Z.log2 N < 63)%Z; [|lia].
  apply Z.log2_lt_pow2; unfold maxsize in H; lia.
Qed.

Lemma progress_percent_Ok j N :
  (0 < j <= N)%Z -> (N <= maxsize)%Z -> exists v, progress_percent j N = Ok v.
Proof.
  intros Hj HN.
  destruct (progress_percent_mono j j N ltac:(lia) ltac:(lia)
              (maxsize_log2 N ltac:(lia))) as (v & _ & H & _).
  eauto.
Qed.

Lemma step_percent env self N E0 s s' :
  (Z.of_nat N <= maxsize)%Z ->
  step env s s' -> shape_inv env self N s -> percent_inv N E0 s -> percent_inv N E0 s'.
Proof.
  intros HN [c Hc] (Hw & Hn & Hd & Ha & Hr) (new & He & Hps & Hrun).
  destruct c as [|i|]; cbn [step_fn] in Hc.
  - rewrite Hw in Hc. unfold run_step in Hc.
    destruct (runner s) as [| | |total c|e|] eqn:Er; try contradiction; try discriminate.
    + injection Hc as <-. exists (new ++ [progress_update (-1) "Загрузка Whisper..." "Загрузка"]).
      cbn. rewrite He, app_assoc, percentages_app, Hrun. cbn. split; [reflexivity|].
      split; [|reflexivity]. intros i v H. rewrite lookup_nil in H. discriminate.
    + assert (Hnil : forall sgs, percentages sgs = [] ->
                forall i v, (percentages new ++ percentages sgs) !! i = Some v ->
                  progress_percent (Z.of_nat (S i)) (Z.of_nat N) = Ok v).
      { intros sgs E i v. rewrite E, app_nil_r. apply Hps. }
      destruct (load_model env (model_name self)) eqn:El.
      * destruct (max_workers self) as [|k] eqn:Ek; injection Hc as <-.
        -- eexists (new ++ [_; _; _]). cbn. rewrite He, <- !app_assoc. cbn.
           split; [reflexivity|]. rewrite percentages_app. cbn.
           split; [apply (Hnil []); reflexivity|]. rewrite Hrun, Hr. reflexivity.
        -- eexists (new ++ [_]). cbn. rewrite He, <- !app_assoc. cbn.
           split; [reflexivity|]. rewrite percentages_app. cbn.
           split; [apply (Hnil []); reflexivity|]. rewrite Hrun. reflexivity.
      * injection Hc as <-. eexists (new ++ [_; _]). cbn. rewrite He, <- !app_assoc. cbn.
        split; [reflexivity|]. rewrite percentages_app. cbn.
        split; [apply (Hnil []); reflexivity|]. rewrite Hrun, Hr. reflexivity.
    + destruct Hr as (-> & Hl & Hc').
      destruct (c <? count is_settled (pool s))%nat eqn:Elt.
      * apply Nat.ltb_lt in Elt. pose proof (count_le_length is_settled (pool s)) as Hcl.
        destruct (progress_percent_Ok (Z.of_nat (S c)) (Z.of_nat N) ltac:(lia) HN) as [v Hv].
        rewrite Hv in Hc. injection Hc as <-.
        exists (new ++ [file_progress v]). cbn. rewrite He, <- app_assoc.
        split; [reflexivity|]. rewrite percentages_app. cbn [percentages].
        split; [|rewrite length_app; cbn; lia].
        intros i w Hi. destruct (decide (i < length (percentages new))%nat) as [Hlt|Hge].
        -- rewrite lookup_app_l in Hi by exact Hlt. apply Hps, Hi.
        -- rewrite lookup_app_r in Hi by lia.
           destruct (i - length (percentages new))%nat as [|k] eqn:Ek; [|discriminate].
           injection Hi as <-. replace i with c by lia. exact Hv.
      * destruct (c =? length (pool s))%nat eqn:Eeq; [|discriminate].
        apply Nat.eqb_eq in Eeq. injection Hc as <-.
        exists (new ++ [finished]). cbn. rewrite He, <- app_assoc.
        split; [reflexivity|]. rewrite percentages_app, app_nil_r.
        split; [exact Hps|lia].
  - rewrite Hw in Hc. unfold pool_step in Hc.
    destruct (pool s !! i) as [p|] eqn:Ep; [|discriminate].
    destruct (is_queued p && negb (can_start i (pool s) (max_workers self))); [discriminate|].
    destruct (task_step env self i (world s) p) as [[w' p']|] eqn:Et; [|discriminate].
    injection Hc as <-.
    destruct (task_step_emitted _ _ _ _ _ _ _ Et) as (l & El & Hl).
    exists (new ++ l). cbn. rewrite El, He, <- app_assoc. split; [reflexivity|].
    rewrite percentages_app, Hl, app_nil_r. split; [exact Hps|].
    destruct (runner s); rewrite ?length_insert; assumption.
  - destruct (gui_step_shape _ _ Hc) as (_ & Hem & _ & _ & Hp & Hrn & _).
    exists new. rewrite Hem, Hp, Hrn. auto.
Qed.

Lemma start_transcription_percent s0 :
  ready s0 ->
  percent_inv (length (files (world s0))) (emitted (world s0)) (start_transcription s0).
Proof.
  intros (Hf & Hrun & Hd). unfold start_transcription.
  destruct (files (world s0)) as [|it0 l] eqn:Ef; [congruence|].
  rewrite Hrun, andb_false_r. exists []. cbn. rewrite app_nil_r.
  split; [reflexivity|]. split; [|reflexivity].
  intros i v H. rewrite lookup_nil in H. discriminate.
Qed.

Lemma rtc_percent_from env self N E0 s s' :
  (Z.of_nat N <= maxsize)%Z ->
  rtc (step env) s s' -> shape_inv env self N s -> percent_inv N E0 s ->
  shape_inv env self N s' /\ percent_inv N E0 s'.
Proof.
  intros HN. induction 1 as [|s1 s2 s3 Hst _ IH]; [auto|].
  intros Hsh Hp. apply IH; [eapply step_shape|eapply step_percent]; eauto.
Qed.

(** The percentages of a run, in every state of every execution. *)
Lemma run_percentages env s0 s :
  ready s0 -> (Z.of_nat (length (files (world s0))) <= maxsize)%Z ->
  rtc (step env) (start_transcription s0) s ->
  emitted (world s) = emitted (world s0) ++ since s0 s /\
  (forall i v, percentages (since s0 s) !! i = Some v ->
     progress_percent (Z.of_nat (S i)) (Z.of_nat (length (files (world s0)))) = Ok v) /\
  (length (percentages (since s0 s)) <= count is_settled (pool s))%nat /\
  (runner s = RFinished -> length (percentages (since s0 s)) = length (pool s)).
Proof.
  intros Hready HN Hs.
  destruct (run_invariants env _ _ Hready (rtc_refl _ _)) as (self & _ & _ & Hsh0).
  destruct (rtc_percent_from env self _ _ _ _ HN Hs Hsh0
              (start_transcription_percent s0 Hready))
    as [(Hw & Hn & Hd & Ha & Hr) (new & He & Hps & Hrun)].
  assert (Hsince : since s0 s = new).
  { unfold since. rewrite He, drop_app_length. reflexivity. }
  rewrite Hsince. split; [exact He|]. split; [exact Hps|].
  destruct (runner s) as [| | |total c|e|]; try contradiction.
  - rewrite Hrun. cbn. split; [lia|discriminate].
  - rewrite Hrun. cbn. split; [lia|discriminate].
  - split; [lia|discriminate].
  - destruct Hr as [Hall _]. split; [lia|auto].
Qed.

Lemma escape_percent N E0 s s' : escape_step s s' -> percent_inv N E0 s -> percent_inv N E0 s'.
Proof.
  intros (i & p & d & Ep & Hq & Hs & ->) (new & He & Hps & Hrun).
  exists new. cbn. split; [exact He|]. split; [exact Hps|].
  destruct (runner s); rewrite ?length_insert; assumption.
Qed.

Lemma rtc_esc_percent_from esc env self N E0 s s' :
  (Z.of_nat N <= maxsize)%Z ->
  rtc (step_esc esc env) s s' -> shape_inv env self N s -> percent_inv N E0 s ->
  shape_inv env self N s' /\ percent_inv N E0 s'.
Proof.
  intros HN. induction 1 as [|s1 s2 s3 Hst _ IH]; [auto|].
  intros Hsh Hp. apply IH; [eapply step_esc_shape; eauto|].
  destruct (step_esc_cases _ _ _ _ Hst); [eapply step_percent|eapply escape_percent]; eauto.
Qed.

(** The percentages of a run, in every state of every execution, whether or
    not exceptions leave its tasks. *)
Lemma run_esc_percentages esc env s0 s :
  ready s0 -> (Z.of_nat (length (files (world s0))) <= maxsize)%Z ->
  rtc (step_esc esc env) (start_transcription s0) s ->
  emitted (world s) = emitted (world s0) ++ since s0 s /\
  (forall i v, percentages (since s0 s) !! i = Some v ->
     progress_percent (Z.of_nat (S i)) (Z.of_nat (length (files (world s0)))) = Ok v) /\
  (length (percentages (since s0 s)) <= count is_settled (pool s))%nat /\
  (runner s = RFinished -> length (percentages (since s0 s)) = length (pool s)).
Proof.
  intros Hready HN Hs.
  destruct (run_invariants env _ _ Hready (rtc_refl _ _)) as (self & _ & _ & Hsh0).
  destruct (rtc_esc_percent_from esc env self _ _ _ _ HN Hs Hsh0
              (start_transcription_percent s0 Hready))
    as [(Hw & Hn & Hd & Ha & Hr) (new & He & Hps & Hrun)].
  assert (Hsince : since s0 s = new).
  { unfold since. rewrite He, drop_app_length. reflexivity. }
  rewrite Hsince. split; [exact He|]. split; [exact Hps|].
  destruct (runner s) as [| | |total c|e|]; try contradiction.
  - rewrite Hrun. cbn. split; [lia|discriminate].
  - rewrite Hrun. cbn. split; [lia|discriminate].
  - split; [lia|discriminate].
  - destruct Hr as [Hall _]. split; [lia|auto].
Qed.

(** ** The percentages that a run emits *)

Lemma nondecreasing_lookup l :
  (forall i x y, l !! i = Some x -> l !! S i = Some y -> (x <= y)%Z) -> nondecreasing l.
Proof.
  induction l as [|x l IH]; intros H; [exact I|].
  destruct l as [|y l]; [exact I|]. split.
  - apply (H 0%nat); reflexivity.
  - apply IH. intros i a b Ha Hb. apply (H (S i)); assumption.
Qed.

Lemma last_lookup_length {A} (l : list A) x :
  l !! (length l - 1)%nat = Some x -> l <> [] -> last l = Some x.
Proof.
  intros H Hne. rewrite last_lookup. rewrite <- H. f_equal. lia.
Qed.

(** C7.  A run over a list of at most [sys.maxsize] items always comes to
    an end, and can only stop once it has settled.  In every state of every
    execution the percentages emitted so far never decrease and are at most
    as many as the tasks that have settled, with whatever outcome: done,
    failed, or cut short by an exception that line 85 does not catch; as
    long as a settled task has not been reported, [run] can emit the next
    percentage; and once the run has settled with a model that loaded there
    is one percentage for each item, and the last one is 100. *)
Theorem C7_progress_monotone esc env s0 :
  ready s0 ->
  (Z.of_nat (length (files (world s0))) <= maxsize)%Z ->
  sn (step_esc esc env) (start_transcription s0) /\
  forall s, rtc (step_esc esc env) (start_transcription s0) s ->
    nondecreasing (percentages (since s0 s)) /\
    (length (percentages (since s0 s)) <= count is_settled (pool s))%nat /\
    ((length (percentages (since s0 s)) < count is_settled (pool s))%nat ->
     exists s' v, step_esc esc env s s' /\
       percentages (since s0 s') = percentages (since s0 s) ++ [v]) /\
    (nf (step_esc esc env) s -> settled s) /\
    (settled s -> load_model env (model_combo (gui s0)) = Ok tt ->
     length (percentages (since s0 s)) = length (files (world s0)) /\
     last (percentages (since s0 s)) = Some 100%Z).
Proof.
  intros Hready HN.
  destruct (run_invariants env _ _ Hready (rtc_refl _ _)) as (self0 & _ & _ & Hsh0).
  split; [eapply run_esc_sn; exact Hsh0|].
  intros s Hs.
  destruct (run_esc_percentages esc env s0 s Hready HN Hs) as (He & Hps & Hlen & Hfin).
  destruct (run_invariants_esc esc env s0 s Hready Hs) as (self & Hk & Hm & Hsh & _).
  pose proof (count_le_length is_settled (pool s)) as Hcl.
  assert (Hbound : (length (percentages (since s0 s)) <= length (files (world s0)))%nat).
  { destruct (shape_pool _ _ _ _ Hsh) as [Hnil|Hl];
      [rewrite Hnil in Hcl, Hlen; cbn in Hcl, Hlen|]; lia. }
  split; [|split; [exact Hlen|split; [|split]]].
  - apply nondecreasing_lookup. intros i x y Hx Hy.
    pose proof (lookup_lt_Some _ _ _ Hy) as Hlt.
    apply Hps in Hx, Hy.
    assert (Hlog : (Z.log2 (Z.of_nat (length (files (world s0)))) <= 1020)%Z)
      by (apply maxsize_log2; lia).
    destruct (progress_percent_mono (Z.of_nat (S i)) (Z.of_nat (S (S i)))
                (Z.of_nat (length (files (world s0)))) ltac:(lia) ltac:(lia) Hlog)
      as (v & v' & Hv & Hv' & Hle).
    congruence.
  - intros Hlt.
    destruct (rtc_esc_percent_from esc env self0 _ _ _ _ HN Hs Hsh0
                (start_transcription_percent s0 Hready))
      as [(Hw & Hn & Hd & Ha & Hr) (new & He' & _ & Hrun)].
    assert (Hsince : since s0 s = new).
    { unfold since. rewrite He', drop_app_length. reflexivity. }
    rewrite Hsince in *.
    destruct (runner s) as [| | |total c|e|] eqn:Er; try contradiction.
    + rewrite Hr in Hlt. cbn in Hlt. lia.
    + rewrite Hr in Hlt. cbn in Hlt. lia.
    + destruct Hr as (-> & Hl & Hc'). subst c.
      destruct (progress_percent_Ok (Z.of_nat (S (length (percentages new))))
                  (Z.of_nat (length (files (world s0)))) ltac:(lia) HN) as [v Hv].
      eexists _, v. split.
      * exists CRun. cbn [step_fn_esc step_fn]. rewrite Hw. unfold run_step. rewrite Er.
        rewrite (proj2 (Nat.ltb_lt _ _) Hlt), Hv. reflexivity.
      * unfold since. cbn. rewrite He', <- app_assoc, drop_app_length, percentages_app.
        reflexivity.
    + lia.
  - intros Hnf. destruct (settled_dec s) as [H|H]; [exact H|].
    exfalso. apply Hnf. eapply run_esc_progress; [exact Hsh|lia|exact H].
  - intros Hset Hload.
    assert (Hpool : length (pool s) = length (files (world s0))).
    { destruct Hset as [Hrun _]. destruct Hsh as (_ & Hn & _ & _ & Hr). rewrite Hrun in Hr.
      destruct Hr as [_ [Hl|[_ [[e He']|H0]]]]; [exact Hl| |lia].
      rewrite Hm, Hload in He'. discriminate. }
    set (ps := percentages (since s0 s)) in *.
    assert (Hl : length ps = length (files (world s0))).
    { rewrite <- Hpool. apply Hfin, Hset. }
    split; [exact Hl|].
    assert (Hpos : (0 < length (files (world s0)))%nat).
    { destruct Hready as (Hf & _). destruct (files (world s0)); [congruence|cbn; lia]. }
    assert (is_Some (ps !! (length ps - 1)%nat)) as [v Hv]
      by (apply lookup_lt_is_Some; lia).
    apply last_lookup_length; [|intros E; rewrite E in Hl; cbn in Hl; lia].
    rewrite Hv. f_equal. apply Hps in Hv.
    replace (S (length ps - 1)) with (length (files (world s0))) in Hv by lia.
    rewrite progress_percent_all in Hv by lia. congruence.
Qed.

Lemma C7_progress_monotone_witness :
  let esc := engine_exits in
  let env := Examples.env_ok "hello" in
  let s0 := initial ["interview.mp3"] ∅ in
  let s := one_audio_engine_exits in
  sn (step_esc esc env) (start_transcription s0) /\
  rtc (step_esc esc env) (start_transcription s0) s /\
  settled s /\
  percentages (since s0 s) = [100%Z] /\
  nondecreasing (percentages (since s0 s)) /\
  length (percentages (since s0 s)) = length (files (world s0)) /\
  last (percentages (since s0 s)) = Some 100%Z.
Proof.
  assert (Hready : ready (initial ["interview.mp3"] ∅))
    by (apply initial_ready; discriminate).
  assert (HN : (Z.of_nat (length (files (world (initial ["interview.mp3"] ∅)))) <= maxsize)%Z)
    by (vm_compute; discriminate).
  destruct (C7_progress_monotone engine_exits (Examples.env_ok "hello")
              (initial ["interview.mp3"] ∅) Hready HN) as [Hsn Hall].
  assert (Hset : settled one_audio_engine_exits)
    by (split; vm_compute; reflexivity).
  assert (Hreach : rtc (step_esc engine_exits (Examples.env_ok "hello"))
                     (start_transcription (initial ["interview.mp3"] ∅))
                     one_audio_engine_exits)
    by (unfold one_audio_engine_exits; apply exec_esc_rtc).
  destruct (Hall one_audio_engine_exits Hreach) as (Hnd & _ & _ & _ & Hfin).
  destruct (Hfin Hset eq_refl) as [Hlen Hlast].
  split; [exact Hsn|]. split; [exact Hreach|]. split; [exact Hset|].
  split; [vm_compute; reflexivity|]. split; [exact Hnd|]. split; [exact Hlen|exact Hlast].
Defined.

Lemma fifty_reachable :
  rtc (step (Examples.env_ok "text")) (start_transcription Fifty.start) Fifty.after_29.
Proof. unfold Fifty.after_29. apply exec_rtc. Qed.

(** C9 as stated fails: of fifty items, when the twenty-ninth has settled
    the percentage emitted is 57, and the integer part of 100 * 29 / 50
    is 58. *)
Lemma C9_counterexample :
  ready Fifty.start /\
  rtc (step (Examples.env_ok "text")) (start_transcription Fifty.start) Fifty.after_29 /\
  length (files (world Fifty.start)) = 50%nat /\
  count is_settled (pool Fifty.after_29) = 29%nat /\
  percentages (since Fifty.start Fifty.after_29) !! 28%nat = Some 57%Z /\
  (100 * 29 / 50 = 58)%Z.
Proof.
  split; [apply initial_ready; discriminate|].
  split; [apply fifty_reachable|].
  vm_compute. repeat split.
Qed.

(** C9, amended.  The percentage emitted after the [j]-th item settles is
    [int((j / N) * 100)] in binary64 arithmetic.  It is at least the integer
    part of [100 * j / N] minus one; for a list of at most [2^45] items it
    is at most that integer part, and equal to it whenever [100 * j / N] is
    not an integer (33 after one of three); after the last item it is
    100. *)
Theorem C9_percentage_value env s0 s i v :
  ready s0 ->
  (Z.of_nat (length (files (world s0))) <= maxsize)%Z ->
  rtc (step env) (start_transcription s0) s ->
  percentages (since s0 s) !! i = Some v ->
  let N := Z.of_nat (length (files (world s0))) in
  let j := Z.of_nat (S i) in
  (j <= N)%Z /\
  progress_percent j N = Ok v /\
  (100 * j / N - 1 <= v)%Z /\
  ((N <= 2 ^ 45)%Z ->
   (v <= 100 * j / N)%Z /\ (((100 * j) mod N)%Z <> 0%Z -> v = (100 * j / N)%Z)) /\
  (j = N -> v = 100%Z).
Proof.
  intros Hready HN Hs Hi N j.
  destruct (run_percentages env s0 s Hready HN Hs) as (He & Hps & Hlen & Hfin).
  destruct (run_invariants env s0 s Hready Hs) as (self & Hk & Hm & Hsh).
  pose proof (count_le_length is_settled (pool s)) as Hcl.
  pose proof (lookup_lt_Some _ _ _ Hi) as Hlt.
  assert (Hj : (j <= N)%Z).
  { unfold j, N. destruct (shape_pool _ _ _ _ Hsh) as [Hnil|Hl];
      [rewrite Hnil in Hcl, Hlen; cbn in Hcl, Hlen|]; lia. }
  specialize (Hps i v Hi). fold N j in Hps.
  assert (Hlog : (Z.log2 N <= 1020)%Z) by (apply maxsize_log2; unfold j, N in *; lia).
  destruct (progress_percent_floor j N ltac:(unfold j; lia) Hlog)
    as (v' & Hv' & Hlow & Hup).
  assert (v' = v) by congruence. subst v'.
  split; [exact Hj|]. split; [exact Hps|]. split; [exact Hlow|]. split; [exact Hup|].
  intros E. rewrite E, progress_percent_all in Hps by (unfold j in *; lia). congruence.
Qed.

Lemma C9_percentage_value_witness :
  let s0 := Fifty.start in
  let N := Z.of_nat (length (files (world s0))) in
  let j := Z.of_nat 29 in
  (j <= N)%Z /\
  progress_percent j N = Ok 57%Z /\
  (100 * j / N - 1 <= 57)%Z /\
  ((N <= 2 ^ 45)%Z ->
   (57 <= 100 * j / N)%Z /\ (((100 * j) mod N)%Z <> 0%Z -> 57%Z = (100 * j / N)%Z)) /\
  (j = N -> 57%Z = 100%Z).
Proof.
  apply (C9_percentage_value (Examples.env_ok "text") Fifty.start Fifty.after_29 28 57).
  - apply initial_ready. discriminate.
  - vm_compute. discriminate.
  - apply fifty_reachable.
  - vm_compute. reflexivity.
Defined.

(** * Further properties

    ** The worklist *)

Lemma listed_spec p l : listed p l = true <-> p ∈ map file_path l.
Proof.
  unfold listed. rewrite existsb_exists. split.
  - intros (f & Hin & Hf). apply bool_decide_eq_true in Hf. subst p.
    apply list_elem_of_fmap. exists f. split; [reflexivity|]. apply list_elem_of_In, Hin.
  - intros H. apply list_elem_of_fmap in H as (f & -> & Hin).
    exists f. split; [apply list_elem_of_In, Hin|]. apply bool_decide_eq_true. reflexivity.
Qed.

Lemma listed_false p l : listed p l = false <-> p ∉ map file_path l.
Proof.
  destruct (listed p l) eqn:E.
  - split; [discriminate|]. intros H. exfalso. apply H, listed_spec, E.
  - split; [|reflexivity]. intros _ H. apply listed_spec in H. congruence.
Qed.

Lemma append_new_paths l p x :
  x ∈ map file_path (append_new l p) <-> x ∈ map file_path l \/ x = p.
Proof.
  unfold append_new. destruct (listed p l) eqn:E.
  - apply listed_spec in E. split; [auto|]. intros [H| ->]; assumption.
  - rewrite map_app, elem_of_app. cbn. rewrite list_elem_of_singleton. reflexivity.
Qed.

Lemma append_new_NoDup l p :
  NoDup (map file_path l) -> NoDup (map file_path (append_new l p)).
Proof.
  intros H. unfold append_new. destruct (listed p l) eqn:E; [exact H|].
  apply listed_false in E. rewrite map_app. apply NoDup_app. split; [exact H|].
  split; [|apply NoDup_singleton].
  intros x Hx Hx'. cbn in Hx'. apply list_elem_of_singleton in Hx'. subst x. contradiction.
Qed.

(** What [append_new] adds to a list: nothing or one pending item. *)
Lemma append_new_app l p :
  exists new, append_new l p = l ++ new /\ Forall (fun it => it = new_FileItem (file_path it)) new.
Proof.
  unfold append_new. destruct (listed p l).
  - exists []. rewrite app_nil_r. split; [reflexivity|constructor].
  - exists [new_FileItem p]. split; [reflexivity|]. repeat constructor.
Qed.

Lemma fold_append_new chosen l :
  let l' := fold_left append_new chosen l in
  (NoDup (map file_path l) -> NoDup (map file_path l')) /\
  (exists new, l' = l ++ new /\ Forall (fun it => it = new_FileItem (file_path it)) new) /\
  (forall p, p ∈ map file_path l' <-> p ∈ map file_path l \/ p ∈ chosen).
Proof.
  revert l. induction chosen as [|c chosen IH]; intros l; cbn.
  - split; [auto|]. split.
    + exists []. rewrite app_nil_r. split; [reflexivity|constructor].
    + intros p. split; [auto|]. intros [H|H]; [exact H|]. apply elem_of_nil in H. contradiction.
  - destruct (IH (append_new l c)) as (Hnd & (new & Hnew & Hall) & Hmem).
    split; [|split].
    + intros H. apply Hnd, append_new_NoDup, H.
    + destruct (append_new_app l c) as (new0 & E0 & Hall0).
      exists (new0 ++ new). rewrite Hnew, E0, app_assoc. split; [reflexivity|].
      apply Forall_app. split; assumption.
    + intros p. rewrite Hmem, append_new_paths, elem_of_cons. tauto.
Qed.

(** X1.  [add_files] keeps a worklist without duplicate paths free of
    them, whatever the dialog returned; the items already listed stay as
    they are and where they are, followed by new pending items; and the
    paths listed afterwards are those listed before and those chosen. *)
Theorem add_files_worklist chosen s :
  NoDup (map file_path (files (world s))) ->
  NoDup (map file_path (files (world (add_files chosen s)))) /\
  (exists new, files (world (add_files chosen s)) = files (world s) ++ new /\
               Forall (fun it => it = new_FileItem (file_path it)) new) /\
  (forall p, p ∈ map file_path (files (world (add_files chosen s))) <->
             p ∈ map file_path (files (world s)) \/ p ∈ chosen).
Proof.
  intros H. destruct (fold_append_new chosen (files (world s))) as (H1 & H2 & H3).
  cbn. auto.
Qed.

Lemma add_files_worklist_witness :
  let s := initial ["a.mp3"] ∅ in
  let chosen := ["b.wav"; "a.mp3"; "b.wav"] in
  NoDup (map file_path (files (world (add_files chosen s)))) /\
  (exists new, files (world (add_files chosen s)) = files (world s) ++ new /\
               Forall (fun it => it = new_FileItem (file_path it)) new) /\
  (forall p, p ∈ map file_path (files (world (add_files chosen s))) <->
             p ∈ map file_path (files (world s)) \/ p ∈ chosen).
Proof.
  apply (add_files_worklist ["b.wav"; "a.mp3"; "b.wav"] (initial ["a.mp3"] ∅)).
  cbn. apply NoDup_singleton.
Defined.

Lemma fold_append_new_listed chosen l :
  (forall p, p ∈ chosen -> p ∈ map file_path l) -> fold_left append_new chosen l = l.
Proof.
  induction chosen as [|c chosen IH]; intros H; [reflexivity|]. cbn.
  assert (E : append_new l c = l).
  { unfold append_new. rewrite (proj2 (listed_spec c l)); [reflexivity|].
    apply H. left. }
  rewrite E. apply IH. intros p Hp. apply H. right. exact Hp.
Qed.

(** X2.  Choosing the same files again changes nothing: [add_files] is
    idempotent. *)
Theorem add_files_idempotent chosen s :
  add_files chosen (add_files chosen s) = add_files chosen s.
Proof.
  unfold add_files, with_files, with_world. cbn. f_equal. f_equal.
  apply fold_append_new_listed. intros p Hp.
  apply (proj2 (proj2 (fold_append_new chosen (files (world s))))). right. exact Hp.
Qed.

Lemma scan_folder_spec entries l :
  let l' := scan_folder entries l in
  (NoDup (map file_path l) -> NoDup (map file_path l')) /\
  (exists new, l' = l ++ new /\ Forall (fun it => it = new_FileItem (file_path it)) new) /\
  (forall p, p ∈ map file_path l' <->
     p ∈ map file_path l \/
     exists e, e ∈ entries /\ entry_is_file e = true /\ is_media (entry_path e) = true /\
               entry_path e = p).
Proof.
  revert l. unfold scan_folder. induction entries as [|e entries IH]; intros l; cbn.
  - split; [auto|]. split.
    + exists []. rewrite app_nil_r. split; [reflexivity|constructor].
    + intros p. split; [auto|]. intros [H|(e & H & _)]; [exact H|].
      apply elem_of_nil in H. contradiction.
  - destruct (IH (scan_entry l e)) as (Hnd & (new & Hnew & Hall) & Hmem).
    unfold scan_entry in *. destruct (entry_is_file e && is_media (entry_path e)) eqn:Ee.
    + apply andb_true_iff in Ee as [Ef Em]. split; [|split].
      * intros H. apply Hnd, append_new_NoDup, H.
      * destruct (append_new_app l (entry_path e)) as (new0 & E0 & Hall0).
        exists (new0 ++ new). rewrite Hnew, E0, app_assoc. split; [reflexivity|].
        apply Forall_app. split; assumption.
      * intros p. rewrite Hmem, append_new_paths. split.
        -- intros [[H| ->]|(e' & Hin & H)]; [auto| |].
           ++ right. exists e. split; [left|auto].
           ++ right. exists e'. split; [right; exact Hin|exact H].
        -- intros [H|(e' & Hin & Hf & Hm & Hp)]; [auto|].
           apply elem_of_cons in Hin as [->|Hin]; [auto|].
           right. exists e'. auto.
    + split; [exact Hnd|]. split; [eauto|].
      intros p. rewrite Hmem. split.
      * intros [H|(e' & Hin & H)]; [auto|]. right. exists e'. split; [right; exact Hin|exact H].
      * intros [H|(e' & Hin & Hf & Hm & Hp)]; [auto|].
        apply elem_of_cons in Hin as [->|Hin].
        -- rewrite Hf, Hm in Ee. discriminate.
        -- right. exists e'. auto.
Qed.

(** The lower case of the Kelvin sign is the letter k: a file whose suffix
    is written with it counts as a video and as a media file, as in
    Python. *)
Lemma is_media_kelvin_sign :
  Str.lower ".mKv" = ".mkv" /\ is_video "clip.mKv" = true /\
  is_media "clip.mKv" = true /\ is_media "clip.mЖv" = false.
Proof. repeat split; vm_compute; reflexivity. Qed.

(** X3.  [scan_folder] lists exactly the regular files with a media
    suffix, in any letter case, that it finds, next to what was listed:
    directories and other files are never added; the items already listed
    stay as they are, followed by new pending items; and no path comes to be
    listed twice. *)
Theorem scan_folder_media_files entries l :
  NoDup (map file_path l) ->
  NoDup (map file_path (scan_folder entries l)) /\
  (exists new, scan_folder entries l = l ++ new /\
               Forall (fun it => it = new_FileItem (file_path it)) new) /\
  (forall p, p ∈ map file_path (scan_folder entries l) <->
     p ∈ map file_path l \/
     exists e, e ∈ entries /\ entry_is_file e = true /\ is_media (entry_path e) = true /\
               entry_path e = p).
Proof.
  intros H. destruct (scan_folder_spec entries l) as (H1 & H2 & H3). auto.
Qed.

Lemma scan_folder_media_files_witness :
  let entries := [mkDirEntry "d/a.MP3" true; mkDirEntry "d/sub.mp4" false;
                  mkDirEntry "d/notes.txt" true; mkDirEntry "d/a.MP3" true] in
  let l := [new_FileItem "x.wav"] in
  NoDup (map file_path (scan_folder entries l)) /\
  (exists new, scan_folder entries l = l ++ new /\
               Forall (fun it => it = new_FileItem (file_path it)) new) /\
  (forall p, p ∈ map file_path (scan_folder entries l) <->
     p ∈ map file_path l \/
     exists e, e ∈ entries /\ entry_is_file e = true /\ is_media (entry_path e) = true /\
               entry_path e = p).
Proof.
  apply (scan_folder_media_files
           [mkDirEntry "d/a.MP3" true; mkDirEntry "d/sub.mp4" false;
            mkDirEntry "d/notes.txt" true; mkDirEntry "d/a.MP3" true]
           [new_FileItem "x.wav"]).
  cbn. apply NoDup_singleton.
Defined.

Lemma video_extensions_media x : x ∈ video_extensions -> x ∈ media_extensions.
Proof.
  unfold video_extensions, media_extensions. intros H.
  repeat (apply elem_of_cons in H as [->|H]; [set_solver|]).
  apply elem_of_nil in H. contradiction.
Qed.

(** X4.  The two lists of extensions agree on videos: every regular file
    that [transcribe_file] would treat as a video is listed by a scan of
    the folder that holds it. *)
Theorem scan_folder_lists_videos entries l e :
  e ∈ entries -> entry_is_file e = true -> is_video (entry_path e) = true ->
  entry_path e ∈ map file_path (scan_folder entries l).
Proof.
  intros Hin Hf Hv. apply (proj2 (proj2 (scan_folder_spec entries l))). right.
  exists e. repeat split; try assumption.
  unfold is_video in Hv. unfold is_media. apply bool_decide_eq_true.
  apply bool_decide_eq_true in Hv. apply video_extensions_media, Hv.
Qed.

Lemma scan_folder_lists_videos_witness :
  "d/clip.M4V" ∈ map file_path (scan_folder [mkDirEntry "d/clip.M4V" true] []).
Proof.
  apply (scan_folder_lists_videos [mkDirEntry "d/clip.M4V" true] []
           (mkDirEntry "d/clip.M4V" true)).
  - left.
  - reflexivity.
  - vm_compute. reflexivity.
Defined.

(** ** Saving the transcripts *)

Lemma save_item_counts write_text st it :
  let st' := save_item write_text st it in
  (saved_count st' + save_error_count st' =
   saved_count st + save_error_count st + (if to_save it then 1 else 0))%nat.
Proof.
  unfold save_item. destruct (to_save it); [|cbn; lia].
  destruct (write_text _ _ _); cbn; lia.
Qed.

Lemma save_fold_counts write_text l st :
  let st' := fold_left (save_item write_text) l st in
  (saved_count st' + save_error_count st' =
   saved_count st + save_error_count st + length (filter (fun it => to_save it = true) l))%nat.
Proof.
  revert st. induction l as [|it l IH]; intros st; [cbn; lia|].
  rewrite filter_cons. cbn [fold_left].
  rewrite IH. rewrite (save_item_counts write_text st it).
  destruct (to_save it) eqn:E.
  - rewrite decide_True by reflexivity. cbn [length]. lia.
  - rewrite decide_False by discriminate. lia.
Qed.

Lemma save_fold_other write_text l st k :
  (forall it, it ∈ l -> to_save it = true -> output_name it <> k) ->
  contents (fold_left (save_item write_text) l st) !! k = contents st !! k.
Proof.
  revert st. induction l as [|it l IH]; intros st H; [reflexivity|]. cbn.
  rewrite IH by (intros it' Hin; apply H; right; exact Hin).
  unfold save_item. destruct (to_save it) eqn:E; [|reflexivity].
  specialize (H it ltac:(left) E).
  destruct (write_text _ _ _) as [|[c|] e]; cbn; rewrite ?lookup_insert_ne by exact H;
    reflexivity.
Qed.

(** The stem of a file with a plain name and extension in a folder. *)
Lemma path_stem_plain dir base ext :
  Str.contains "/" base = false -> Str.contains "/" ext = false ->
  Str.contains "." ext = false -> base <> "" -> ext <> "" ->
  path_stem (dir +:+ "/" +:+ base +:+ "." +:+ ext) = base.
Proof.
  intros Hb He Hd Hb0 He0. unfold path_stem, Str.path_name.
  change (dir +:+ "/" +:+ base +:+ "." +:+ ext)
    with (dir +:+ String "/" (base +:+ String "." ext)).
  rewrite StrFacts.rsplit1_app
    by (rewrite StrFacts.contains_append, Hb; simpl; exact He).
  rewrite StrFacts.rsplit1_app by exact Hd.
  rewrite !bool_decide_eq_false_2 by assumption. reflexivity.
Qed.

Lemma contains_path_name p : Str.contains "/" (Str.path_name p) = false.
Proof.
  unfold Str.path_name. destruct (Str.rsplit1 "/" p) as [[h t]|] eqn:E.
  - apply StrFacts.rsplit1_Some in E. tauto.
  - apply StrFacts.rsplit1_None, E.
Qed.

(** The name of an output file is a plain file name. *)
Lemma output_name_plain it :
  Str.contains "/" (output_name it) = false /\ output_name it <> "".
Proof.
  unfold output_name, path_stem. pose proof (contains_path_name (file_path it)) as Hn.
  split.
  - rewrite StrFacts.contains_append. apply orb_false_iff. split; [|reflexivity].
    destruct (Str.rsplit1 "." (Str.path_name (file_path it))) as [[h t]|] eqn:E; [|exact Hn].
    destruct (bool_decide (h = "") || bool_decide (t = "")); [exact Hn|].
    apply StrFacts.rsplit1_Some in E as [E _]. rewrite E, StrFacts.contains_append in Hn.
    apply orb_false_iff in Hn. tauto.
  - intros H. apply (f_equal String.length) in H. rewrite length_append in H.
    simpl in H. lia.
Qed.

(** X5.  When the directory dialog is not cancelled, [save_transcriptions]
    tries once each item that is done with a transcript that is not empty,
    so that the two counts of the message box add up to the number of these
    items; and in the directory it writes to no file but those named after
    these items, plain file names all: every other file of the directory
    keeps its content, or stays absent. *)
Theorem save_transcriptions_counts write_text save_dir l fs :
  save_dir <> "" ->
  exists st d,
    save_transcriptions write_text save_dir l fs = Some (st, d) /\
    (saved_count st + save_error_count st =
     length (filter (fun it => to_save it = true) l))%nat /\
    (forall k, (forall it, it ∈ l -> to_save it = true -> output_name it <> k) ->
               contents st !! k = fs !! k) /\
    (forall it, Str.contains "/" (output_name it) = false /\ output_name it <> "").
Proof.
  intros Hd. unfold save_transcriptions, Str.truthy.
  rewrite bool_decide_eq_false_2 by exact Hd. cbn [negb].
  eexists _, _. split; [reflexivity|]. split; [|split].
  - rewrite save_fold_counts. reflexivity.
  - intros k Hk. rewrite save_fold_other by exact Hk. reflexivity.
  - apply output_name_plain.
Qed.

Lemma save_transcriptions_counts_witness :
  let l := [mkFileItem "a/talk.mp4" "Готово" "hello" "";
            mkFileItem "b/noise.mp3" "Готово" "" "";
            mkFileItem "c/bad.mp3" "Ошибка: x" "" "x"] in
  exists st d,
    save_transcriptions (fun _ _ _ => Saved) "/" l ∅ = Some (st, d) /\
    (saved_count st + save_error_count st =
     length (filter (fun it => to_save it = true) l))%nat /\
    (forall k, (forall it, it ∈ l -> to_save it = true -> output_name it <> k) ->
               contents st !! k = (∅ : gmap string string) !! k) /\
    (forall it, Str.contains "/" (output_name it) = false /\ output_name it <> "").
Proof.
  apply (save_transcriptions_counts (fun _ _ _ => Saved) "/"
           [mkFileItem "a/talk.mp4" "Готово" "hello" "";
            mkFileItem "b/noise.mp3" "Готово" "" "";
            mkFileItem "c/bad.mp3" "Ошибка: x" "" "x"] ∅).
  discriminate.
Defined.

(** X6.  Output files are named after the stem of the source alone: a
    file with a plain name in any folder and with any extension is saved
    under its name without the extension, followed by "_transcription.txt".
    Items of the same stem thus share an output file: when every write
    succeeds, the file holds the transcript of the last of them, whatever
    the transcripts of those before it, although each has been counted as
    saved. *)
Theorem save_transcriptions_last_writer write_text save_dir l1 it l2 fs :
  save_dir <> "" ->
  (forall m k c, write_text m k c = Saved) ->
  to_save it = true ->
  (forall it', it' ∈ l2 -> to_save it' = true -> output_name it' <> output_name it) ->
  (forall dir base ext st t e,
     Str.contains "/" base = false -> Str.contains "/" ext = false ->
     Str.contains "." ext = false -> base <> "" -> ext <> "" ->
     output_name (mkFileItem (dir +:+ "/" +:+ base +:+ "." +:+ ext) st t e)
     = base +:+ "_transcription.txt") /\
  exists st d,
    save_transcriptions write_text save_dir (l1 ++ it :: l2) fs = Some (st, d) /\
    (forall it0, it0 ∈ l1 ++ [it] -> output_name it0 = output_name it ->
       contents st !! output_name it0 = Some (transcription it)) /\
    saved_count st = length (filter (fun it => to_save it = true) (l1 ++ it :: l2)).
Proof.
  intros Hd Hw Hit Hl2. split.
  { intros dir base ext st t e Hb He Hdot Hb0 He0. unfold output_name. cbn [file_path].
    rewrite path_stem_plain by assumption. reflexivity. }
  unfold save_transcriptions, Str.truthy.
  rewrite bool_decide_eq_false_2 by exact Hd. cbn [negb].
  eexists _, _. split; [reflexivity|]. split.
  - intros it0 _ ->.
    rewrite fold_left_app. cbn [fold_left]. rewrite save_fold_other by exact Hl2.
    unfold save_item at 1. rewrite Hit, Hw. cbn. apply lookup_insert_eq.
  - pose proof (save_fold_counts write_text (l1 ++ it :: l2) (mkSaveState fs 0 0 []))
      as Hc. cbn in Hc.
    assert (He : forall l st, save_error_count (fold_left (save_item write_text) l st)
                              = save_error_count st).
    { clear -Hw. induction l as [|a l IH]; intros st; [reflexivity|]. cbn. rewrite IH.
      unfold save_item. destruct (to_save a); [|reflexivity]. rewrite Hw. reflexivity. }
    rewrite He in Hc. cbn in Hc. lia.
Qed.

Lemma save_transcriptions_last_writer_witness :
  let first := mkFileItem "a/talk.mp4" "Готово" "one" "" in
  let second := mkFileItem "b/talk.mp3" "Готово" "two" "" in
  (forall dir base ext st t e,
     Str.contains "/" base = false -> Str.contains "/" ext = false ->
     Str.contains "." ext = false -> base <> "" -> ext <> "" ->
     output_name (mkFileItem (dir +:+ "/" +:+ base +:+ "." +:+ ext) st t e)
     = base +:+ "_transcription.txt") /\
  exists st d,
    save_transcriptions (fun _ _ _ => Saved) "/out/" ([first] ++ second :: []) ∅
      = Some (st, d) /\
    (forall it0, it0 ∈ [first] ++ [second] -> output_name it0 = output_name second ->
       contents st !! output_name it0 = Some (transcription second)) /\
    saved_count st = length (filter (fun it => to_save it = true) ([first] ++ second :: [])).
Proof.
  apply (save_transcriptions_last_writer (fun _ _ _ => Saved) "/out/"
           [mkFileItem "a/talk.mp4" "Готово" "one" ""]
           (mkFileItem "b/talk.mp3" "Готово" "two" "") [] ∅).
  - discriminate.
  - reflexivity.
  - reflexivity.
  - intros it' H. apply elem_of_nil in H. contradiction.
Defined.

(** ** The window during a run *)

Lemma settledb_spec s : settledb s = true <-> settled s.
Proof.
  unfold settledb, settled. destruct (runner s); split; try discriminate;
    try (intros [H _]; discriminate H).
  - intros H. apply Nat.eqb_eq in H. auto.
  - intros [_ H]. apply Nat.eqb_eq, H.
Qed.

(** A task emits signals for its own item only, with the path of the item. *)
Lemma task_step_signals env self i w p w' p' :
  task_step env self i w p = Some (w', p') ->
  exists l, emitted w' = emitted w ++ l /\
    Forall (fun sg => exists st, sg = progress_update (Z.of_nat i) (item_path w i) st) l.
Proof.
  destruct p; cbn [task_step]; intros H.
  - injection H as <- <-. eexists [_]. split; [reflexivity|]. repeat constructor. eauto.
  - destruct (extract_audio_from_video env (disk w) (item_path w i)).
    injection H as <- <-. exists []. rewrite app_nil_r. split; [reflexivity|constructor].
  - destruct (model_transcribe env _ _ _ _); injection H as <- <-.
    + eexists [_]. split; [reflexivity|]. repeat constructor. eauto.
    + exists []. rewrite app_nil_r. split; [reflexivity|constructor].
  - exists []. rewrite app_nil_r. split; [|constructor].
    destruct (temp_present temp w) as [t|]; [destruct (os_remove env (disk w) t)|];
      injection H as <- <-; reflexivity.
  - injection H as <- <-. unfold handle_exception. rewrite emitted_remove_quietly.
    eexists [_]. split; [reflexivity|]. repeat constructor. eauto.
  - discriminate.
Qed.

Lemma not_finished_app (l l' : list Signal) :
  finished ∉ l -> finished ∉ l' -> finished ∉ l ++ l'.
Proof. intros H H' Hin. apply elem_of_app in Hin as [?|?]; contradiction. Qed.

Lemma task_signals_not_finished i path (l : list Signal) :
  Forall (fun sg => exists st, sg = progress_update i path st) l -> finished ∉ l.
Proof.
  intros H Hin. rewrite Forall_forall in H. destruct (H _ Hin) as [st Hst]. discriminate.
Qed.

Ltac sys_norm :=
  unfold with_runner, with_world, with_pool, run_exception, emit;
  cbn [world delivered gui pool runner files disk emitted];
  rewrite <- ?app_assoc; cbn [app].

Lemma settledb_handle_signal sg s : settledb (handle_signal sg s) = settledb s.
Proof.
  destruct sg as [index path st|v|]; cbn [handle_signal]; [|reflexivity..].
  unfold on_progress_update. destruct (index =? -1)%Z; reflexivity.
Qed.

Lemma start_transcription_gui s0 : ready s0 -> gui_inv s0 (start_transcription s0).
Proof.
  intros (Hf & Hrun & Hd). unfold start_transcription, gui_inv.
  destruct (files (world s0)) as [|it0 l] eqn:Ef; [congruence|].
  rewrite Hrun, andb_false_r. exists []. cbn. rewrite app_nil_r, Hd, Nat.sub_diag.
  repeat split; try lia. apply not_elem_of_nil.
Qed.

Lemma step_gui env self N s0 s s' :
  step env s s' -> shape_inv env self N s -> gui_inv s0 s -> gui_inv s0 s'.
Proof.
  intros [c Hc] (Hw & Hn & Hd & Ha & Hr) (new & He & Hd0 & Hfin & Hbar & Hbtn).
  assert (Hlen : length (emitted (world s)) = (length (emitted (world s0)) + length new)%nat)
    by (rewrite He, length_app; reflexivity).
  assert (Hgrow : forall l g p pl r,
            runner s <> RFinished -> finished ∉ new ->
            match r with
            | RFinished => exists pre, new ++ l = pre ++ [finished] /\ finished ∉ pre
            | _ => finished ∉ new ++ l
            end ->
            (l = [] -> r <> RFinished) ->
            gui_inv s0 (mkSys (mkWorld g p (emitted (world s) ++ l)) (delivered s) (gui s)
                              pl r)).
  { intros l g p pl r Hnf Hno Hr' Hl. exists (new ++ l). cbn.
    split; [rewrite He, app_assoc; reflexivity|]. split; [exact Hd0|]. split; [exact Hr'|].
    rewrite take_app_le by lia.
    split; [exact Hbar|].
    assert (Es : settledb s = false) by (unfold settledb; destruct (runner s); congruence).
    rewrite Es in Hbtn.
    assert (Es' : settledb (mkSys (mkWorld g p (emitted (world s) ++ l)) (delivered s) (gui s)
                              pl r) = false).
    { unfold settledb. cbn. destruct r; try reflexivity.
      apply Nat.eqb_neq. rewrite length_app.
      destruct l; [exfalso; apply Hl; reflexivity|cbn; lia]. }
    rewrite Es'. exact Hbtn. }
  destruct c as [|i|]; cbn [step_fn] in Hc.
  - rewrite Hw in Hc. unfold run_step in Hc.
    destruct (runner s) as [| | |total c|e|] eqn:Er; try discriminate.
    + injection Hc as <-. sys_norm. apply (Hgrow [_]); try discriminate; [exact Hfin|].
      apply not_finished_app; [exact Hfin|]. intros H. apply list_elem_of_singleton in H.
      discriminate.
    + destruct (load_model env (model_name self)) eqn:El.
      * destruct (max_workers self) as [|k] eqn:Ek; injection Hc as <-.
        -- sys_norm.
           apply (Hgrow [_; _; _]); try discriminate; [exact Hfin|].
           eexists (new ++ [_; _]). rewrite <- app_assoc. split; [reflexivity|].
           apply not_finished_app; [exact Hfin|]. intros H.
           repeat (apply elem_of_cons in H as [H|H]; [discriminate|]).
           apply elem_of_nil in H. exact H.
        -- sys_norm. apply (Hgrow [_]); try discriminate; [exact Hfin|].
           apply not_finished_app; [exact Hfin|]. intros H.
           apply list_elem_of_singleton in H. discriminate.
      * injection Hc as <-. sys_norm.
        apply (Hgrow [_; _]); try discriminate; [exact Hfin|].
        eexists (new ++ [_]). rewrite <- app_assoc. split; [reflexivity|].
        apply not_finished_app; [exact Hfin|]. intros H.
        apply list_elem_of_singleton in H. discriminate.
    + destruct (c <? count is_settled (pool s))%nat.
      * destruct (progress_percent _ _); injection Hc as <-.
        -- sys_norm. apply (Hgrow [_]); try discriminate; [exact Hfin|].
           apply not_finished_app; [exact Hfin|]. intros H.
           apply list_elem_of_singleton in H. discriminate.
        -- replace (with_runner (RRaised msg) s) with
             (mkSys (mkWorld (files (world s)) (disk (world s)) (emitted (world s) ++ []))
                (delivered s) (gui s) (pool s) (RRaised msg))
             by (rewrite app_nil_r; destruct s as [[? ? ?] ? ? ? ?]; reflexivity).
           apply (Hgrow []); try discriminate; [exact Hfin|]. rewrite app_nil_r. exact Hfin.
      * destruct (c =? length (pool s))%nat; [|discriminate]. injection Hc as <-.
        sys_norm. apply (Hgrow [_]); try discriminate; [exact Hfin|].
        exists new. split; [reflexivity|exact Hfin].
    + destruct (count is_settled (pool s) =? length (pool s))%nat; [|discriminate].
      injection Hc as <-. sys_norm.
      apply (Hgrow [_; _]); try discriminate; [exact Hfin|].
      eexists (new ++ [_]). rewrite <- app_assoc. split; [reflexivity|].
      apply not_finished_app; [exact Hfin|]. intros H.
      apply list_elem_of_singleton in H. discriminate.
  - rewrite Hw in Hc. unfold pool_step in Hc.
    destruct (pool s !! i) as [p|] eqn:Ep; [|discriminate].
    destruct (is_queued p && negb (can_start i (pool s) (max_workers self))); [discriminate|].
    destruct (task_step env self i (world s) p) as [[w' p']|] eqn:Et; [|discriminate].
    injection Hc as <-.
    assert (Hnf : runner s <> RFinished).
    { intros Er. rewrite Er in Hr. destruct Hr as [Hall _].
      pose proof (count_all _ _ _ _ Hall Ep) as Hs. destruct p; try discriminate. }
    destruct (task_step_signals _ _ _ _ _ _ _ Et) as (l & El & Hl).
    pose proof (task_signals_not_finished _ _ _ Hl) as Hnl.
    assert (Hno : finished ∉ new) by (destruct (runner s); try exact Hfin; congruence).
    destruct w' as [f' d' e']. cbn in El. subst e'.
    exists (new ++ l). cbn.
    split; [rewrite He, app_assoc; reflexivity|]. split; [exact Hd0|].
    split; [destruct (runner s); try congruence; apply not_finished_app; assumption|].
    rewrite take_app_le by lia. split; [exact Hbar|].
    assert (Es : settledb s = false) by (unfold settledb; destruct (runner s); congruence).
    rewrite Es in Hbtn. unfold settledb. cbn. destruct (runner s); try congruence; exact Hbtn.
  - unfold gui_step in Hc.
    destruct (emitted (world s) !! delivered s) as [sg|] eqn:Eg; [|discriminate].
    injection Hc as <-. pose proof (lookup_lt_Some _ _ _ Eg) as Hlt.
    assert (Eg' : new !! (delivered s - length (emitted (world s0)))%nat = Some sg).
    { rewrite He, lookup_app_r in Eg by exact Hd0. exact Eg. }
    assert (Es : settledb s = false).
    { unfold settledb. destruct (runner s); try reflexivity. apply Nat.eqb_neq. lia. }
    rewrite Es in Hbtn. destruct Hbtn as (Hb1 & Hb2 & Hdl).
    assert (Htake : take (S (delivered s) - length (emitted (world s0))) new
                    = take (delivered s - length (emitted (world s0))) new ++ [sg]).
    { replace (S (delivered s) - length (emitted (world s0)))%nat
        with (S (delivered s - length (emitted (world s0)))) by lia.
      apply take_S_r, Eg'. }
    assert (Hlast : forall v : Z, last (percentages
              (take (delivered s - length (emitted (world s0))) new) ++ [v]) = Some v).
    { intros v. apply last_snoc. }
    assert (Hnotlast : sg <> finished -> runner s = RFinished ->
                       S (delivered s) <> length (emitted (world s))).
    { intros Hsg Er E. rewrite Er in Hfin. destruct Hfin as (pre & Hpre & _).
      rewrite Hpre, length_app in Hlen. cbn in Hlen.
      rewrite Hpre, lookup_app_r in Eg' by lia.
      replace (delivered s - length (emitted (world s0)) - length pre)%nat with 0%nat in Eg'
        by lia.
      cbn in Eg'. congruence. }
    assert (Hset : sg <> finished ->
              settledb (handle_signal sg
                (mkSys (world s) (S (delivered s)) (gui s) (pool s) (runner s))) = false).
    { intros Hsg. rewrite settledb_handle_signal. unfold settledb.
      cbn [runner delivered world]. destruct (runner s) eqn:Er; try reflexivity.
      apply Nat.eqb_neq, Hnotlast; [exact Hsg|reflexivity]. }
    destruct sg as [index path st|v|].
    + exists new. rewrite Hset by discriminate. unfold handle_signal, on_progress_update.
      destruct (index =? -1)%Z; unfold with_gui, with_world, update_item, set_status_label;
        cbn [world delivered gui pool runner files disk emitted overall_progress
             start_btn_enabled save_btn_enabled dialogs];
        rewrite Htake, percentages_app; cbn [percentages]; rewrite app_nil_r;
        (split; [exact He|]); (split; [lia|]); (split; [exact Hfin|]); auto.
    + exists new. rewrite Hset by discriminate. unfold handle_signal, on_file_progress.
      unfold with_gui. cbn [world delivered gui pool runner set_overall_progress overall_progress
        start_btn_enabled save_btn_enabled dialogs].
      rewrite Htake, percentages_app. cbn [percentages]. rewrite Hlast.
      (split; [exact He|]); (split; [lia|]); (split; [exact Hfin|]); auto.
    + assert (Er : runner s = RFinished).
      { destruct (runner s); try reflexivity; exfalso; apply Hfin;
          eapply list_elem_of_lookup_2; exact Eg'. }
      rewrite Er in Hfin. destruct Hfin as (pre & Hpre & Hnpre).
      assert (Hidx : (delivered s - length (emitted (world s0)))%nat = length pre).
      { destruct (decide (delivered s - length (emitted (world s0)) < length pre)%nat) as [Hl|Hl].
        - exfalso. apply Hnpre. rewrite Hpre, lookup_app_l in Eg' by exact Hl.
          eapply list_elem_of_lookup_2; exact Eg'.
        - rewrite Hpre, length_app in Hlen. cbn in Hlen. lia. }
      assert (Eyes : settledb (handle_signal finished
                       (mkSys (world s) (S (delivered s)) (gui s) (pool s) (runner s))) = true).
      { rewrite settledb_handle_signal. unfold settledb. cbn [runner delivered world].
        rewrite Er. apply Nat.eqb_eq.
        rewrite Hpre, length_app in Hlen. cbn in Hlen. lia. }
      exists new. rewrite Eyes. unfold handle_signal, on_transcription_finished, with_gui.
      cbn [world delivered gui pool runner show set_status_label set_buttons overall_progress
        start_btn_enabled save_btn_enabled dialogs status_label].
      rewrite Er, Htake, percentages_app. cbn [percentages].
      rewrite app_nil_r. split; [exact He|]. split; [lia|].
      split; [exists pre; auto|]. split; [exact Hbar|].
      rewrite Hdl. repeat split.
Qed.

Lemma rtc_gui_from env self N s0 s s' :
  rtc (step env) s s' -> shape_inv env self N s -> gui_inv s0 s ->
  shape_inv env self N s' /\ gui_inv s0 s'.
Proof.
  induction 1 as [|s1 s2 s3 Hst _ IH]; [auto|].
  intros Hsh Hg. apply IH; [eapply step_shape|eapply step_gui]; eauto.
Qed.

(** The window in every state of a run. *)
Lemma run_gui env s0 s :
  ready s0 -> rtc (step env) (start_transcription s0) s -> gui_inv s0 s.
Proof.
  intros Hready Hs.
  destruct (run_invariants env _ _ Hready (rtc_refl _ _)) as (self & _ & _ & Hsh0).
  apply (rtc_gui_from env self _ s0 _ _ Hs Hsh0 (start_transcription_gui s0 Hready)).
Qed.

(** X7.  During a run the two buttons stay disabled and no message box is
    shown, until the completion signal has been handled: then, and only
    then, both buttons are enabled, the label reads that the transcription
    has completed, and exactly one message box has been shown, with the
    counts of the items as they are. *)
Theorem run_buttons_and_dialog env s0 s :
  ready s0 -> rtc (step env) (start_transcription s0) s ->
  (settled s ->
   start_btn_enabled (gui s) = true /\ save_btn_enabled (gui s) = true /\
   status_label (gui s) = "Транскрипция завершена!" /\
   dialogs (gui s) = dialogs (gui s0) ++ [completion_dialog (files (world s))]) /\
  (~ settled s ->
   start_btn_enabled (gui s) = false /\ save_btn_enabled (gui s) = false /\
   dialogs (gui s) = dialogs (gui s0)).
Proof.
  intros Hready Hs.
  destruct (run_gui env s0 s Hready Hs) as (new & _ & _ & _ & _ & Hbtn).
  destruct (settledb s) eqn:E.
  - split; [intros _; exact Hbtn|]. intros H. exfalso. apply H, settledb_spec, E.
  - split; [|intros _; exact Hbtn]. intros H. apply settledb_spec in H. congruence.
Qed.

Lemma run_buttons_and_dialog_witness :
  let s0 := initial ["interview.mp3"] ∅ in
  let s := Scenarios.one_audio_run "hello" in
  (settled s ->
   start_btn_enabled (gui s) = true /\ save_btn_enabled (gui s) = true /\
   status_label (gui s) = "Транскрипция завершена!" /\
   dialogs (gui s) = dialogs (gui s0) ++ [completion_dialog (files (world s))]) /\
  (~ settled s ->
   start_btn_enabled (gui s) = false /\ save_btn_enabled (gui s) = false /\
   dialogs (gui s) = dialogs (gui s0)).
Proof.
  apply (run_buttons_and_dialog (Examples.env_ok "hello") (initial ["interview.mp3"] ∅)
           (Scenarios.one_audio_run "hello")).
  - apply initial_ready. discriminate.
  - apply one_audio_run_reachable.
Defined.

Lemma counts_pending (l : list FileItem) :
  done_count (map reset_item l) = 0%nat /\ error_count (map reset_item l) = 0%nat.
Proof.
  unfold done_count, error_count. induction l as [|it l [IH1 IH2]]; [split; reflexivity|].
  cbn [map]. rewrite !filter_cons.
  rewrite !decide_False by (cbn; discriminate). auto.
Qed.

(** X9.  A model that does not load goes unreported: the text of the
    exception travels in the argument of the signal that the slot ignores,
    the label shows the bare failure status only until the completion signal
    is handled, and the window ends as after a run without items, with a
    message box that reports no success and no failure, and an empty
    progress bar. *)
Theorem load_failure_unreported env s0 s e :
  ready s0 ->
  load_model env (model_combo (gui s0)) = Raise e ->
  rtc (step env) (start_transcription s0) s ->
  settled s ->
  status_label (gui s) = "Транскрипция завершена!" /\
  overall_progress (gui s) = 0%Z /\
  start_btn_enabled (gui s) = true /\ save_btn_enabled (gui s) = true /\
  dialogs (gui s) = dialogs (gui s0) ++
    [information "Транскрипциязавершена"
       ("Транскрипция  завершена!" +:+ nl +:+ nl +:+ "Успешно: 0" +:+ nl +:+ "Ошибок: 0")].
Proof.
  intros Hready Hload Hs Hset.
  destruct (run_gui env s0 s Hready Hs) as (new & He & Hd0 & _ & Hbar & Hbtn).
  rewrite (proj2 (settledb_spec s) Hset) in Hbtn. destruct Hbtn as (Hb1 & Hb2 & Hl & Hdl).
  destruct (rtc_load_failure env e s0 s Hload Hready Hs)
    as (_ & _ & Hf & _ & _ & k & He' & _).
  assert (Hnew : new = take k (load_failure_signals e)).
  { rewrite He in He'. apply app_inv_head in He'. exact He'. }
  split; [exact Hl|]. split; [|split; [exact Hb1|split; [exact Hb2|]]].
  - rewrite Hbar, Hnew.
    assert (Hp : forall n k', percentages (take n (take k' (load_failure_signals e))) = []).
    { intros n k'. destruct k' as [|[|[|[|k']]]], n as [|[|[|[|n]]]]; reflexivity. }
    rewrite Hp. reflexivity.
  - rewrite Hdl, Hf. unfold completion_dialog.
    destruct (counts_pending (files (world s0))) as [-> ->]. reflexivity.
Qed.

Lemma load_failure_unreported_witness :
  let s0 := initial ["interview.mp3"] ∅ in
  let s := exec Examples.env_no_model [CRun; CRun; CGui; CGui; CGui] (start_transcription s0) in
  status_label (gui s) = "Транскрипция завершена!" /\
  overall_progress (gui s) = 0%Z /\
  start_btn_enabled (gui s) = true /\ save_btn_enabled (gui s) = true /\
  dialogs (gui s) = dialogs (gui s0) ++
    [information "Транскрипциязавершена"
       ("Транскрипция  завершена!" +:+ nl +:+ nl +:+ "Успешно: 0" +:+ nl +:+ "Ошибок: 0")].
Proof.
  apply (load_failure_unreported Examples.env_no_model (initial ["interview.mp3"] ∅) _
           "model not found").
  - apply initial_ready. discriminate.
  - reflexivity.
  - apply exec_rtc.
  - split; vm_compute; reflexivity.
Defined.




(** ** The temporary audio file *)

Lemma append_inj_head (a b c : string) : a +:+ b = a +:+ c -> b = c.
Proof. induction a as [|x a IH]; simpl; intros H; [exact H|]. injection H as H. auto. Qed.

(** X14.  The temporary audio file is never the video itself: extraction
    cannot overwrite its source, and the deletion at the end of the task
    cannot remove it. *)
Theorem temp_audio_path_not_source p : temp_audio_path_of p <> p.
Proof.
  unfold temp_audio_path_of, Str.rsplit.
  destruct (Str.rsplit1 "." p) as [[h t]|] eqn:E; cbn [hd].
  - apply StrFacts.rsplit1_Some in E as [-> _]. intros H.
    apply append_inj_head in H. discriminate.
  - intros H. apply (f_equal String.length) in H. rewrite length_append in H. cbn in H. lia.
Qed.

(** ** What the worker thread emits, and what the window shows of it *)

Lemma run_signals_app l l' : run_signals (l ++ l') = run_signals l ++ run_signals l'.
Proof. unfold run_signals. apply List.filter_app. Qed.

Lemma percentages_run_signals l : percentages (run_signals l) = percentages l.
Proof.
  unfold run_signals. induction l as [|sg l IH]; [reflexivity|].
  destruct sg as [index path st|v|]; cbn; [|rewrite IH; reflexivity|exact IH].
  destruct (0 <=? index)%Z; cbn; exact IH.
Qed.

Lemma run_signals_task i path (l : list Signal) :
  Forall (fun sg => exists st, sg = progress_update (Z.of_nat i) path st) l ->
  run_signals l = [] /\ percentages l = [].
Proof.
  induction 1 as [|sg l [st ->] _ [IH1 IH2]]; [split; reflexivity|].
  unfold run_signals in *. cbn.
  destruct (Z.leb_spec 0 (Z.of_nat i)); [|lia]. cbn. auto.
Qed.

Lemma step_proto env self N E0 s s' :
  (Z.of_nat N <= maxsize)%Z ->
  step env s s' -> shape_inv env self N s -> proto_inv env self E0 s ->
  proto_inv env self E0 s'.
Proof.
  intros HN [c Hc] (Hw & Hn & Hd & Ha & Hr) (new & He & Hrun).
  destruct c as [|i|]; cbn [step_fn] in Hc.
  - rewrite Hw in Hc. unfold run_step in Hc.
    destruct (runner s) as [| | |total c|e|] eqn:Er; try contradiction; try discriminate.
    + injection Hc as <-. eexists (new ++ [_]). cbn. rewrite He, <- app_assoc.
      split; [reflexivity|]. rewrite run_signals_app, Hrun. reflexivity.
    + destruct (load_model env (model_name self)) eqn:El.
      * destruct (max_workers self) as [|k] eqn:Ek; injection Hc as <-.
        -- eexists (new ++ [_; _; _]). cbn. rewrite He, <- !app_assoc.
           split; [reflexivity|]. auto.
        -- eexists (new ++ [_]). cbn. rewrite He, <- !app_assoc. split; [reflexivity|].
           rewrite run_signals_app, percentages_app, Hrun. cbn.
           assert (Hp : percentages new = [])
             by (rewrite <- percentages_run_signals, Hrun; reflexivity).
           rewrite Hp. reflexivity.
      * injection Hc as <-. eexists (new ++ [_; _]). cbn. rewrite He, <- !app_assoc.
        split; [reflexivity|]. eauto.
    + destruct Hr as (-> & Hl & Hc').
      destruct (c <? count is_settled (pool s))%nat eqn:Elt.
      * apply Nat.ltb_lt in Elt. pose proof (count_le_length is_settled (pool s)) as Hcl.
        destruct (progress_percent_Ok (Z.of_nat (S c)) (Z.of_nat N) ltac:(lia) HN) as [v Hv].
        rewrite Hv in Hc. injection Hc as <-.
        exists (new ++ [file_progress v]). cbn. rewrite He, <- app_assoc.
        split; [reflexivity|]. rewrite run_signals_app, percentages_app, Hrun.
        unfold loaded_signals. cbn. rewrite map_app, <- ?app_assoc. reflexivity.
      * destruct (c =? length (pool s))%nat eqn:Eeq; [|discriminate]. injection Hc as <-.
        exists (new ++ [finished]). cbn. rewrite He, <- app_assoc.
        split; [reflexivity|]. left. rewrite run_signals_app, percentages_app, Hrun. cbn.
        rewrite app_nil_r. reflexivity.
  - rewrite Hw in Hc. unfold pool_step in Hc.
    destruct (pool s !! i) as [p|] eqn:Ep; [|discriminate].
    destruct (is_queued p && negb (can_start i (pool s) (max_workers self))); [discriminate|].
    destruct (task_step env self i (world s) p) as [[w' p']|] eqn:Et; [|discriminate].
    injection Hc as <-.
    assert (Hnf : runner s <> RFinished).
    { intros Er. rewrite Er in Hr. destruct Hr as [Hall _].
      pose proof (count_all _ _ _ _ Hall Ep) as Hs. destruct p; try discriminate. }
    destruct (task_step_signals _ _ _ _ _ _ _ Et) as (l & El & Hl).
    destruct (run_signals_task _ _ _ Hl) as [Hl1 Hl2].
    exists (new ++ l). cbn. rewrite El, He, <- app_assoc. split; [reflexivity|].
    rewrite run_signals_app, percentages_app, Hl1, Hl2, !app_nil_r.
    destruct (runner s); try exact Hrun; congruence.
  - destruct (gui_step_shape _ _ Hc) as (_ & Hem & _ & _ & Hp & Hrn & _).
    exists new. rewrite Hem, Hrn. auto.
Qed.

Lemma rtc_proto_from env self N E0 s s' :
  (Z.of_nat N <= maxsize)%Z ->
  rtc (step env) s s' -> shape_inv env self N s -> proto_inv env self E0 s ->
  shape_inv env self N s' /\ proto_inv env self E0 s'.
Proof.
  intros HN. induction 1 as [|s1 s2 s3 Hst _ IH]; [auto|].
  intros Hsh Hp. apply IH; [eapply step_shape|eapply step_proto]; eauto.
Qed.

(** X18.  What [run] itself emits when the model loads, for a list of at
    most [sys.maxsize] items: the two loading messages, then one percentage
    for each item, then the completion signal, and nothing else: the handler
    of line 118 emits no failure, as neither the division of line 113 nor
    the executor raises. *)
Theorem run_protocol env s0 s :
  ready s0 ->
  (Z.of_nat (length (files (world s0))) <= maxsize)%Z ->
  load_model env (model_combo (gui s0)) = Ok tt ->
  rtc (step env) (start_transcription s0) s ->
  settled s ->
  run_signals (since s0 s) = loaded_signals (percentages (since s0 s)) ++ [finished] /\
  length (percentages (since s0 s)) = length (files (world s0)).
Proof.
  intros Hready HN Hload Hs Hset.
  destruct (run_invariants env _ _ Hready (rtc_refl _ _)) as (self & Hk & Hm & Hsh0).
  assert (Hp0 : proto_inv env self (emitted (world s0)) (start_transcription s0)).
  { destruct Hready as (Hf & Hrun & Hd). unfold start_transcription in *.
    destruct (files (world s0)) as [|it0 l] eqn:Ef; [congruence|].
    rewrite Hrun, andb_false_r in *. exists []. cbn. rewrite app_nil_r. auto. }
  destruct (rtc_proto_from env self _ _ _ _ HN Hs Hsh0 Hp0) as [Hsh (new & He & Hrun)].
  assert (Hsince : since s0 s = new).
  { unfold since. rewrite He, drop_app_length. reflexivity. }
  destruct (run_percentages env s0 s Hready HN Hs) as (_ & _ & _ & Hfin).
  rewrite Hsince in *. destruct Hset as [Hr _]. rewrite Hr in Hrun.
  destruct Hsh as (_ & Hn & _ & _ & Hshr). rewrite Hr in Hshr.
  destruct Hrun as [Hrun|[[e He']|H0]].
  - split; [exact Hrun|]. rewrite (Hfin Hr).
    destruct Hshr as [_ [Hl|[_ [[e He']|H0]]]]; [exact Hl| |].
    + assert (Hmn : model_name self = model_combo (gui s0)) by exact Hm.
      rewrite Hmn, Hload in He'. discriminate.
    + assert (Hk2 : max_workers self = 2%nat) by exact Hk. lia.
  - assert (Hmn : model_name self = model_combo (gui s0)) by exact Hm.
    rewrite Hmn, Hload in He'. discriminate.
  - assert (Hk2 : max_workers self = 2%nat) by exact Hk. lia.
Qed.

Lemma run_protocol_witness :
  let s0 := initial ["interview.mp3"] ∅ in
  let s := Scenarios.one_audio_run "hello" in
  run_signals (since s0 s) = loaded_signals (percentages (since s0 s)) ++ [finished] /\
  length (percentages (since s0 s)) = length (files (world s0)).
Proof.
  apply (run_protocol (Examples.env_ok "hello") (initial ["interview.mp3"] ∅)
           (Scenarios.one_audio_run "hello")).
  - apply initial_ready. discriminate.
  - vm_compute. discriminate.
  - reflexivity.
  - apply one_audio_run_reachable.
  - split; vm_compute; reflexivity.
Defined.

(** X20.  The worker that [start_transcription] creates never has "auto"
    as its language: the engine is called with the language of the combo
    box, or without a language when the box shows "auto" or nothing; and
    its task is to translate exactly when the box is checked. *)
Theorem start_transcription_language s0 :
  ready s0 ->
  exists self,
    worker (gui (start_transcription s0)) = Some self /\
    language self <> Some "auto" /\
    language_argument self =
      (if bool_decide (language_combo (gui s0) = "auto")
          || bool_decide (language_combo (gui s0) = "")
       then None else Some (language_combo (gui s0))) /\
    task self = (if translate_checkbox (gui s0) then "translate" else "transcribe") /\
    model_name self = model_combo (gui s0) /\ max_workers self = 2%nat.
Proof.
  intros (Hf & Hrun & Hd). unfold start_transcription.
  destruct (files (world s0)) as [|it0 l] eqn:Ef; [congruence|].
  rewrite Hrun, andb_false_r. eexists. split; [reflexivity|].
  unfold language_argument, Str.truthy. cbn [language task model_name max_workers].
  repeat case_bool_decide; cbn; repeat split; congruence.
Qed.

Lemma start_transcription_language_witness :
  let s0 := initial ["interview.mp3"] ∅ in
  exists self,
    worker (gui (start_transcription s0)) = Some self /\
    language self <> Some "auto" /\
    language_argument self =
      (if bool_decide (language_combo (gui s0) = "auto")
          || bool_decide (language_combo (gui s0) = "")
       then None else Some (language_combo (gui s0))) /\
    task self = (if translate_checkbox (gui s0) then "translate" else "transcribe") /\
    model_name self = model_combo (gui s0) /\ max_workers self = 2%nat.
Proof.
  apply (start_transcription_language (initial ["interview.mp3"] ∅)).
  apply initial_ready. discriminate.
Defined.








